(** * Land-use simulated annealing: distance fields, scoring, annealing loop

    A shallow embedding of [SimulatedAnnealing_landuse.cpp].

    - [double] is IEEE binary64, i.e. Rocq's primitive [float]; a [float]
      preference weight is promoted to [double] before it is divided, and every
      binary32 value is a binary64 value, so weights are [float]s as well.
    - [vector<vector<T>>] is a list of rows, indexed by [int]s (here [Z]);
      an index out of range is undefined behaviour and shows up as [Undefined].
    - [map::at] throws [std::out_of_range] on a missing key: [Thrown].
    - [rand()] is a tape of integers that the program consumes from the
      front; a loop that wants a draw from an empty tape is [Starved].
    - The two [while] loops take a bound on their number of turns; a loop
      that would go beyond it is [OutOfFuel].
    - [int] is 32 bits wide; [iteration++] beyond [INT_MAX] is [Undefined].
    - [exp] (libm) and [RAND_MAX] (<cstdlib>) are parameters.
    - [ROWS] and [COLS] are [12] in the source; the development is parametric
      in them, and [Source] holds the source's values and the layout of [main]. *)

From Stdlib Require Import ZArith Floats Uint63 Ascii.
From stdpp Require Import base decidable option list gmap.

Local Open Scope Z_scope.

(** ** Cell labels *)

Inductive CellType :=
| EMPTY | RESIDENTIAL | OFFICE | COM_SHOP | COM_CAFE
| TRANSPORT | PUBLIC | LANDSCAPE | ROAD.

#[global] Instance CellType_eq_dec : EqDecision CellType.
Proof. solve_decision. Defined.

Definition CellType_to_nat (c : CellType) : nat :=
  match c with
  | EMPTY => 0 | RESIDENTIAL => 1 | OFFICE => 2 | COM_SHOP => 3 | COM_CAFE => 4
  | TRANSPORT => 5 | PUBLIC => 6 | LANDSCAPE => 7 | ROAD => 8
  end%nat.

Definition CellType_of_nat (n : nat) : CellType :=
  match n with
  | 1 => RESIDENTIAL | 2 => OFFICE | 3 => COM_SHOP | 4 => COM_CAFE
  | 5 => TRANSPORT | 6 => PUBLIC | 7 => LANDSCAPE | 8 => ROAD
  | _ => EMPTY
  end%nat.

#[global] Instance CellType_countable : Countable CellType.
Proof.
  apply (inj_countable' CellType_to_nat CellType_of_nat).
  by intros [].
Defined.

(** [landUseTypes] and [agentTypes], in the order the source lists them. *)
Definition landUseTypes : list CellType := [TRANSPORT; PUBLIC; LANDSCAPE; ROAD].
Definition agentTypes : list CellType := [RESIDENTIAL; OFFICE; COM_SHOP; COM_CAFE].

(** [find(agentTypes.begin(), agentTypes.end(), c) != agentTypes.end()] *)
Definition is_agent (c : CellType) : bool := bool_decide (c ∈ agentTypes).

(** ** Outcomes of fallible code *)

Inductive outcome (A : Type) :=
| Ok (a : A)
| Thrown       (* std::out_of_range *)
| Undefined    (* an index outside its vector, [% 0], signed overflow *)
| Starved      (* a draw is wanted and the tape is empty *)
| OutOfFuel.   (* the model's loop bound is used up *)
Arguments Ok {A} a.
Arguments Thrown {A}.
Arguments Undefined {A}.
Arguments Starved {A}.
Arguments OutOfFuel {A}.

#[global] Instance outcome_ret : MRet outcome := @Ok.
#[global] Instance outcome_bind : MBind outcome := λ A B f m,
  match m with
  | Ok a => f a
  | Thrown => Thrown
  | Undefined => Undefined
  | Starved => Starved
  | OutOfFuel => OutOfFuel
  end.

Definition or_undefined {A} (o : option A) : outcome A :=
  match o with Some a => Ok a | None => Undefined end.

Definition or_thrown {A} (o : option A) : outcome A :=
  match o with Some a => Ok a | None => Thrown end.

(** A [for] loop over [l] that threads the loop-carried variables [s]. *)
Fixpoint for_each {A S} (l : list A) (body : A → S → outcome S) (s : S) : outcome S :=
  match l with
  | [] => Ok s
  | a :: l' => s' ← body a s; for_each l' body s'
  end.

(** ** Two-dimensional vectors *)

Abbreviation matrix A := (list (list A)).
Abbreviation Grid := (list (list CellType)).
Abbreviation pos := (Z * Z)%type.

(** [m[x][y]] as a value, when both indices are in range. *)
Definition at2 {A} (m : matrix A) (x y : Z) : option A :=
  if bool_decide (0 ≤ x ∧ 0 ≤ y) then row ← m !! Z.to_nat x; row !! Z.to_nat y
  else None.

(** [m[x][y] = v]; only meaningful when [at2 m x y] is. *)
Definition set2 {A} (m : matrix A) (x y : Z) (v : A) : matrix A :=
  alter (λ row, <[Z.to_nat y := v]> row) (Z.to_nat x) m.

Definition read2 {A} (m : matrix A) (x y : Z) : outcome A := or_undefined (at2 m x y).

Definition write2 {A} (m : matrix A) (x y : Z) (v : A) : outcome (matrix A) :=
  match at2 m x y with
  | Some _ => Ok (set2 m x y v)
  | None => Undefined
  end.

(** ** Doubles and ints *)

Abbreviation double := PrimFloat.float.

(** [numeric_limits<double>::max()] *)
Definition DBL_MAX : double := 0x1.fffffffffffffp+1023%float.

(** [(double)n] for an [int] [n]. *)
Definition double_of_int (n : Z) : double :=
  if n <? 0 then (- PrimFloat.of_uint63 (Uint63.of_Z (- n)))%float
  else PrimFloat.of_uint63 (Uint63.of_Z n).

Definition INT_MAX : Z := 2147483647.

(** The value a cell holds after [n] relaxations starting from [0.0]. *)
Definition steps (n : nat) : double := Nat.iter n (λ d, d + 1)%float 0%float.
Arguments steps : simpl never.

(** Step counts below [step_bound] are told apart by [<] on doubles (checked
    by evaluation, see [steps_table_ok]). *)
Definition step_bound : nat := 256.

Definition steps_row (a : nat) (da : double) : bool :=
  (da <? DBL_MAX)%float &&
  PrimFloat.Leibniz.eqb da (double_of_int (Z.of_nat a)) &&
  forallb (λ b, Bool.eqb (da <? steps b)%float (a <? b)%nat) (seq 0 step_bound).

Definition steps_table : bool :=
  forallb (λ a, steps_row a (steps a)) (seq 0 step_bound).

(** Doubles are compared bit for bit (one NaN). *)
#[global] Instance double_eq_dec : EqDecision double.
Proof.
  intros x y. destruct (PrimFloat.Leibniz.eqb x y) eqn:E.
  - left. by apply FloatAxioms.Leibniz.eqb_spec.
  - right. intros H. apply FloatAxioms.Leibniz.eqb_spec in H. congruence.
Defined.

(** ** The program *)

(** [dx] and [dy] of the breadth-first search. *)
Definition dx : list Z := [-1; 0; 1; 0].
Definition dy : list Z := [0; 1; 0; -1].

(** The state of [optimiseGrid]'s loop: its local variables. *)
Record annealer := Annealer {
  grid : Grid;
  currentScore : double;
  bestGrid : Grid;
  bestScore : double;
  temperature : double;
  iteration : Z;
}.

(** What one turn of the loop computes before it decides. *)
Record proposal := Proposal {
  newGrid : Grid;
  newScore : double;
  deltaScore : double;
  accepted : bool;
}.

(** [rand()]: the next integer on the tape. *)
Definition rand (tape : list Z) : outcome (Z * list Z) :=
  match tape with
  | [] => Starved
  | r :: tape' => Ok (r, tape')
  end.

Section Landuse.
Variables ROWS COLS : Z.
Variable agentPreferences : gmap CellType (list double).
Variable exp : double → double.
Variable RAND_MAX : Z.

(** *** computeDistanceMaps *)

(** The body of the nested seeding loops. *)
Definition seed_cell (g : Grid) (landUseType : CellType) (i j : Z)
    (s : matrix double * list pos) : outcome (matrix double * list pos) :=
  let '(distanceMap, q) := s in
  c ← read2 g i j;
  if bool_decide (c = landUseType) then
    distanceMap' ← write2 distanceMap i j 0%float;
    Ok (distanceMap', q ++ [(i, j)])
  else Ok (distanceMap, q).

Definition seed (g : Grid) (landUseType : CellType)
    : outcome (matrix double * list pos) :=
  for_each (seqZ 0 ROWS)
    (λ i, for_each (seqZ 0 COLS) (seed_cell g landUseType i))
    (replicate (Z.to_nat ROWS) (replicate (Z.to_nat COLS) DBL_MAX), []).

(** One turn of [for (dir ...)] for the cell [(x, y)] taken off the queue. *)
Definition relax (x y : Z) (dir : nat) (s : matrix double * list pos)
    : outcome (matrix double * list pos) :=
  let '(distanceMap, q) := s in
  ddx ← or_undefined (dx !! dir);
  ddy ← or_undefined (dy !! dir);
  let nx := x + ddx in
  let ny := y + ddy in
  if bool_decide (0 ≤ nx ∧ nx < ROWS ∧ 0 ≤ ny ∧ ny < COLS) then
    dn ← read2 distanceMap nx ny;
    dc ← read2 distanceMap x y;
    if (dc + 1 <? dn)%float then
      distanceMap' ← write2 distanceMap nx ny (dc + 1)%float;
      Ok (distanceMap', q ++ [(nx, ny)])
    else Ok (distanceMap, q)
  else Ok (distanceMap, q).

(** [while (!q.empty())]; [fuel] bounds the number of cells taken off. *)
Fixpoint bfs (fuel : nat) (distanceMap : matrix double) (q : list pos)
    : outcome (matrix double) :=
  match q with
  | [] => Ok distanceMap
  | (x, y) :: q' =>
      match fuel with
      | O => OutOfFuel
      | S fuel' =>
          s ← for_each (seq 0 4) (relax x y) (distanceMap, q');
          bfs fuel' s.1 s.2
      end
  end.

Definition distance_map (fuel : nat) (g : Grid) (landUseType : CellType)
    : outcome (matrix double) :=
  s ← seed g landUseType;
  bfs fuel s.1 s.2.

Definition computeDistanceMaps (fuel : nat) (g : Grid)
    : outcome (gmap CellType (matrix double)) :=
  for_each landUseTypes
    (λ landUseType distanceMaps,
       distanceMap ← distance_map fuel g landUseType;
       Ok (<[landUseType := distanceMap]> distanceMaps))
    ∅.

(** *** calculateScore *)

(** [agentPreferences[c]]: a missing key reads as the empty vector. *)
Definition preferences_of (c : CellType) : list double :=
  default [] (agentPreferences !! c).

(** One turn of the [for (k ...)] loop. *)
Definition score_term (distanceMaps : gmap CellType (matrix double))
    (preferences : list double) (i j : Z) (k : nat) (agentScore : double)
    : outcome double :=
  landUseType ← or_undefined (landUseTypes !! k);
  preference ← or_undefined (preferences !! k);
  distanceMap ← or_thrown (distanceMaps !! landUseType);
  distance ← read2 distanceMap i j;
  if (0 <? distance)%float && (distance <? DBL_MAX)%float
  then Ok (agentScore + preference / distance)%float
  else Ok agentScore.

(** One turn of the [for (j ...)] loop. *)
Definition score_cell (g : Grid) (distanceMaps : gmap CellType (matrix double))
    (i j : Z) (totalScore : double) : outcome double :=
  agentCell ← read2 g i j;
  if negb (is_agent agentCell) then Ok totalScore
  else
    let preferences := preferences_of agentCell in
    agentScore ← for_each (seq 0 (length landUseTypes))
                          (score_term distanceMaps preferences i j) 0%float;
    Ok (totalScore + agentScore)%float.

Definition calculateScore (g : Grid) (distanceMaps : gmap CellType (matrix double))
    : outcome double :=
  for_each (seqZ 0 ROWS)
    (λ i, for_each (seqZ 0 COLS) (score_cell g distanceMaps i))
    0%float.

(** *** optimiseGrid *)

(** [do { x = rand() % ROWS; y = rand() % COLS; } while (grid[x][y] is no agent)] *)
Fixpoint pick_agent (g : Grid) (tape : list Z) : outcome (pos * list Z) :=
  match tape with
  | r1 :: r2 :: tape' =>
      if bool_decide (ROWS = 0 ∨ COLS = 0) then Undefined
      else
        let x := Z.rem r1 ROWS in
        let y := Z.rem r2 COLS in
        c ← read2 g x y;
        if is_agent c then Ok ((x, y), tape') else pick_agent g tape'
  | _ => Starved
  end.

(** [swap(newGrid[x1][y1], newGrid[x2][y2])] *)
Definition swap_cells (g : Grid) (p1 p2 : pos) : outcome Grid :=
  a ← read2 g p1.1 p1.2;
  b ← read2 g p2.1 p2.2;
  g1 ← write2 g p1.1 p1.2 b;
  write2 g1 p2.1 p2.2 a.

(** [(double)rand() / RAND_MAX] for the integer [r] that [rand()] returned. *)
Definition uniform_draw (r : Z) : double :=
  (double_of_int r / double_of_int RAND_MAX)%float.

(** [deltaScore > 0 || exp(deltaScore / temperature) > ((double)rand() / RAND_MAX)];
    [||] draws only when its left operand is false, and [a > b] is [b < a]. *)
Definition accept_test (delta T : double) (tape : list Z) : outcome (bool * list Z) :=
  if (0 <? delta)%float then Ok (true, tape)
  else
    '(r, tape') ← rand tape;
    Ok ((uniform_draw r <? exp (delta / T))%float, tape').

(** Lines 245-257: the two positions of the swap. *)
Definition select_swap (g : Grid) (tape : list Z) : outcome (pos * pos * list Z) :=
  '(p1, tape1) ← pick_agent g tape;
  '(p2, tape2) ← pick_agent g tape1;
  Ok (p1, p2, tape2).

(** Lines 242-276: the candidate, its score, and the decision. *)
Definition propose (distanceMaps : gmap CellType (matrix double))
    (st : annealer) (tape : list Z) : outcome (proposal * list Z) :=
  '(p1, p2, tape2) ← select_swap (grid st) tape;
  g' ← swap_cells (grid st) p1 p2;
  s' ← calculateScore g' distanceMaps;
  let delta := (s' - currentScore st)%float in
  '(acc, tape3) ← accept_test delta (temperature st) tape2;
  Ok (Proposal g' s' delta acc, tape3).

(** Lines 276-286: the body of the [if]. *)
Definition commit (st : annealer) (pr : proposal) : annealer :=
  if accepted pr then
    if (bestScore st <? newScore pr)%float then
      Annealer (newGrid pr) (newScore pr) (newGrid pr) (newScore pr)
               (temperature st) (iteration st)
    else
      Annealer (newGrid pr) (newScore pr) (bestGrid st) (bestScore st)
               (temperature st) (iteration st)
  else st.

(** Lines 301-302: [iteration++; temperature *= 1 - coolingRate;] *)
Definition cool (coolingRate : double) (st : annealer) : outcome annealer :=
  if bool_decide (iteration st < INT_MAX) then
    Ok (Annealer (grid st) (currentScore st) (bestGrid st) (bestScore st)
                 (temperature st * (1 - coolingRate))%float (iteration st + 1))
  else Undefined.

(** One turn of the [while] loop (logging left out). *)
Definition anneal_step (distanceMaps : gmap CellType (matrix double))
    (coolingRate : double) (st : annealer) (tape : list Z)
    : outcome (annealer * list Z) :=
  '(pr, tape') ← propose distanceMaps st tape;
  st' ← cool coolingRate (commit st pr);
  Ok (st', tape').

(** [while (temperature > cooldown)] *)
Fixpoint anneal_loop (fuel : nat) (distanceMaps : gmap CellType (matrix double))
    (cooldown coolingRate : double) (st : annealer) (tape : list Z)
    : outcome (annealer * list Z) :=
  if (cooldown <? temperature st)%float then
    match fuel with
    | O => OutOfFuel
    | S fuel' =>
        '(st', tape') ← anneal_step distanceMaps coolingRate st tape;
        anneal_loop fuel' distanceMaps cooldown coolingRate st' tape'
    end
  else Ok (st, tape).

Definition initial_state (g : Grid) (score _temperature : double) : annealer :=
  Annealer g score g score _temperature 0.

(** [optimiseGrid]: the grid it leaves in [grid], and the rest of the tape. *)
Definition optimiseGrid (fuel : nat) (g : Grid)
    (distanceMaps : gmap CellType (matrix double))
    (_temperature _cooldown _coolingRate : double) (tape : list Z)
    : outcome (Grid * list Z) :=
  score ← calculateScore g distanceMaps;
  '(st, tape') ← anneal_loop fuel distanceMaps _cooldown _coolingRate
                   (initial_state g score _temperature) tape;
  Ok (bestGrid st, tape').

End Landuse.

(** ** Vocabulary of the specification *)

Section Vocabulary.
Variables ROWS COLS : Z.

(** The cells in the order of the nested [for (i ...) for (j ...)] loops. *)
Definition positions : list pos :=
  i ← seqZ 0 ROWS; j ← seqZ 0 COLS; [(i, j)].

Definition in_grid (p : pos) : Prop := 0 ≤ p.1 < ROWS ∧ 0 ≤ p.2 < COLS.

(** A [ROWS]×[COLS] array. *)
Definition shaped {A} (m : matrix A) : Prop :=
  length m = Z.to_nat ROWS ∧ Forall (λ row, length row = Z.to_nat COLS) m.

Definition label_at (g : Grid) (p : pos) : CellType :=
  default EMPTY (at2 g p.1 p.2).

(** *** Distance fields *)

(** One step on the 4-connected grid. *)
Definition adjacent (p q : pos) : Prop :=
  Z.abs (p.1 - q.1) + Z.abs (p.2 - q.2) = 1.

(** [reach g t n p]: [n] grid steps lead from some cell bearing [t] to [p]. *)
Inductive reach (g : Grid) (t : CellType) : nat → pos → Prop :=
| reach_seed p :
    in_grid p → at2 g p.1 p.2 = Some t → reach g t 0 p
| reach_step n p q :
    reach g t n p → adjacent p q → in_grid q → reach g t (S n) q.

(** [n] is the minimum number of steps to the nearest cell bearing [t]. *)
Definition min_steps (g : Grid) (t : CellType) (p : pos) (n : nat) : Prop :=
  reach g t n p ∧ ∀ m, reach g t m p → (n ≤ m)%nat.

(** The label occurs nowhere on the grid. *)
Definition absent (g : Grid) (t : CellType) : Prop :=
  ∀ p, in_grid p → at2 g p.1 p.2 ≠ Some t.

(** The number of cells still at the sentinel. *)
Definition unreached (dm : matrix double) : nat :=
  length (filter (λ p, at2 dm p.1 p.2 = Some DBL_MAX) positions).

(** The invariant of the search while level [k] is being emptied: the queue
    is [q1 ++ q2], [q1] holds cells at [k] steps and [q2] cells at [k + 1];
    what is set is final; everything within [k] steps is set; and a set cell
    that has left the queue has all its neighbours set. *)
Record bfs_inv (g : Grid) (t : CellType) (k : nat)
    (dm : matrix double) (q1 q2 : list pos) : Prop := {
  inv_shaped : shaped dm;
  inv_value : ∀ p, in_grid p →
    at2 dm p.1 p.2 = Some DBL_MAX ∨
    ∃ n, at2 dm p.1 p.2 = Some (steps n) ∧ min_steps g t p n;
  inv_front :
    Forall (λ p, at2 dm p.1 p.2 = Some (steps k) ∧ min_steps g t p k) q1;
  inv_back :
    Forall (λ p, at2 dm p.1 p.2 = Some (steps (S k)) ∧ min_steps g t p (S k)) q2;
  inv_low : ∀ m p, reach g t m p → (m ≤ k)%nat → at2 dm p.1 p.2 ≠ Some DBL_MAX;
  inv_done : ∀ p q, in_grid p → at2 dm p.1 p.2 ≠ Some DBL_MAX → p ∉ q1 ++ q2 →
    adjacent p q → in_grid q → at2 dm q.1 q.2 ≠ Some DBL_MAX;
}.

(** A distance: not negative, not above the sentinel (so no NaN either). *)
Definition is_distance (d : double) : Prop :=
  (0 <=? d)%float = true ∧ (d <=? DBL_MAX)%float = true.

(** A distance-field collection: one [ROWS]×[COLS] field of distances for
    every fixed-feature label. *)
Definition distance_fields (distanceMaps : gmap CellType (matrix double)) : Prop :=
  ∀ t, t ∈ landUseTypes →
    ∃ dm, distanceMaps !! t = Some dm ∧ shaped dm ∧
          ∀ p d, at2 dm p.1 p.2 = Some d → is_distance d.

Definition distance_at (distanceMaps : gmap CellType (matrix double))
    (t : CellType) (p : pos) : double :=
  default DBL_MAX (dm ← distanceMaps !! t; at2 dm p.1 p.2).

(** *** The score, in the words of the specification *)

(** A sum of doubles, taken from left to right. *)
Definition sum_doubles (l : list double) : double := foldl PrimFloat.add 0%float l.

(** The distance is zero, or it is the unreachable sentinel. *)
Definition excluded (d : double) : bool := (0 =? d)%float || (d =? DBL_MAX)%float.

(** The terms [preference_weight / distance] of one cell, exclusions dropped. *)
Definition local_terms (distanceMaps : gmap CellType (matrix double))
    (weights : list double) (p : pos) : list double :=
  omap (λ '(t, w), let d := distance_at distanceMaps t p in
                   if excluded d then None else Some (w / d)%float)
       (zip landUseTypes weights).

Definition local_score (agentPreferences : gmap CellType (list double))
    (g : Grid) (distanceMaps : gmap CellType (matrix double)) (p : pos) : double :=
  sum_doubles
    (local_terms distanceMaps (preferences_of agentPreferences (label_at g p)) p).

Definition agent_cells (g : Grid) : list pos :=
  filter (λ p, is_agent (label_at g p)) positions.

Definition spec_score (agentPreferences : gmap CellType (list double))
    (g : Grid) (distanceMaps : gmap CellType (matrix double)) : double :=
  sum_doubles (local_score agentPreferences g distanceMaps <$> agent_cells g).

(** What one cell adds to the running total. *)
Definition cell_contribution (agentPreferences : gmap CellType (list double))
    (g : Grid) (distanceMaps : gmap CellType (matrix double))
    (s : double) (p : pos) : double :=
  if decide (is_agent (label_at g p))
  then (s + local_score agentPreferences g distanceMaps p)%float
  else s.

(** Every agent label on the grid has one weight per fixed-feature label. *)
Definition weights_aligned (agentPreferences : gmap CellType (list double))
    (g : Grid) : Prop :=
  ∀ p, in_grid p → is_agent (label_at g p) →
    length (preferences_of agentPreferences (label_at g p)) = length landUseTypes.

End Vocabulary.

(** *** The annealer's run *)

(** The agent labels on a grid, as a list up to permutation. *)
Definition agents (g : Grid) : list CellType := filter (λ c, is_agent c) (concat g).

(** The temperature after [n] coolings. *)
Definition temperature_at (T0 r : double) (n : nat) : double :=
  Nat.iter n (λ T, T * (1 - r))%float T0.

(** [n] is the first index at which the cooling sequence is not above [Tmin]. *)
Definition first_cold (T0 Tmin r : double) (n : nat) : Prop :=
  (Tmin <? temperature_at T0 r n)%float = false ∧
  ∀ k, (k < n)%nat → (Tmin <? temperature_at T0 r k)%float = true.

Section Run.
Variables ROWS COLS : Z.
Variable agentPreferences : gmap CellType (list double).
Variable exp : double → double.
Variable RAND_MAX : Z.
Variable distanceMaps : gmap CellType (matrix double).
Variables cooldown coolingRate : double.

(** [iterates n s s']: from [s] the loop runs [n] turns and is then in [s']. *)
Inductive iterates : nat → annealer * list Z → annealer * list Z → Prop :=
| iterates_O s : iterates 0 s s
| iterates_S n st tape s' s'' :
    (cooldown <? temperature st)%float = true →
    anneal_step ROWS COLS agentPreferences exp RAND_MAX distanceMaps coolingRate st tape
      = Ok s' →
    iterates n s' s'' →
    iterates (S n) (st, tape) s''.

End Run.

(** ** Decidable forms of the side conditions, and sample inputs *)

Definition shaped_check {A} (ROWS COLS : Z) (m : matrix A) : bool :=
  bool_decide (length m = Z.to_nat ROWS) &&
  forallb (λ row, bool_decide (length row = Z.to_nat COLS)) m.

Definition is_distance_check (d : double) : bool :=
  (0 <=? d)%float && (d <=? DBL_MAX)%float.

Definition distance_fields_check (ROWS COLS : Z)
    (distanceMaps : gmap CellType (matrix double)) : bool :=
  forallb (λ t, match distanceMaps !! t with
                | Some dm => shaped_check ROWS COLS dm &&
                             forallb (forallb is_distance_check) dm
                | None => false
                end) landUseTypes.

Definition weights_aligned_check (ROWS COLS : Z)
    (agentPreferences : gmap CellType (list double)) (g : Grid) : bool :=
  forallb (λ p, implb (is_agent (label_at g p))
                  (bool_decide (length (preferences_of agentPreferences (label_at g p))
                                = length landUseTypes)))
          (positions ROWS COLS).

(** The source's preference table. *)
Definition agentPreferences_src : gmap CellType (list double) :=
  list_to_map
    [(RESIDENTIAL, [1; 2; 3; -5]%float); (OFFICE, [4; 1; 0; 2]%float);
     (COM_SHOP, [5; 3; 0; 3]%float); (COM_CAFE, [2; 4; 1; -1]%float)].

(** A 5×5 grid whose single feature cell is at (2,2). *)
Definition grid5 : Grid :=
  [[RESIDENTIAL; OFFICE; COM_SHOP; COM_CAFE; RESIDENTIAL];
   [OFFICE; RESIDENTIAL; RESIDENTIAL; OFFICE; COM_SHOP];
   [EMPTY; COM_CAFE; TRANSPORT; OFFICE; EMPTY];
   [RESIDENTIAL; COM_SHOP; OFFICE; RESIDENTIAL; RESIDENTIAL];
   [COM_CAFE; RESIDENTIAL; OFFICE; COM_SHOP; RESIDENTIAL]].

(** A 5×5 grid with one agent cell, at (0,0), and one with none. *)
Definition grid_one_agent : Grid :=
  [[RESIDENTIAL; EMPTY; EMPTY; EMPTY; EMPTY];
   [EMPTY; EMPTY; EMPTY; EMPTY; EMPTY];
   [EMPTY; EMPTY; TRANSPORT; EMPTY; EMPTY];
   [EMPTY; EMPTY; EMPTY; EMPTY; EMPTY];
   [EMPTY; EMPTY; EMPTY; EMPTY; EMPTY]].

Definition grid_no_agent : Grid :=
  [[EMPTY; EMPTY; EMPTY; EMPTY; EMPTY];
   [EMPTY; EMPTY; EMPTY; EMPTY; EMPTY];
   [EMPTY; EMPTY; TRANSPORT; EMPTY; EMPTY];
   [EMPTY; EMPTY; EMPTY; EMPTY; EMPTY];
   [EMPTY; EMPTY; EMPTY; EMPTY; EMPTY]].

(** A second-order stand-in for libm's [exp], to run the loop on samples;
    every theorem below holds for any [exp]. *)
Definition exp_poly (x : double) : double := (1 + x + x * x / 2)%float.

(** The first [n] of the cooling sequence are above [Tmin], the next is not. *)
Definition first_cold_check (T0 Tmin r : double) (n : nat) : bool :=
  negb (Tmin <? temperature_at T0 r n)%float &&
  forallb (λ k, (Tmin <? temperature_at T0 r k)%float) (seq 0 n).

(** What the loop needs of its state to run without undefined behaviour. *)
Definition well_formed (ROWS COLS : Z)
    (agentPreferences : gmap CellType (list double)) (st : annealer) : Prop :=
  shaped ROWS COLS (grid st) ∧ weights_aligned ROWS COLS agentPreferences (grid st).

(** A cooling rate so small that [1 - r] rounds to [1]. *)
Definition tiny_rate : double := 0x1p-60%float.

(** [a] is [b], or below it. *)
Definition not_above (a b : double) : Prop := a = b ∨ (a <? b)%float = true.

Definition fields_of (ROWS COLS : Z) (g : Grid) : gmap CellType (matrix double) :=
  match computeDistanceMaps ROWS COLS (Z.to_nat (ROWS * COLS)) g with
  | Ok distanceMaps => distanceMaps
  | _ => ∅
  end.

(** ** The source's constants, and the call [main] makes *)

Module Source.

Definition ROWS : Z := 12.
Definition COLS : Z := 12.

(** The layout [main] assigns to [grid] before the agents are filled in. *)
Definition layout : Grid :=
  [[EMPTY; EMPTY; EMPTY; PUBLIC; PUBLIC; PUBLIC; EMPTY; EMPTY; EMPTY; EMPTY; EMPTY; EMPTY];
   [EMPTY; EMPTY; EMPTY; EMPTY; EMPTY; EMPTY; EMPTY; EMPTY; EMPTY; EMPTY; EMPTY; EMPTY];
   [EMPTY; ROAD; ROAD; ROAD; ROAD; ROAD; ROAD; ROAD; ROAD; ROAD; EMPTY; EMPTY];
   [EMPTY; EMPTY; EMPTY; EMPTY; EMPTY; ROAD; EMPTY; EMPTY; EMPTY; EMPTY; EMPTY; EMPTY];
   [EMPTY; LANDSCAPE; LANDSCAPE; EMPTY; EMPTY; ROAD; EMPTY; EMPTY; EMPTY; LANDSCAPE;
    EMPTY; EMPTY];
   [EMPTY; LANDSCAPE; LANDSCAPE; EMPTY; EMPTY; ROAD; EMPTY; TRANSPORT; EMPTY; LANDSCAPE;
    EMPTY; PUBLIC];
   [EMPTY; LANDSCAPE; LANDSCAPE; EMPTY; EMPTY; ROAD; EMPTY; EMPTY; EMPTY; LANDSCAPE;
    EMPTY; PUBLIC];
   [EMPTY; EMPTY; EMPTY; EMPTY; EMPTY; ROAD; EMPTY; EMPTY; EMPTY; EMPTY; EMPTY; PUBLIC];
   [EMPTY; ROAD; ROAD; ROAD; ROAD; ROAD; ROAD; ROAD; ROAD; ROAD; EMPTY; EMPTY];
   [EMPTY; EMPTY; EMPTY; EMPTY; EMPTY; EMPTY; EMPTY; EMPTY; EMPTY; EMPTY; EMPTY; EMPTY];
   [EMPTY; EMPTY; EMPTY; TRANSPORT; EMPTY; EMPTY; EMPTY; EMPTY; EMPTY; TRANSPORT;
    EMPTY; EMPTY];
   [EMPTY; EMPTY; EMPTY; EMPTY; EMPTY; PUBLIC; PUBLIC; PUBLIC; EMPTY; EMPTY; EMPTY; EMPTY]].

(** [optimiseGrid(grid, distanceMaps, 1000, 0.1, 0.001)]: the doubles
    nearest to [0.1] and [0.001]. *)
Definition cooldown : double := 0x1.999999999999ap-4%float.
Definition coolingRate : double := 0x1.0624dd2f1a9fcp-10%float.

End Source.

(** The double nearest to [0.003], the default cooling rate. *)
Definition default_coolingRate : double := 0x1.89374bc6a7efap-9%float.

(** A sample run on [grid5]: temperature 4, threshold 1, cooling rate 1/2,
    [RAND_MAX] 32767. *)
Definition sample_fields : gmap CellType (matrix double) := fields_of 5 5 grid5.

Definition sample_score : double :=
  match calculateScore 5 5 agentPreferences_src grid5 sample_fields with
  | Ok score => score
  | _ => 0%float
  end.

Definition sample_state : annealer := initial_state grid5 sample_score 4.

Definition sample_tape : list Z := [0; 0; 2; 1; 100; 0; 2; 2; 1; 100; 7; 7].

Definition sample_step (st : annealer) (tape : list Z) : outcome (annealer * list Z) :=
  anneal_step 5 5 agentPreferences_src exp_poly 32767 sample_fields 0.5 st tape.

Definition sample_next : annealer :=
  match sample_step sample_state sample_tape with
  | Ok (st, _) => st
  | _ => sample_state
  end.

Definition sample_final : Grid :=
  match optimiseGrid 5 5 agentPreferences_src exp_poly 32767 10 grid5 sample_fields
          4 1 0.5 sample_tape with
  | Ok (g, _) => g
  | _ => []
  end.

(** A turn that selects (0,0) twice and draws [RAND_MAX]. *)
Definition self_swap_tape : list Z := [0; 0; 0; 0; 32767].

Definition self_swap_proposal : proposal :=
  match propose 5 5 agentPreferences_src exp_poly 32767 sample_fields
          sample_state self_swap_tape with
  | Ok (pr, _) => pr
  | _ => Proposal [] 0 0 false
  end.

(** A turn that selects (1,0) and (1,1): exchanging the OFFICE and the
    RESIDENTIAL cell raises the score, and no draw is taken. *)
Definition improving_tape : list Z := [1; 0; 1; 1; 32767].

Definition improved_state : annealer :=
  match sample_step sample_state improving_tape with
  | Ok (st, _) => st
  | _ => sample_state
  end.

(** A turn that selects (0,0) and (0,1): exchanging the RESIDENTIAL and the
    OFFICE cell lowers the score, and the draw is [RAND_MAX]. *)
Definition worsening_tape : list Z := [0; 0; 0; 1; 32767].

Definition worsening_proposal : proposal :=
  match propose 5 5 agentPreferences_src exp_poly 32767 sample_fields
          sample_state worsening_tape with
  | Ok (pr, _) => pr
  | _ => Proposal [] 0 0 false
  end.

(** ** Grid generation *)

Definition INT_MIN : Z := -2147483648.

(** [static_cast<int>(d)]: the fraction is discarded; the behaviour is
    undefined when what remains is no [int], or [d] is no number. *)
Definition int_of_double (d : double) : outcome Z :=
  match Prim2SF d with
  | S754_zero _ => Ok 0
  | S754_finite s m e =>
      let magnitude := if 0 <=? e then Z.pos m * 2 ^ e else Z.pos m / 2 ^ (- e) in
      let n := if s then - magnitude else magnitude in
      if bool_decide (INT_MIN ≤ n ≤ INT_MAX) then Ok n else Undefined
  | _ => Undefined
  end.

(** An [int] converted to [size_t] (64 bits). *)
Definition size_t_of_int (n : Z) : Z := n `mod` 2 ^ 64.

Section Generate.
Variables ROWS COLS : Z.

(** [std::random_shuffle(first, last)]: which permutation it produces, and
    what it draws to do so, is the library's choice. *)
Variable random_shuffle : list CellType → list Z → outcome (list CellType * list Z).

(** [int totalCells = ROWS * COLS;] *)
Definition total_cells : outcome Z :=
  if bool_decide (INT_MIN ≤ ROWS * COLS ≤ INT_MAX) then Ok (ROWS * COLS) else Undefined.

(** [agentCounts[agentType] = static_cast<int>(agentPercentages[agentType] * availableCells)];
    [operator[]] reads a missing percentage as [0.0]. *)
Definition agent_counts (agentPercentages : gmap CellType double) (availableCells : Z)
    : outcome (gmap CellType Z) :=
  for_each agentTypes
    (λ agentType agentCounts,
       n ← int_of_double (default 0%float (agentPercentages !! agentType)
                          * double_of_int availableCells)%float;
       Ok (<[agentType := n]> agentCounts))
    ∅.

(** [agentsToPlace.insert(agentsToPlace.end(), agentCounts[agentType], agentType)]:
    the count is taken as a [size_t], so a negative one asks for more than
    [max_size()] elements and [insert] throws [std::length_error]. *)
Definition agents_to_place (agentCounts : gmap CellType Z) : outcome (list CellType) :=
  for_each agentTypes
    (λ agentType agentsToPlace,
       let n := default 0 (agentCounts !! agentType) in
       if bool_decide (n < 0) then Thrown
       else Ok (agentsToPlace ++ replicate (Z.to_nat n) agentType))
    [].

(** *** generateGrid_input *)

(** The body of the nested loops that collect [emptyCells]. *)
Definition scan_cell (g : Grid) (i j : Z) (s : Z * list pos) : outcome (Z * list pos) :=
  let '(fixedCells, emptyCells) := s in
  c ← read2 g i j;
  if bool_decide (c ≠ EMPTY) && bool_decide (c ∉ landUseTypes)
  then Ok (fixedCells + 1, emptyCells)
  else if bool_decide (c = EMPTY) then Ok (fixedCells, emptyCells ++ [(i, j)])
  else Ok (fixedCells, emptyCells).

(** [while (agentsToPlace.size() < availableCells) agentsToPlace.push_back(
    agentTypes[rand() % agentTypes.size()])]: the loop makes as many turns as
    elements are missing, [n] of them. *)
Fixpoint fill_up (n : nat) (agentsToPlace : list CellType) (tape : list Z)
    : outcome (list CellType * list Z) :=
  match n with
  | O => Ok (agentsToPlace, tape)
  | S n' =>
      '(r, tape') ← rand tape;
      agentType ← or_undefined
        (agentTypes !! Z.to_nat (size_t_of_int r `mod` Z.of_nat (length agentTypes)));
      fill_up n' (agentsToPlace ++ [agentType]) tape'
  end.

(** [grid[cell.first][cell.second] = agentsToPlace[index++]] *)
Definition place_cell (agentsToPlace : list CellType) (cell : pos) (s : Grid * Z)
    : outcome (Grid * Z) :=
  let '(g, index) := s in
  agentType ← or_undefined (agentsToPlace !! Z.to_nat index);
  g' ← write2 g cell.1 cell.2 agentType;
  Ok (g', index + 1).

(** [generateGrid_input]: the grid it leaves, and the rest of the tape. *)
Definition generateGrid_input (g : Grid) (agentPercentages : gmap CellType double)
    (tape : list Z) : outcome (Grid * list Z) :=
  totalCells ← total_cells;
  '(fixedCells, emptyCells) ←
    for_each (seqZ 0 ROWS) (λ i, for_each (seqZ 0 COLS) (scan_cell g i)) (0, []);
  let availableCells := Z.of_nat (length emptyCells) in
  agentCounts ← agent_counts agentPercentages availableCells;
  agentsToPlace ← agents_to_place agentCounts;
  '(agentsToPlace, tape) ←
    fill_up (Z.to_nat (availableCells - Z.of_nat (length agentsToPlace)))
      agentsToPlace tape;
  '(agentsToPlace, tape) ← random_shuffle agentsToPlace tape;
  '(g', index) ← for_each emptyCells (place_cell agentsToPlace) (g, 0);
  Ok (g', tape).

(** *** generateGrid_random *)

(** [do { x = rand() % ROWS; y = rand() % COLS; } while (grid[x][y] != EMPTY)] *)
Fixpoint pick_empty (g : Grid) (tape : list Z) : outcome (pos * list Z) :=
  match tape with
  | r1 :: r2 :: tape' =>
      if bool_decide (ROWS = 0 ∨ COLS = 0) then Undefined
      else
        let x := Z.rem r1 ROWS in
        let y := Z.rem r2 COLS in
        c ← read2 g x y;
        if bool_decide (c = EMPTY) then Ok ((x, y), tape') else pick_empty g tape'
  | _ => Starved
  end.

(** [numLandUseCells / landUseTypes.size()], a division of [size_t]s. *)
Definition features_per_type (totalCells : Z) : Z :=
  size_t_of_int (Z.quot totalCells 5) / Z.of_nat (length landUseTypes).

(** One turn of the loop that places the cells of [landUseType]; [++i]
    overflows when [i] is [INT_MAX]. *)
Definition place_feature (landUseType : CellType) (i : Z) (s : Grid * list Z)
    : outcome (Grid * list Z) :=
  let '(g, tape) := s in
  '(p, tape') ← pick_empty g tape;
  g' ← write2 g p.1 p.2 landUseType;
  if bool_decide (i < INT_MAX) then Ok (g', tape') else Undefined.

(** [if (grid[i][j] != EMPTY) fixedCells++;] *)
Definition count_cell (g : Grid) (i j : Z) (fixedCells : Z) : outcome Z :=
  c ← read2 g i j;
  if bool_decide (c ≠ EMPTY) then Ok (fixedCells + 1) else Ok fixedCells.

(** The body of the loops that assign the agents; both loops stop as soon as
    [index < agentsToPlace.size()] fails, so from then on no cell is read. *)
Definition fill_cell (agentsToPlace : list CellType) (i j : Z) (s : Grid * Z)
    : outcome (Grid * Z) :=
  let '(g, index) := s in
  if bool_decide (index < Z.of_nat (length agentsToPlace)) then
    c ← read2 g i j;
    if bool_decide (c = EMPTY) then
      agentType ← or_undefined (agentsToPlace !! Z.to_nat index);
      g' ← write2 g i j agentType;
      Ok (g', index + 1)
    else Ok (g, index)
  else Ok (g, index).

(** [generateGrid_random]: the grid it leaves, and the rest of the tape. *)
Definition generateGrid_random (g : Grid) (agentPercentages : gmap CellType double)
    (tape : list Z) : outcome (Grid * list Z) :=
  g ← for_each (seqZ 0 ROWS)
        (λ i, for_each (seqZ 0 COLS) (λ j g, write2 g i j EMPTY)) g;
  totalCells ← total_cells;
  '(g, tape) ←
    for_each landUseTypes
      (λ landUseType,
         for_each (seqZ 0 (features_per_type totalCells)) (place_feature landUseType))
      (g, tape);
  fixedCells ← for_each (seqZ 0 ROWS) (λ i, for_each (seqZ 0 COLS) (count_cell g i)) 0;
  let availableCells := totalCells - fixedCells in
  agentCounts ← agent_counts agentPercentages availableCells;
  agentsToPlace ← agents_to_place agentCounts;
  '(agentsToPlace, tape) ← random_shuffle agentsToPlace tape;
  '(g', index) ←
    for_each (seqZ 0 ROWS) (λ i, for_each (seqZ 0 COLS) (fill_cell agentsToPlace i))
      (g, 0);
  Ok (g', tape).

End Generate.

(** The exchange of two entries of a vector. *)
Definition swap_entries {A} (l : list A) (i j : nat) : list A :=
  match l !! i, l !! j with
  | Some a, Some b => <[j := a]> (<[i := b]> l)
  | _, _ => l
  end.

(** One implementation of [std::random_shuffle], that of libstdc++: the
    entry at each index [i] from 1 on is exchanged with the entry at
    [rand() % (i + 1)]. It serves to run the samples; the theorems hold for
    every implementation that rearranges the vector. *)
Definition random_shuffle_gnu (l : list CellType) (tape : list Z)
    : outcome (list CellType * list Z) :=
  for_each (seq 1 (length l - 1))
    (λ i '(l, tape),
       '(r, tape') ← rand tape;
       Ok (swap_entries l i (Z.to_nat (r `mod` (Z.of_nat i + 1))), tape'))
    (l, tape).

(** The cells [generateGrid_input] collects in [emptyCells]. *)
Definition empty_cells (ROWS COLS : Z) (g : Grid) : list pos :=
  filter (λ p, label_at g p = EMPTY) (positions ROWS COLS).

(** The number of cells bearing the label [t]. *)
Definition count_label (t : CellType) (g : Grid) : nat :=
  length (filter (λ c, c = t) (concat g)).

(** A 2×3 layout, shares of a half and a quarter, and what
    [generateGrid_input] makes of them on the draws [2; 1; 0; 2; 9]. *)
Definition sample_layout : Grid := [[EMPTY; ROAD; EMPTY]; [RESIDENTIAL; EMPTY; EMPTY]].

Definition sample_shares : gmap CellType double :=
  list_to_map [(RESIDENTIAL, 0.5%float); (OFFICE, 0.25%float)].

Definition sample_filled : Grid :=
  [[OFFICE; ROAD; RESIDENTIAL]; [RESIDENTIAL; COM_SHOP; RESIDENTIAL]].

(** What [generateGrid_random] makes of a 5×5 grid with the same shares. *)
Definition sample_random_tape : list Z :=
  [2; 1; 0; 2; 9; 3; 4; 4; 3; 3; 1; 1; 1; 5; 6; 7; 8; 9; 10; 11; 12; 13; 14].

Definition sample_random : Grid :=
  [[RESIDENTIAL; RESIDENTIAL; PUBLIC; RESIDENTIAL; RESIDENTIAL];
   [RESIDENTIAL; RESIDENTIAL; RESIDENTIAL; RESIDENTIAL; RESIDENTIAL];
   [OFFICE; TRANSPORT; OFFICE; OFFICE; OFFICE];
   [OFFICE; RESIDENTIAL; EMPTY; EMPTY; EMPTY];
   [EMPTY; EMPTY; EMPTY; LANDSCAPE; ROAD]].

(** ** printGrid *)

(** The [switch]: one character per label, ['.'] for [EMPTY]. *)
Definition glyph (cell : CellType) : ascii :=
  match cell with
  | RESIDENTIAL => "R"
  | OFFICE => "O"
  | COM_SHOP => "S"
  | COM_CAFE => "C"
  | TRANSPORT => "T"
  | PUBLIC => "P"
  | LANDSCAPE => "L"
  | ROAD => "D"
  | EMPTY => "."
  end%char.

Definition newline : ascii := "010"%char.

(** What the inner loop and [cout << endl] write for one row. *)
Definition print_row (row : list CellType) : list ascii :=
  (cell ← row; [glyph cell; " "%char]) ++ [newline].

(** The characters [printGrid] writes to [cout]. *)
Definition printGrid (g : Grid) : list ascii := row ← g; print_row row.

(** ** main *)

(** [agentPercentages] of [main]: the doubles nearest to 0.45, 0.25, 0.20
    and 0.10. *)
Definition agentPercentages_src : gmap CellType double :=
  list_to_map
    [(RESIDENTIAL, 0x1.ccccccccccccdp-2%float); (OFFICE, 0x1p-2%float);
     (COM_SHOP, 0x1.999999999999ap-3%float); (COM_CAFE, 0x1.999999999999ap-4%float)].

(** What [main] prints, the timings apart: the grid and its score before
    and after the optimisation. *)
Record report := Report {
  initial_grid : list ascii;
  initial_score : double;
  optimised_grid : list ascii;
  optimised_score : double;
}.

Section Main.
Variable random_shuffle : list CellType → list Z → outcome (list CellType * list Z).
Variable exp : double → double.
Variable RAND_MAX : Z.

(** [main]; [tape] is what [rand()] yields after [srand(time(0))], and
    [fuel] bounds the turns of each [while] loop. *)
Definition main (fuel : nat) (tape : list Z) : outcome (report * list Z) :=
  '(g, tape) ← generateGrid_input Source.ROWS Source.COLS random_shuffle
                 Source.layout agentPercentages_src tape;
  distanceMaps ← computeDistanceMaps Source.ROWS Source.COLS fuel g;
  initialScore ← calculateScore Source.ROWS Source.COLS agentPreferences_src g distanceMaps;
  '(g', tape) ← optimiseGrid Source.ROWS Source.COLS agentPreferences_src exp RAND_MAX
                  fuel g distanceMaps 1000 Source.cooldown Source.coolingRate tape;
  finalScore ← calculateScore Source.ROWS Source.COLS agentPreferences_src g' distanceMaps;
  Ok (Report (printGrid g) initialScore (printGrid g') finalScore, tape).

End Main.

(** A run of [main]. The shuffle draws 0 throughout and exchanges every
    entry with the first. The first turn of the annealer draws 0, 0, 0, 2: it
    exchanges the COM_CAFE cell (0,0) and the RESIDENTIAL cell (0,2), which
    raises the score, so no draw is taken for the acceptance. Every later turn
    draws 0 throughout: it exchanges the cell (0,0) with itself and accepts. *)
Definition moved_draws : list Z :=
  replicate 99 0 ++ [0; 0; 0; 2] ++ replicate (9205 * 5) 0.

(** The grid [generateGrid_input] makes of [main]'s layout on these draws. *)
Definition first_grid : Grid :=
  Eval vm_compute in
    match generateGrid_input Source.ROWS Source.COLS random_shuffle_gnu Source.layout
            agentPercentages_src (replicate 99 0) with
    | Ok (g, _) => g
    | _ => []
    end.

Definition first_fields : gmap CellType (matrix double) :=
  fields_of Source.ROWS Source.COLS first_grid.

Definition first_score : double :=
  Eval vm_compute in
    match calculateScore Source.ROWS Source.COLS agentPreferences_src first_grid
            (fields_of Source.ROWS Source.COLS first_grid) with
    | Ok score => score
    | _ => 0%float
    end.

(** The grid after the first turn, and its score. *)
Definition moved_grid : Grid :=
  Eval vm_compute in
    match swap_cells first_grid (0, 0) (0, 2) with
    | Ok g => g
    | _ => []
    end.

Definition moved_score : double :=
  Eval vm_compute in
    match calculateScore Source.ROWS Source.COLS agentPreferences_src moved_grid
            (fields_of Source.ROWS Source.COLS first_grid) with
    | Ok score => score
    | _ => 0%float
    end.

Definition moved_report : report :=
  Report (printGrid first_grid) first_score (printGrid moved_grid) moved_score.

(** Every draw of 0 passes the acceptance test of a turn that leaves the
    score [s] as it is, at the temperatures of the schedule. *)
Definition still_accept_check (s : double) (n : nat) : bool :=
  forallb (λ k, (uniform_draw 32767 0
                 <? exp_poly ((s - s) / temperature_at 1000 Source.coolingRate k))%float)
          (seq 0 n).

(** ** What the distance fields depend on *)

(** Two grids bear the fixed-feature labels at the same cells. *)
Definition same_features (g g' : Grid) : Prop :=
  ∀ x y t, t ∈ landUseTypes → at2 g x y = Some t ↔ at2 g' x y = Some t.

Definition same_features_check (ROWS COLS : Z) (g g' : Grid) : bool :=
  forallb (λ p, forallb (λ t, Bool.eqb (bool_decide (at2 g p.1 p.2 = Some t))
                                       (bool_decide (at2 g' p.1 p.2 = Some t)))
                        landUseTypes)
          (positions ROWS COLS).

(** * Proofs *)

(** ** Loops and outcomes *)

Lemma bind_Ok {A B} (m : outcome A) (f : A → outcome B) (b : B) :
  m ≫= f = Ok b ↔ ∃ a, m = Ok a ∧ f a = Ok b.
Proof.
  destruct m; simpl; (split; [intros H|intros (a' & H & H')]);
    try discriminate; eauto.
  by injection H as ->.
Qed.

Lemma for_each_app {A S} (l1 l2 : list A) (body : A → S → outcome S) (s : S) :
  for_each (l1 ++ l2) body s = for_each l1 body s ≫= for_each l2 body.
Proof.
  revert s. induction l1 as [|a l1 IH]; intros s; simpl; [done|].
  destruct (body a s); simpl; auto.
Qed.

(** A loop whose body cannot fail on its range is a left fold. *)
Lemma for_each_foldl {A S} (f : S → A → S) (l : list A) (body : A → S → outcome S) :
  (∀ a s, a ∈ l → body a s = Ok (f s a)) →
  ∀ s, for_each l body s = Ok (foldl f s l).
Proof.
  induction l as [|a l IH]; intros Hbody s; simpl; [done|].
  rewrite Hbody by left. simpl. apply IH. intros; apply Hbody; by right.
Qed.

Lemma foldl_bind {A B S} (f : S → B → S) (k : A → list B) (l : list A) (s : S) :
  foldl f s (l ≫= k) = foldl (λ s a, foldl f s (k a)) s l.
Proof.
  revert s. induction l as [|a l IH]; intros s; simpl; [done|].
  by rewrite foldl_app, IH.
Qed.

Lemma foldl_filter_fmap {A S} (f : S → S → S) (v : A → S) (P : A → Prop)
    `{∀ a, Decision (P a)} (l : list A) (s : S) :
  foldl (λ s a, if decide (P a) then f s (v a) else s) s l
  = foldl f s (v <$> filter P l).
Proof.
  revert s. induction l as [|a l IH]; intros s; simpl; [done|].
  rewrite filter_cons. destruct (decide (P a)); simpl; apply IH.
Qed.

(** ** Indexing *)

Section Indexing.
Variables ROWS COLS : Z.
Context {A : Type}.
Implicit Types (m : matrix A) (x y : Z).

Lemma at2_Some m x y v :
  at2 m x y = Some v ↔
  0 ≤ x ∧ 0 ≤ y ∧ ∃ row, m !! Z.to_nat x = Some row ∧ row !! Z.to_nat y = Some v.
Proof.
  unfold at2. case_bool_decide as Hxy.
  - destruct (m !! Z.to_nat x) as [row|]; simpl; split.
    + intros Hv. destruct Hxy. eauto 6.
    + intros (_ & _ & row' & [= <-] & Hv). done.
    + done.
    + intros (_ & _ & row' & [=] & _).
  - split; [done|]. intros (? & ? & _). lia.
Qed.

Lemma at2_shaped m x y :
  shaped ROWS COLS m → in_grid ROWS COLS (x, y) → is_Some (at2 m x y).
Proof.
  intros [Hlen Hrows] [[Hx0 Hx] [Hy0 Hy]]; simpl in *.
  destruct (lookup_lt_is_Some_2 m (Z.to_nat x)) as [row Hrow]; [lia|].
  assert (length row = Z.to_nat COLS) as Hlr.
  { rewrite Forall_forall in Hrows. apply Hrows. by eapply list_elem_of_lookup_2. }
  destruct (lookup_lt_is_Some_2 row (Z.to_nat y)) as [v Hv]; [lia|].
  exists v. apply at2_Some. eauto 6.
Qed.

Lemma at2_in_grid m x y v :
  shaped ROWS COLS m → at2 m x y = Some v → in_grid ROWS COLS (x, y).
Proof.
  intros [Hlen Hrows] (Hx & Hy & row & Hrow & Hv)%at2_Some.
  assert (length row = Z.to_nat COLS) as Hlr.
  { rewrite Forall_forall in Hrows. apply Hrows. by eapply list_elem_of_lookup_2. }
  apply lookup_lt_Some in Hrow, Hv. unfold in_grid; simpl. lia.
Qed.

Lemma set2_shaped m x y v : shaped ROWS COLS m → shaped ROWS COLS (set2 m x y v).
Proof.
  intros [Hlen Hrows]. unfold set2. split.
  - by rewrite length_alter.
  - rewrite Forall_forall in *. intros row (i & Hi)%list_elem_of_lookup_1.
    rewrite list_lookup_alter in Hi. case_decide as Heq.
    + destruct (m !! Z.to_nat x) as [row'|] eqn:Hrow; simplify_eq/=.
      rewrite length_insert. apply Hrows. by eapply list_elem_of_lookup_2.
    + apply Hrows. by eapply list_elem_of_lookup_2.
Qed.

Lemma at2_set2_eq m x y v w : at2 m x y = Some w → at2 (set2 m x y v) x y = Some v.
Proof.
  intros (Hx & Hy & row & Hrow & Hv)%at2_Some. apply at2_Some.
  split; [done|]. split; [done|]. exists (<[Z.to_nat y := v]> row). split.
  - unfold set2. by rewrite list_lookup_alter_eq, Hrow.
  - apply list_lookup_insert_eq. by eapply lookup_lt_Some.
Qed.

Lemma at2_set2_ne m x y x' y' v :
  0 ≤ x → 0 ≤ y → (x, y) ≠ (x', y') → at2 (set2 m x y v) x' y' = at2 m x' y'.
Proof.
  intros Hx Hy Hne. unfold at2. case_bool_decide; [|done].
  unfold set2. destruct (decide (Z.to_nat x = Z.to_nat x')) as [Heq|Heq].
  - assert (x = x') as <- by lia. rewrite list_lookup_alter_eq.
    destruct (m !! Z.to_nat x) as [row|]; simpl; [|done].
    apply list_lookup_insert_ne. intros Hy'. apply Hne. f_equal. lia.
  - by rewrite list_lookup_alter_ne.
Qed.

End Indexing.

(** ** Order facts on doubles *)

Lemma ltb_of_leb (x y : double) :
  (x <=? y)%float = true → (x <? y)%float = negb (x =? y)%float.
Proof.
  rewrite FloatAxioms.leb_spec, FloatAxioms.ltb_spec, FloatAxioms.eqb_spec.
  unfold SFleb, SFltb, SFeqb.
  destruct (SFcompare _ _) as [[]|]; simpl; congruence.
Qed.

(** On distances the scorer's guard is the specification's exclusion. *)
Lemma guard_excluded (d : double) :
  is_distance d →
  (0 <? d)%float && (d <? DBL_MAX)%float = negb (excluded d).
Proof.
  intros [H0 Hmax]. unfold excluded.
  rewrite (ltb_of_leb _ _ H0), (ltb_of_leb _ _ Hmax).
  by destruct (0 =? d)%float, (d =? DBL_MAX)%float.
Qed.

(** ** The scorer *)

Section Scorer.
Variables ROWS COLS : Z.
Variable agentPreferences : gmap CellType (list double).
Variable g : Grid.
Variable distanceMaps : gmap CellType (matrix double).
Hypothesis g_shaped : shaped ROWS COLS g.
Hypothesis fields_ok : distance_fields ROWS COLS distanceMaps.

Lemma read2_label i j :
  in_grid ROWS COLS (i, j) → read2 g i j = Ok (label_at g (i, j)).
Proof.
  intros Hin. destruct (at2_shaped ROWS COLS g i j g_shaped Hin) as [c Hc].
  unfold read2, label_at; simpl. by rewrite Hc.
Qed.

Lemma score_term_ok ws i j k t w s :
  in_grid ROWS COLS (i, j) →
  landUseTypes !! k = Some t → ws !! k = Some w →
  score_term distanceMaps ws i j k s
  = Ok (if excluded (distance_at distanceMaps t (i, j)) then s
        else (s + w / distance_at distanceMaps t (i, j))%float).
Proof.
  intros Hin Ht Hw. unfold score_term. rewrite Ht, Hw; simpl.
  destruct (fields_ok t) as (dm & Hdm & Hshape & Hdist).
  { by eapply list_elem_of_lookup_2. }
  destruct (at2_shaped ROWS COLS dm i j Hshape Hin) as [d Hd].
  unfold distance_at, read2. rewrite Hdm; simpl. rewrite Hd; simpl.
  rewrite guard_excluded by (by eapply (Hdist (i, j))).
  by destruct (excluded d).
Qed.

Lemma score_terms_ok ws i j :
  in_grid ROWS COLS (i, j) →
  length ws = length landUseTypes →
  for_each (seq 0 (length landUseTypes)) (score_term distanceMaps ws i j) 0%float
  = Ok (sum_doubles (local_terms distanceMaps ws (i, j))).
Proof.
  intros Hin Hlen.
  destruct ws as [|w0 [|w1 [|w2 [|w3 [|]]]]]; try discriminate Hlen.
  cbn [length seq for_each landUseTypes].
  rewrite (score_term_ok _ i j 0 TRANSPORT w0) by done; cbn [mbind outcome_bind].
  rewrite (score_term_ok _ i j 1 PUBLIC w1) by done; cbn [mbind outcome_bind].
  rewrite (score_term_ok _ i j 2 LANDSCAPE w2) by done; cbn [mbind outcome_bind].
  rewrite (score_term_ok _ i j 3 ROAD w3) by done; cbn [mbind outcome_bind].
  unfold local_terms, sum_doubles, landUseTypes. simpl.
  by repeat (destruct (excluded _); simpl).
Qed.

Lemma score_cell_ok i j s :
  in_grid ROWS COLS (i, j) →
  weights_aligned ROWS COLS agentPreferences g →
  score_cell agentPreferences g distanceMaps i j s
  = Ok (cell_contribution agentPreferences g distanceMaps s (i, j)).
Proof.
  intros Hin Hw. unfold score_cell, cell_contribution.
  rewrite read2_label by done; cbn [mbind outcome_bind].
  destruct (is_agent (label_at g (i, j))) eqn:Hag; cbn [negb].
  - rewrite score_terms_ok; [|done|].
    + cbn [mbind outcome_bind]. by rewrite decide_True.
    + apply Hw; [done|]. by rewrite Hag.
  - rewrite decide_False; [done|]. simpl. tauto.
Qed.

End Scorer.

Lemma shaped_check_sound {A} ROWS COLS (m : matrix A) :
  shaped_check ROWS COLS m = true → shaped ROWS COLS m.
Proof.
  unfold shaped_check. intros [Hl Hr]%andb_true_iff. split.
  - by apply bool_decide_eq_true in Hl.
  - apply Forall_forall. intros row Hrow%list_elem_of_In.
    rewrite forallb_forall in Hr. by eapply bool_decide_eq_true_1, Hr.
Qed.

Lemma distance_fields_check_sound ROWS COLS distanceMaps :
  distance_fields_check ROWS COLS distanceMaps = true →
  distance_fields ROWS COLS distanceMaps.
Proof.
  unfold distance_fields_check. rewrite forallb_forall.
  intros Hall t Ht%list_elem_of_In. specialize (Hall t Ht).
  destruct (distanceMaps !! t) as [dm|]; [|done].
  apply andb_true_iff in Hall as [Hs Hd]. exists dm.
  split; [done|]. split; [by apply shaped_check_sound|].
  intros p d (_ & _ & row & Hrow & Hv)%at2_Some.
  rewrite forallb_forall in Hd.
  specialize (Hd row). rewrite forallb_forall in Hd.
  assert (is_distance_check d = true) as [? ?]%andb_true_iff; [|done].
  apply Hd; apply list_elem_of_In; by eapply list_elem_of_lookup_2.
Qed.

Lemma elem_of_positions ROWS COLS p :
  p ∈ positions ROWS COLS ↔ in_grid ROWS COLS p.
Proof.
  unfold positions, in_grid. destruct p as [i j]; simpl.
  rewrite list_elem_of_bind. setoid_rewrite list_elem_of_bind.
  setoid_rewrite elem_of_seqZ. setoid_rewrite list_elem_of_singleton.
  split.
  - intros (i' & (j' & [= -> ->] & ?) & ?). lia.
  - intros [? ?]. exists i. split; [|lia]. exists j. split; [done|lia].
Qed.

Lemma weights_aligned_check_sound ROWS COLS agentPreferences g :
  weights_aligned_check ROWS COLS agentPreferences g = true →
  weights_aligned ROWS COLS agentPreferences g.
Proof.
  unfold weights_aligned_check. rewrite forallb_forall.
  intros Hall p Hp%elem_of_positions%list_elem_of_In Hag.
  specialize (Hall p Hp). destruct (is_agent (label_at g p)); [|done].
  by apply bool_decide_eq_true in Hall.
Qed.

(** The two loops fold [cell_contribution] over the cells in loop order. *)
Lemma calculateScore_fold ROWS COLS agentPreferences g distanceMaps :
  shaped ROWS COLS g →
  distance_fields ROWS COLS distanceMaps →
  weights_aligned ROWS COLS agentPreferences g →
  calculateScore ROWS COLS agentPreferences g distanceMaps
  = Ok (foldl (cell_contribution agentPreferences g distanceMaps) 0%float
          (positions ROWS COLS)).
Proof.
  intros Hg Hd Hw. unfold calculateScore, positions. rewrite foldl_bind.
  apply for_each_foldl. intros i s Hi%elem_of_seqZ.
  rewrite foldl_bind. apply for_each_foldl. intros j s' Hj%elem_of_seqZ.
  by rewrite (score_cell_ok ROWS COLS).
Qed.

(** C1. On a [ROWS]×[COLS] grid, with a distance field per fixed-feature label
    and one weight per fixed-feature label for every agent label on the grid,
    [calculateScore] returns the sum, over the cells that hold an agent label
    (in loop order), of the sum over the fixed-feature labels of
    [weight / distance], where a term is left out when the distance is zero or
    the sentinel; other cells add nothing. *)
Theorem calculateScore_is_spec_score ROWS COLS agentPreferences g distanceMaps :
  shaped ROWS COLS g →
  distance_fields ROWS COLS distanceMaps →
  weights_aligned ROWS COLS agentPreferences g →
  calculateScore ROWS COLS agentPreferences g distanceMaps
  = Ok (spec_score ROWS COLS agentPreferences g distanceMaps).
Proof.
  intros Hg Hd Hw. rewrite calculateScore_fold by done. f_equal.
  unfold spec_score, agent_cells, sum_doubles.
  rewrite <- (foldl_filter_fmap PrimFloat.add
                (local_score agentPreferences g distanceMaps)
                (λ p, is_agent (label_at g p))).
  reflexivity.
Qed.

Lemma calculateScore_is_spec_score_witness :
  calculateScore 5 5 agentPreferences_src grid5 (fields_of 5 5 grid5)
  = Ok (spec_score 5 5 agentPreferences_src grid5 (fields_of 5 5 grid5)).
Proof.
  apply (calculateScore_is_spec_score 5 5 agentPreferences_src grid5 (fields_of 5 5 grid5)).
  - apply shaped_check_sound. vm_compute. reflexivity.
  - apply distance_fields_check_sound. vm_compute. reflexivity.
  - apply weights_aligned_check_sound. vm_compute. reflexivity.
Defined.

(** ** Step counts as doubles *)

Lemma steps_table_ok : steps_table = true.
Proof. vm_cast_no_check (eq_refl true). Qed.

Lemma steps_S n : steps (S n) = (steps n + 1)%float.
Proof. reflexivity. Qed.

Lemma steps_table_row a :
  (a < step_bound)%nat →
  (steps a <? DBL_MAX)%float = true ∧
  steps a = double_of_int (Z.of_nat a) ∧
  ∀ b, (b < step_bound)%nat →
    (steps a <? steps b)%float = (a <? b)%nat.
Proof.
  intros Ha.
  assert (steps_row a (steps a) = true) as [[Hmax Hval]%andb_prop Hrow]%andb_prop.
  { generalize steps_table_ok. unfold steps_table.
    generalize steps_row as f. intros f H.
    rewrite forallb_forall in H. apply H, in_seq. lia. }
  split; [done|]. split; [by apply FloatAxioms.Leibniz.eqb_spec|].
  clear Hval. intros b Hb. apply Bool.eqb_prop.
  revert Hrow. generalize (steps a) as da. intros da H.
  rewrite forallb_forall in H. apply (H b), in_seq. lia.
Qed.

Lemma steps_ltb a b :
  (a < step_bound)%nat → (b < step_bound)%nat →
  (steps a <? steps b)%float = (a <? b)%nat.
Proof. intros Ha Hb. by apply steps_table_row. Qed.

Lemma steps_ltb_max a : (a < step_bound)%nat → (steps a <? DBL_MAX)%float = true.
Proof. intros Ha. by apply steps_table_row. Qed.

(** [steps n] is the double [n]. *)
Lemma steps_value a :
  (a < step_bound)%nat → steps a = double_of_int (Z.of_nat a).
Proof. intros Ha. by apply steps_table_row. Qed.

Lemma steps_ne_max a : (a < step_bound)%nat → steps a ≠ DBL_MAX.
Proof.
  intros Ha Heq. pose proof (steps_ltb_max a Ha) as H. rewrite Heq in H.
  vm_compute in H. discriminate.
Qed.

Lemma Some_steps_ne_max a :
  (a < step_bound)%nat → Some (steps a) ≠ Some DBL_MAX.
Proof. intros Ha Heq. apply (steps_ne_max a Ha). by apply (inj Some). Qed.

Lemma steps_is_distance a : (a < step_bound)%nat → is_distance (steps a).
Proof.
  intros Ha. split.
  - destruct a as [|a]; [by vm_compute|].
    pose proof (steps_ltb 0 (S a) ltac:(unfold step_bound; lia) Ha) as H.
    change (0 <? S a)%nat with true in H. change (steps 0) with 0%float in H.
    revert H. rewrite FloatAxioms.leb_spec, FloatAxioms.ltb_spec.
    unfold SFleb, SFltb. by destruct (SFcompare _ _) as [[]|].
  - pose proof (steps_ltb_max a Ha) as H.
    revert H. rewrite FloatAxioms.leb_spec, FloatAxioms.ltb_spec.
    unfold SFleb, SFltb. by destruct (SFcompare _ _) as [[]|].
Qed.

(** ** Grid steps *)

Section Reach.
Variables ROWS COLS : Z.
Variable g : Grid.
Variable t : CellType.

Lemma reach_in_grid n p : reach ROWS COLS g t n p → in_grid ROWS COLS p.
Proof. by destruct 1. Qed.

Lemma reach_has_seed n p :
  reach ROWS COLS g t n p → ∃ s, in_grid ROWS COLS s ∧ at2 g s.1 s.2 = Some t.
Proof. induction 1; eauto. Qed.

Lemma reach_S_inv n q :
  reach ROWS COLS g t (S n) q →
  ∃ p, reach ROWS COLS g t n p ∧ adjacent p q ∧ in_grid ROWS COLS q.
Proof. inversion 1; subst; eauto. Qed.

Lemma min_steps_unique p n m :
  min_steps ROWS COLS g t p n → min_steps ROWS COLS g t p m → n = m.
Proof. intros [Hn Hn'] [Hm Hm']. apply Hn' in Hm. apply Hm' in Hn. lia. Qed.

(** Walking towards a seed, first along the rows, then along the columns. *)
Lemma reach_manhattan s p :
  in_grid ROWS COLS s → at2 g s.1 s.2 = Some t → in_grid ROWS COLS p →
  reach ROWS COLS g t (Z.to_nat (Z.abs (p.1 - s.1) + Z.abs (p.2 - s.2))) p.
Proof.
  intros Hs Hst.
  remember (Z.to_nat (Z.abs (p.1 - s.1) + Z.abs (p.2 - s.2))) as n eqn:Hn.
  revert p Hn. induction n as [|n IH]; intros [px py] Hn Hp.
  - destruct s as [sx sy]; simpl in *.
    assert (px = sx ∧ py = sy) as [-> ->] by lia. by apply reach_seed.
  - destruct s as [sx sy]; unfold in_grid in *; simpl in *.
    destruct (decide (px = sx)) as [->|Hx].
    + apply (reach_step _ _ _ _ _ (sx, if decide (py < sy) then py + 1 else py - 1)).
      * apply IH; cbn [fst snd]; case_decide; lia.
      * unfold adjacent; cbn [fst snd]; case_decide; lia.
      * unfold in_grid; simpl; lia.
    + apply (reach_step _ _ _ _ _ (if decide (px < sx) then px + 1 else px - 1, py)).
      * apply IH; cbn [fst snd]; case_decide; lia.
      * unfold adjacent; cbn [fst snd]; case_decide; lia.
      * unfold in_grid; simpl; lia.
Qed.

(** No cell is further than [ROWS + COLS - 2] steps from a seed. *)
Lemma min_steps_bound p n :
  min_steps ROWS COLS g t p n → (Z.of_nat n ≤ ROWS + COLS - 2).
Proof.
  intros [Hr Hmin]. destruct (reach_has_seed _ _ Hr) as (s & Hs & Hst).
  pose proof (reach_in_grid _ _ Hr) as Hp.
  apply Hmin in Hr as _.
  specialize (Hmin _ (reach_manhattan s p Hs Hst Hp)).
  destruct s, p; unfold in_grid in *; simpl in *. lia.
Qed.

(** The four directions of [dx], [dy] are the four neighbours. *)
Lemma adjacent_dir (x y : Z) (q : pos) :
  adjacent (x, y) q ↔
  ∃ dir ddx ddy, (dir < 4)%nat ∧ dx !! dir = Some ddx ∧ dy !! dir = Some ddy ∧
                 q = (x + ddx, y + ddy).
Proof.
  unfold adjacent. destruct q as [qx qy]; simpl. split.
  - intros H.
    destruct (decide (qx = x - 1)); [exists 0%nat, (-1), 0; simpl|].
    { split; [lia|]. do 2 (split; [done|]). f_equal; lia. }
    destruct (decide (qy = y + 1)); [exists 1%nat, 0, 1; simpl|].
    { split; [lia|]. do 2 (split; [done|]). f_equal; lia. }
    destruct (decide (qx = x + 1)); [exists 2%nat, 1, 0; simpl|].
    { split; [lia|]. do 2 (split; [done|]). f_equal; lia. }
    exists 3%nat, 0, (-1); simpl.
    split; [lia|]. do 2 (split; [done|]). f_equal; lia.
  - intros (dir & ddx & ddy & Hdir & Hdx & Hdy & [= -> ->]).
    do 4 (destruct dir as [|dir]; [simpl in *; simplify_eq; lia|]). lia.
Qed.

End Reach.

(** ** The breadth-first search *)

Lemma filter_length_lt {A} (P Q : A → Prop)
    `{∀ a, Decision (P a)} `{∀ a, Decision (Q a)} (l : list A) (x : A) :
  (∀ a, P a → Q a) → x ∈ l → Q x → ¬ P x →
  (length (filter P l) < length (filter Q l))%nat.
Proof.
  intros HPQ Hx HQx HPx.
  assert (∀ l', length (filter P l') ≤ length (filter Q l'))%nat as Hle.
  { induction l' as [|a l' IH]; [done|]. rewrite !filter_cons.
    destruct (decide (P a)), (decide (Q a)); simpl; try lia. naive_solver. }
  induction l as [|a l IH]; [by apply elem_of_nil in Hx|].
  rewrite !filter_cons. apply elem_of_cons in Hx as [<-|Hx].
  - rewrite decide_False, decide_True by done. simpl. specialize (Hle l). lia.
  - specialize (IH Hx). destruct (decide (P a)), (decide (Q a)); simpl; try lia.
    naive_solver.
Qed.

Section Search.
Variables ROWS COLS : Z.
Variable g : Grid.
Variable t : CellType.
Hypothesis dims_small : ROWS + COLS ≤ Z.of_nat step_bound.

Lemma min_steps_small p n :
  min_steps ROWS COLS g t p n → (S n < step_bound)%nat.
Proof. intros H%min_steps_bound. lia. Qed.

Lemma unreached_set2 (dm : matrix double) x y v :
  in_grid ROWS COLS (x, y) → at2 dm x y = Some DBL_MAX → v ≠ DBL_MAX →
  (unreached ROWS COLS (set2 dm x y v) < unreached ROWS COLS dm)%nat.
Proof.
  intros Hin Hmax Hv. unfold unreached.
  apply (filter_length_lt _ _ _ (x, y)); simpl.
  - intros [px py]; simpl. destruct (decide ((x, y) = (px, py))) as [[= <- <-]|Hne].
    + rewrite (at2_set2_eq _ _ _ _ _ Hmax). congruence.
    + rewrite at2_set2_ne; [done| | |done]; apply Hin.
  - by apply elem_of_positions.
  - done.
  - rewrite (at2_set2_eq _ _ _ _ _ Hmax). congruence.
Qed.

Lemma relax_ok k dm x y q1 q2 dir :
  bfs_inv ROWS COLS g t k dm ((x, y) :: q1) q2 → (dir < 4)%nat →
  ∃ dm' q2',
    relax ROWS COLS x y dir (dm, q1 ++ q2) = Ok (dm', q1 ++ q2') ∧
    bfs_inv ROWS COLS g t k dm' ((x, y) :: q1) q2' ∧
    (∀ p, at2 dm p.1 p.2 ≠ Some DBL_MAX → at2 dm' p.1 p.2 ≠ Some DBL_MAX) ∧
    (∀ ddx ddy, dx !! dir = Some ddx → dy !! dir = Some ddy →
       in_grid ROWS COLS (x + ddx, y + ddy) →
       at2 dm' (x + ddx) (y + ddy) ≠ Some DBL_MAX) ∧
    (length (q1 ++ q2') + unreached ROWS COLS dm'
     ≤ length (q1 ++ q2) + unreached ROWS COLS dm)%nat.
Proof.
  intros Hinv Hdir.
  destruct (lookup_lt_is_Some_2 dx dir ltac:(simpl; lia)) as [ddx Hdx].
  destruct (lookup_lt_is_Some_2 dy dir ltac:(simpl; lia)) as [ddy Hdy].
  unfold relax. rewrite Hdx, Hdy; cbn [or_undefined mbind outcome_bind].
  pose proof (Forall_inv (inv_front _ _ _ _ _ _ _ _ Hinv)) as [Hxy Hmin]; simpl in Hxy.
  pose proof (min_steps_small _ _ Hmin) as Hk.
  case_bool_decide as Hn; cycle 1.
  { exists dm, q2. split; [done|]. split; [done|]. split; [done|]. split; [|done].
    intros ? ? [= <-] [= <-] [? ?]; simpl in *. lia. }
  assert (in_grid ROWS COLS (x + ddx, y + ddy)) as Hin by (unfold in_grid; simpl; lia).
  assert (adjacent (x, y) (x + ddx, y + ddy)) as Hadj.
  { apply adjacent_dir. exists dir, ddx, ddy. done. }
  assert (reach ROWS COLS g t (S k) (x + ddx, y + ddy)) as Hreach.
  { eapply reach_step; [apply Hmin|done|done]. }
  unfold read2. rewrite Hxy.
  destruct (inv_value _ _ _ _ _ _ _ _ Hinv _ Hin) as [Hmax|(j & Hj & Hjmin)];
    simpl in Hmax || simpl in Hj.
  - (* the neighbour is still at the sentinel: it is set and queued *)
    rewrite Hmax; cbn [or_undefined mbind outcome_bind].
    rewrite <- steps_S, steps_ltb_max by done.
    unfold write2. rewrite Hmax; cbn [mbind outcome_bind].
    set (dm' := set2 dm (x + ddx) (y + ddy) (steps (S k))).
    assert (∀ p, p ≠ (x + ddx, y + ddy) → at2 dm' p.1 p.2 = at2 dm p.1 p.2) as Hother.
    { intros [px py] Hne. apply at2_set2_ne; [apply Hin..|done]. }
    assert (at2 dm' (x + ddx) (y + ddy) = Some (steps (S k))) as Hnew.
    { by eapply at2_set2_eq. }
    assert (min_steps ROWS COLS g t (x + ddx, y + ddy) (S k)) as Hnewmin.
    { split; [done|]. intros m Hm. destruct (decide (m ≤ k)%nat) as [Hle|]; [|lia].
      by destruct (inv_low _ _ _ _ _ _ _ _ Hinv _ _ Hm Hle). }
    assert (∀ p, at2 dm p.1 p.2 ≠ Some DBL_MAX → at2 dm' p.1 p.2 ≠ Some DBL_MAX)
      as Hmono.
    { intros p Hp. destruct (decide (p = (x + ddx, y + ddy))) as [->|Hne].
      - simpl. rewrite Hnew. intros [= H]. exact (steps_ne_max (S k) Hk H).
      - by rewrite Hother. }
    assert (∀ p n, (n < step_bound)%nat → at2 dm p.1 p.2 = Some (steps n) →
                   at2 dm' p.1 p.2 = Some (steps n)) as Hkeep.
    { intros p n Hn' Hp. rewrite Hother; [done|]. intros ->. simpl in Hp.
      rewrite Hmax in Hp. injection Hp as Hp. by destruct (steps_ne_max n). }
    exists dm', (q2 ++ [(x + ddx, y + ddy)]). rewrite (assoc_L (++)).
    split; [done|]. split; [|split; [done|split]].
    + split.
      * by apply set2_shaped, Hinv.
      * intros p Hp. destruct (decide (p = (x + ddx, y + ddy))) as [->|Hne].
        -- right. eauto.
        -- rewrite Hother by done. by apply Hinv.
      * eapply Forall_impl; [apply Hinv|]. intros p [Hp Hpm]. simpl. split; [|done].
        apply Hkeep; [|done]. apply min_steps_small in Hpm. lia.
      * apply Forall_app. split.
        -- eapply Forall_impl; [apply Hinv|]. intros p [Hp Hpm]. simpl. split; [|done].
           apply Hkeep; [|done]. apply min_steps_small in Hpm. lia.
        -- by apply Forall_singleton.
      * intros m p Hm Hle. by apply Hmono, (inv_low _ _ _ _ _ _ _ _ Hinv m).
      * intros p q Hp Hpf Hpq Hpadj Hq.
        assert (p ≠ (x + ddx, y + ddy)) as Hne.
        { intros ->. apply Hpq. rewrite (assoc_L (++)).
          apply elem_of_app. right. by apply list_elem_of_singleton. }
        rewrite Hother in Hpf by done. apply Hmono.
        eapply (inv_done _ _ _ _ _ _ _ _ Hinv p q); try done.
        intros Hel. apply Hpq. rewrite (assoc_L (++)). apply elem_of_app. by left.
    + intros ? ? [= <-] [= <-] _. rewrite Hnew. intros [= H].
      exact (steps_ne_max (S k) Hk H).
    + pose proof (unreached_set2 dm _ _ (steps (S k)) Hin Hmax
                    (steps_ne_max _ Hk)) as Hlt.
      fold dm' in Hlt. rewrite !length_app in *. simpl. lia.
  - (* the neighbour is set already, to at most one more step *)
    rewrite Hj; cbn [or_undefined mbind outcome_bind].
    pose proof (min_steps_small _ _ Hjmin) as Hjs.
    assert (j ≤ S k)%nat as Hjk by (by apply Hjmin).
    rewrite <- steps_S, steps_ltb by (done || lia).
    replace (S k <? j)%nat with false by (symmetry; apply Nat.ltb_ge; lia).
    exists dm, q2. split; [done|]. split; [done|]. split; [done|]. split; [|done].
    intros ? ? [= <-] [= <-] _. rewrite Hj. intros [= H].
    exact (steps_ne_max j ltac:(lia) H).
Qed.

(** Taking a cell off the queue and relaxing its four neighbours. *)
Lemma process_ok k dm x y q1 q2 :
  bfs_inv ROWS COLS g t k dm ((x, y) :: q1) q2 →
  ∃ dm' q2',
    for_each (seq 0 4) (relax ROWS COLS x y) (dm, q1 ++ q2) = Ok (dm', q1 ++ q2') ∧
    bfs_inv ROWS COLS g t k dm' q1 q2' ∧
    (length (q1 ++ q2') + unreached ROWS COLS dm'
     ≤ length (q1 ++ q2) + unreached ROWS COLS dm)%nat.
Proof.
  intros I0.
  destruct (relax_ok k dm x y q1 q2 0 I0) as (dm1 & r1 & E1 & I1 & M1 & N1 & L1); [lia|].
  destruct (relax_ok k dm1 x y q1 r1 1 I1) as (dm2 & r2 & E2 & I2 & M2 & N2 & L2); [lia|].
  destruct (relax_ok k dm2 x y q1 r2 2 I2) as (dm3 & r3 & E3 & I3 & M3 & N3 & L3); [lia|].
  destruct (relax_ok k dm3 x y q1 r3 3 I3) as (dm4 & r4 & E4 & I4 & M4 & N4 & L4); [lia|].
  exists dm4, r4. split; [|split; [|lia]].
  { cbn [seq for_each]. rewrite E1; cbn [mbind outcome_bind].
    rewrite E2; cbn [mbind outcome_bind]. rewrite E3; cbn [mbind outcome_bind].
    by rewrite E4. }
  destruct I4 as [Hs Hv Hf Hb Hl Hd]. split; try done.
  - by apply Forall_inv_tail in Hf.
  - intros p q Hp Hpf Hpq Hadj Hq.
    destruct (decide (p = (x, y))) as [->|Hne].
    + apply adjacent_dir in Hadj as (dir & ddx & ddy & Hdir & Hdx & Hdy & ->).
      destruct dir as [|[|[|[|]]]]; [| | | |lia]; simpl.
      * by apply (M4 (_, _)), (M3 (_, _)), (M2 (_, _)), (N1 ddx ddy).
      * by apply (M4 (_, _)), (M3 (_, _)), (N2 ddx ddy).
      * by apply (M4 (_, _)), (N3 ddx ddy).
      * by apply (N4 ddx ddy).
    + apply (Hd p q); try done. intros [?|?]%elem_of_cons; done.
Qed.

(** When level [k] is empty, the queue holds level [k + 1] only. *)
Lemma bfs_inv_next_level k dm q2 :
  bfs_inv ROWS COLS g t k dm [] q2 → bfs_inv ROWS COLS g t (S k) dm q2 [].
Proof.
  intros [Hs Hv Hf Hb Hl Hd]. split; try done.
  - intros m p Hm Hle. destruct (decide (m ≤ k)%nat) as [|Hgt]; [by eapply Hl|].
    assert (m = S k) as -> by lia.
    apply reach_S_inv in Hm as (p' & Hp' & Hadj & Hp).
    apply (Hd p' p); try done.
    + by eapply reach_in_grid.
    + by eapply Hl.
    + simpl. intros Hel. rewrite Forall_forall in Hb.
      destruct (Hb _ Hel) as [_ [_ Hmin]]. apply Hmin in Hp'. lia.
  - intros p q. rewrite app_nil_r. apply Hd.
Qed.

(** A non-empty queue has its head at the current level, after
    moving to the next level if need be. *)
Lemma bfs_inv_head k dm q1 q2 p q :
  bfs_inv ROWS COLS g t k dm q1 q2 → q1 ++ q2 = p :: q →
  ∃ k' q1' q2', q = q1' ++ q2' ∧ bfs_inv ROWS COLS g t k' dm (p :: q1') q2'.
Proof.
  intros Hinv Hq. destruct q1 as [|p1 q1].
  - simpl in Hq. subst q2. exists (S k), q, [].
    split; [by rewrite app_nil_r|]. by apply bfs_inv_next_level.
  - injection Hq as -> <-. eauto.
Qed.

(** With the queue empty the field is the distance field of [t]. *)
Lemma bfs_inv_final k dm p :
  bfs_inv ROWS COLS g t k dm [] [] → in_grid ROWS COLS p →
  (absent ROWS COLS g t ∧ at2 dm p.1 p.2 = Some DBL_MAX) ∨
  (∃ n, min_steps ROWS COLS g t p n ∧ at2 dm p.1 p.2 = Some (steps n)).
Proof.
  intros [Hs Hv Hf Hb Hl Hd] Hp.
  assert (∀ m q, reach ROWS COLS g t m q → at2 dm q.1 q.2 ≠ Some DBL_MAX) as Hset.
  { induction 1 as [q Hq Hqt|m q q' Hq IH Hadj Hq'].
    - apply (Hl 0%nat); [by apply reach_seed|lia].
    - apply (Hd q q'); try done; [by eapply reach_in_grid|]. by intros ?%elem_of_nil. }
  destruct (Hv p Hp) as [Hmax|(n & Hn & Hmin)]; [left|right; eauto].
  split; [|done]. intros s' Hs' Hst.
  by destruct (Hset _ _ (reach_manhattan ROWS COLS g t s' p Hs' Hst Hp)).
Qed.

(** The search returns, within [fuel] cells taken off the queue. *)
Lemma bfs_ok fuel : ∀ k dm q1 q2,
  bfs_inv ROWS COLS g t k dm q1 q2 →
  (length (q1 ++ q2) + unreached ROWS COLS dm ≤ fuel)%nat →
  ∃ dm' k', bfs ROWS COLS fuel dm (q1 ++ q2) = Ok dm' ∧
            bfs_inv ROWS COLS g t k' dm' [] [].
Proof.
  induction fuel as [|fuel IH]; intros k dm q1 q2 Hinv Hfuel.
  - destruct q1, q2; simpl in Hfuel; try lia. simpl. eauto.
  - destruct (q1 ++ q2) as [|[x y] q] eqn:Hq.
    + apply app_eq_nil in Hq as [-> ->]. simpl. eauto.
    + destruct (bfs_inv_head _ _ _ _ _ _ Hinv Hq) as (k' & q1' & q2' & -> & Hinv').
      destruct (process_ok _ _ _ _ _ _ Hinv') as (dm' & q2'' & E & Hinv'' & Hle).
      cbn [bfs]. rewrite E; cbn [mbind outcome_bind fst snd].
      apply (IH k'); [done|]. simpl in Hfuel. lia.
Qed.

End Search.

(** ** Seeding *)

Lemma for_each_ext {A S} (l : list A) (body body' : A → S → outcome S) :
  (∀ a s, body a s = body' a s) → ∀ s, for_each l body s = for_each l body' s.
Proof.
  intros Hext. induction l as [|a l IH]; intros s; simpl; [done|].
  rewrite Hext. destruct (body' a s); simpl; auto.
Qed.

Lemma for_each_bind {A B S} (k : A → list B) (l : list A)
    (body : B → S → outcome S) (s : S) :
  for_each (l ≫= k) body s = for_each l (λ a, for_each (k a) body) s.
Proof.
  revert s. induction l as [|a l IH]; intros s; [done|].
  change ((a :: l) ≫= k) with (k a ++ l ≫= k). rewrite for_each_app. simpl.
  destruct (for_each (k a) body s); simpl; auto.
Qed.

(** The nested loops visit [positions] in order. *)
Lemma for_each_positions {S} ROWS COLS (body : Z → Z → S → outcome S) (s : S) :
  for_each (seqZ 0 ROWS) (λ i, for_each (seqZ 0 COLS) (body i)) s
  = for_each (positions ROWS COLS) (λ p, body p.1 p.2) s.
Proof.
  unfold positions. rewrite for_each_bind. apply for_each_ext. intros i s'.
  rewrite for_each_bind. apply for_each_ext. intros j s''. simpl.
  by destruct (body i j s'').
Qed.

(** Induction over the part of the range a loop has been through. *)
Lemma for_each_prefix {A S} (P : list A → S → Prop) (l : list A)
    (body : A → S → outcome S) (s0 : S) :
  P [] s0 →
  (∀ l1 a l2 s, l = l1 ++ a :: l2 → P l1 s →
     ∃ s', body a s = Ok s' ∧ P (l1 ++ [a]) s') →
  ∃ s', for_each l body s0 = Ok s' ∧ P l s'.
Proof.
  intros H0 Hstep.
  assert (∀ rest seen s, l = seen ++ rest → P seen s →
            ∃ s', for_each rest body s = Ok s' ∧ P l s') as Hgen.
  { induction rest as [|a rest IH]; intros seen s Hl Hs.
    - rewrite app_nil_r in Hl. subst. simpl. eauto.
    - destruct (Hstep seen a rest s Hl Hs) as (s1 & E & Hs1).
      simpl. rewrite E. simpl. apply (IH (seen ++ [a])); [|done].
      by rewrite <- (assoc_L (++)). }
  by apply (Hgen l []).
Qed.

Lemma length_bind_const {A B} (k : A → list B) (c : nat) (l : list A) :
  (∀ a, length (k a) = c) → length (l ≫= k) = (length l * c)%nat.
Proof.
  intros Hk. induction l as [|a l IH]; [done|].
  change ((a :: l) ≫= k) with (k a ++ l ≫= k).
  rewrite length_app, IH, Hk. simpl. lia.
Qed.

Lemma length_positions ROWS COLS :
  length (positions ROWS COLS) = (Z.to_nat ROWS * Z.to_nat COLS)%nat.
Proof.
  unfold positions.
  rewrite (length_bind_const _ (Z.to_nat COLS)), length_seqZ; [done|].
  intros i. by rewrite (length_bind_const _ 1%nat), length_seqZ, Nat.mul_1_r.
Qed.

Lemma filter_length_split {A} (P Q : A → Prop)
    `{∀ a, Decision (P a)} `{∀ a, Decision (Q a)} (l : list A) :
  (∀ a, a ∈ l → (Q a ↔ ¬ P a)) →
  (length (filter P l) + length (filter Q l) = length l)%nat.
Proof.
  induction l as [|a l IH]; intros HPQ; [done|]. rewrite !filter_cons.
  pose proof (HPQ a ltac:(left)) as Ha.
  specialize (IH ltac:(intros; apply HPQ; by right)).
  destruct (decide (P a)), (decide (Q a)); simpl; try lia; tauto.
Qed.

Lemma at2_replicate {A} ROWS COLS (v : A) p :
  in_grid ROWS COLS p →
  at2 (replicate (Z.to_nat ROWS) (replicate (Z.to_nat COLS) v)) p.1 p.2 = Some v.
Proof.
  intros [Hx Hy]. apply at2_Some. split; [lia|]. split; [lia|].
  exists (replicate (Z.to_nat COLS) v).
  split; apply lookup_replicate; split; try done; lia.
Qed.

Lemma shaped_replicate {A} ROWS COLS (v : A) :
  shaped ROWS COLS (replicate (Z.to_nat ROWS) (replicate (Z.to_nat COLS) v)).
Proof.
  split; [by rewrite length_replicate|].
  apply Forall_replicate. by rewrite length_replicate.
Qed.

Section Seeding.
Variables ROWS COLS : Z.
Variable g : Grid.
Variable t : CellType.
Hypothesis g_shaped : shaped ROWS COLS g.

(** After the seeding loops the cells bearing [t] are at [0.0] and queued
    in loop order; the other cells are at the sentinel. *)
Lemma seed_ok :
  ∃ dm q, seed ROWS COLS g t = Ok (dm, q) ∧
    bfs_inv ROWS COLS g t 0 dm q [] ∧
    (length q + unreached ROWS COLS dm ≤ Z.to_nat ROWS * Z.to_nat COLS)%nat.
Proof.
  set (seedp := λ p : pos, at2 g p.1 p.2 = Some t).
  set (P := λ (seen : list pos) (s : matrix double * list pos),
         shaped ROWS COLS s.1 ∧ s.2 = filter seedp seen ∧
         (∀ p, in_grid ROWS COLS p → seedp p → p ∈ seen →
               at2 s.1 p.1 p.2 = Some (steps 0)) ∧
         (∀ p, in_grid ROWS COLS p → ¬ (seedp p ∧ p ∈ seen) →
               at2 s.1 p.1 p.2 = Some DBL_MAX)).
  unfold seed. rewrite for_each_positions.
  destruct (for_each_prefix P (positions ROWS COLS)
              (λ p, seed_cell g t p.1 p.2)
              (replicate (Z.to_nat ROWS) (replicate (Z.to_nat COLS) DBL_MAX), []))
    as ([dm q] & E & Hs & Hq & Hset & Hunset).
  { split; [apply shaped_replicate|]. split; [done|]. split.
    - by intros p _ _ ?%elem_of_nil.
    - intros p Hp _. by apply at2_replicate. }
  { intros seen [i j] rest [dm q] Hl (Hs & Hq & Hset & Hunset); simpl in *.
    assert (in_grid ROWS COLS (i, j)) as Hin.
    { apply elem_of_positions. rewrite Hl. set_solver. }
    unfold seed_cell. rewrite (read2_label ROWS COLS g g_shaped i j Hin).
    cbn [mbind outcome_bind].
    destruct (at2_shaped ROWS COLS g i j g_shaped Hin) as [c Hc].
    assert (label_at g (i, j) = c) as -> by (unfold label_at; simpl; by rewrite Hc).
    destruct (at2_shaped ROWS COLS dm i j Hs Hin) as [d Hd].
    case_bool_decide as Hct.
    - subst c. unfold write2. rewrite Hd. cbn [mbind outcome_bind].
      eexists. split; [done|]. unfold P; simpl.
      split; [by apply set2_shaped|]. split; [|split].
      + rewrite filter_app, filter_cons, decide_True by done. by rewrite Hq.
      + intros p Hp Hpt Hel. destruct (decide (p = (i, j))) as [->|Hne].
        * by eapply at2_set2_eq.
        * rewrite at2_set2_ne; [|apply Hin..|by destruct p].
          apply Hset; try done.
          by apply elem_of_app in Hel as [?|?%list_elem_of_singleton].
      + intros p Hp Hnot. destruct (decide (p = (i, j))) as [->|Hne].
        * destruct Hnot. split; [done|]. set_solver.
        * rewrite at2_set2_ne; [|apply Hin..|by destruct p].
          apply Hunset; [done|]. intros [? ?]. apply Hnot. split; [done|]. set_solver.
    - eexists. split; [done|]. unfold P; simpl.
      assert (¬ seedp (i, j)) as Hnp by (unfold seedp; simpl; congruence).
      split; [done|]. split; [|split].
      + rewrite filter_app, filter_cons, decide_False by done.
        by rewrite filter_nil, app_nil_r.
      + intros p Hp Hpt [Hel|Hel%list_elem_of_singleton]%elem_of_app; [eauto|].
        by subst p.
      + intros p Hp Hnot. apply Hunset; [done|]. intros [? ?]. apply Hnot.
        split; [done|]. set_solver. }
  simpl in *. exists dm, q. split; [done|]. split; [split|].
  - done.
  - intros p Hp. destruct (decide (seedp p)) as [Hpt|Hpt].
    + right. exists 0%nat. split; [by apply Hset, elem_of_positions|].
      split; [by apply reach_seed|]. intros; lia.
    + left. apply Hunset; [done|]. tauto.
  - subst q. apply Forall_forall. intros p [Hpt Hp]%list_elem_of_filter.
    pose proof (proj1 (elem_of_positions _ _ _) Hp) as Hin.
    split; [by apply Hset|]. split; [by apply reach_seed|]. intros; lia.
  - done.
  - intros m p Hm Hle. assert (m = 0%nat) as -> by lia. inversion Hm; subst.
    rewrite Hset; [|done|done|by apply elem_of_positions].
    apply Some_steps_ne_max. unfold step_bound; lia.
  - intros p p' Hp Hpf Hnq _ _. destruct Hpf. apply Hunset; [done|].
    intros [Hpt Hel]. apply Hnq. rewrite app_nil_r. subst q.
    by apply list_elem_of_filter.
  - subst q. unfold unreached.
    rewrite filter_length_split; [by rewrite length_positions|].
    intros p Hp%elem_of_positions. simpl. split.
    + intros Hmax Hpt. rewrite Hset in Hmax; [|done|done|by apply elem_of_positions].
      by apply (Some_steps_ne_max 0) in Hmax; [|unfold step_bound; lia].
    + intros Hpt. apply Hunset; [done|]. tauto.
Qed.

End Seeding.

(** ** The distance fields *)

Lemma distance_map_ok ROWS COLS g t fuel :
  shaped ROWS COLS g → ROWS + COLS ≤ Z.of_nat step_bound →
  (Z.to_nat ROWS * Z.to_nat COLS ≤ fuel)%nat →
  ∃ dm, distance_map ROWS COLS fuel g t = Ok dm ∧ shaped ROWS COLS dm ∧
    ∀ p, in_grid ROWS COLS p →
      (absent ROWS COLS g t ∧ at2 dm p.1 p.2 = Some DBL_MAX) ∨
      (∃ n, min_steps ROWS COLS g t p n ∧
            at2 dm p.1 p.2 = Some (double_of_int (Z.of_nat n))).
Proof.
  intros Hg Hsmall Hfuel.
  destruct (seed_ok ROWS COLS g t Hg) as (dm0 & q & E0 & Hinv0 & Hle).
  destruct (bfs_ok ROWS COLS g t Hsmall fuel 0 dm0 q [] Hinv0) as (dm & k & E & Hinv).
  { rewrite app_nil_r. lia. }
  rewrite app_nil_r in E. exists dm. split; [|split].
  - unfold distance_map. rewrite E0. cbn [mbind outcome_bind fst snd]. done.
  - apply Hinv.
  - intros p Hp.
    destruct (bfs_inv_final ROWS COLS g t k dm p Hinv Hp) as [?|(n & Hmin & Hn)];
      [by left|right].
    exists n. split; [done|]. rewrite Hn, steps_value; [done|].
    pose proof (min_steps_bound _ _ _ _ _ _ Hmin). lia.
Qed.

(** The loop over [landUseTypes] stores the four fields under their labels. *)
Lemma computeDistanceMaps_eq ROWS COLS g fuel d1 d2 d3 d4 :
  distance_map ROWS COLS fuel g TRANSPORT = Ok d1 →
  distance_map ROWS COLS fuel g PUBLIC = Ok d2 →
  distance_map ROWS COLS fuel g LANDSCAPE = Ok d3 →
  distance_map ROWS COLS fuel g ROAD = Ok d4 →
  computeDistanceMaps ROWS COLS fuel g
  = Ok (<[ROAD := d4]> (<[LANDSCAPE := d3]> (<[PUBLIC := d2]>
          (<[TRANSPORT := d1]> ∅)))).
Proof.
  intros E1 E2 E3 E4. unfold computeDistanceMaps, landUseTypes. cbn [for_each].
  rewrite E1; cbn [mbind outcome_bind]. rewrite E2; cbn [mbind outcome_bind].
  rewrite E3; cbn [mbind outcome_bind]. by rewrite E4.
Qed.

(** C2. On a [ROWS]×[COLS] grid (with [ROWS + COLS] within the range where
    step counts are exact doubles that [<] tells apart) [computeDistanceMaps]
    returns, for every fixed-feature label, a field in which each cell holds
    the minimum number of 4-connected steps to a cell bearing the label; when
    the label is nowhere on the grid every cell holds the sentinel. The loop
    bound [fuel] only has to cover one visit per cell. *)
Theorem computeDistanceMaps_min_steps ROWS COLS g fuel :
  shaped ROWS COLS g → ROWS + COLS ≤ Z.of_nat step_bound →
  (Z.to_nat ROWS * Z.to_nat COLS ≤ fuel)%nat →
  ∃ distanceMaps,
    computeDistanceMaps ROWS COLS fuel g = Ok distanceMaps ∧
    ∀ t, t ∈ landUseTypes →
      ∃ dm, distanceMaps !! t = Some dm ∧ shaped ROWS COLS dm ∧
        ∀ p, in_grid ROWS COLS p →
          (absent ROWS COLS g t ∧ at2 dm p.1 p.2 = Some DBL_MAX) ∨
          (∃ n, min_steps ROWS COLS g t p n ∧
                at2 dm p.1 p.2 = Some (double_of_int (Z.of_nat n))).
Proof.
  intros Hg Hsmall Hfuel.
  destruct (distance_map_ok ROWS COLS g TRANSPORT fuel) as (d1 & E1 & H1); try done.
  destruct (distance_map_ok ROWS COLS g PUBLIC fuel) as (d2 & E2 & H2); try done.
  destruct (distance_map_ok ROWS COLS g LANDSCAPE fuel) as (d3 & E3 & H3); try done.
  destruct (distance_map_ok ROWS COLS g ROAD fuel) as (d4 & E4 & H4); try done.
  eexists. split; [by apply computeDistanceMaps_eq|].
  intros t Ht. unfold landUseTypes in Ht.
  repeat (apply elem_of_cons in Ht as [->|Ht]); [..|by apply elem_of_nil in Ht].
  - exists d1. split; [by simplify_map_eq|done].
  - exists d2. split; [by simplify_map_eq|done].
  - exists d3. split; [by simplify_map_eq|done].
  - exists d4. split; [by simplify_map_eq|done].
Qed.

(** On [grid5], whose single [TRANSPORT] cell is at (2,2): the theorem's
    conclusion, and the values at (0,0) and (2,2); [ROAD] is absent. *)
Lemma computeDistanceMaps_min_steps_witness :
  (∃ distanceMaps,
    computeDistanceMaps 5 5 25 grid5 = Ok distanceMaps ∧
    ∀ t, t ∈ landUseTypes →
      ∃ dm, distanceMaps !! t = Some dm ∧ shaped 5 5 dm ∧
        ∀ p, in_grid 5 5 p →
          (absent 5 5 grid5 t ∧ at2 dm p.1 p.2 = Some DBL_MAX) ∨
          (∃ n, min_steps 5 5 grid5 t p n ∧
                at2 dm p.1 p.2 = Some (double_of_int (Z.of_nat n)))) ∧
  computeDistanceMaps 5 5 25 grid5 = Ok (fields_of 5 5 grid5) ∧
  distance_at (fields_of 5 5 grid5) TRANSPORT (0, 0) = 4%float ∧
  distance_at (fields_of 5 5 grid5) TRANSPORT (2, 2) = 0%float ∧
  distance_at (fields_of 5 5 grid5) ROAD (0, 0) = DBL_MAX.
Proof.
  split.
  - apply (computeDistanceMaps_min_steps 5 5 grid5 25).
    + apply shaped_check_sound. vm_compute. reflexivity.
    + vm_compute. discriminate.
    + vm_compute. lia.
  - repeat split; vm_compute; reflexivity.
Defined.

(** ** Swapping two cells *)

Ltac inv_bind H :=
  repeat match type of H with
  | mbind _ _ = Ok _ =>
      let a := fresh "a" in let E := fresh "E" in
      apply bind_Ok in H as (a & E & H);
      try match type of a with (_ * _)%type => destruct a as [? ?] end;
      simpl in H
  end.

Lemma insert_cons_perm {A} (l : list A) (j : nat) (a b : A) :
  l !! j = Some a → a :: <[j := b]> l ≡ₚ b :: l.
Proof.
  revert j. induction l as [|c l IH]; intros [|j] Hj; simplify_eq/=.
  - apply Permutation_swap.
  - etrans; [apply Permutation_swap|].
    etrans; [apply Permutation_skip, (IH j Hj)|]. apply Permutation_swap.
Qed.

Lemma set2_concat_perm {A} (m : matrix A) (x y : Z) (a b : A) :
  at2 m x y = Some a → a :: concat (set2 m x y b) ≡ₚ b :: concat m.
Proof.
  intros (_ & _ & row & Hrow & Ha)%at2_Some. unfold set2.
  revert Hrow. generalize (Z.to_nat x) as i. induction m as [|r m IH]; intros [|i] Hi;
    simplify_eq/=.
  - by rewrite app_comm_cons, (insert_cons_perm _ _ _ _ Ha).
  - rewrite (Permutation_middle r), (IH i Hi). by rewrite <- Permutation_middle.
Qed.

Section Swap.
Variables ROWS COLS : Z.

Lemma swap_cells_ok (g g' : Grid) (p1 p2 : pos) :
  swap_cells g p1 p2 = Ok g' →
  ∃ a b, at2 g p1.1 p1.2 = Some a ∧ at2 g p2.1 p2.2 = Some b ∧
    (∀ p, p ≠ p1 → p ≠ p2 → at2 g' p.1 p.2 = at2 g p.1 p.2) ∧
    at2 g' p2.1 p2.2 = Some a ∧
    (p1 ≠ p2 → at2 g' p1.1 p1.2 = Some b) ∧
    concat g' ≡ₚ concat g ∧
    (shaped ROWS COLS g → shaped ROWS COLS g').
Proof.
  destruct p1 as [x1 y1], p2 as [x2 y2]. unfold swap_cells, read2, write2; simpl.
  destruct (at2 g x1 y1) as [a|] eqn:Ha; [|done].
  destruct (at2 g x2 y2) as [b|] eqn:Hb; [|done]. simpl.
  pose proof (proj1 (at2_Some _ _ _ _) Ha) as (Hx1 & Hy1 & _).
  pose proof (proj1 (at2_Some _ _ _ _) Hb) as (Hx2 & Hy2 & _).
  assert (at2 (set2 g x1 y1 b) x2 y2 = Some b) as Hb'.
  { destruct (decide ((x1, y1) = (x2, y2))) as [[= <- <-]|Hne].
    - by eapply at2_set2_eq.
    - by rewrite at2_set2_ne. }
  rewrite Hb'. intros [= <-]. exists a, b. split_and!; try done.
  - intros [px py] Hp1 Hp2; simpl. by rewrite !at2_set2_ne.
  - by eapply at2_set2_eq.
  - intros Hne. rewrite at2_set2_ne by done. by eapply at2_set2_eq.
  - apply (Permutation_cons_inv (a := b)).
    rewrite (set2_concat_perm _ _ _ _ _ Hb'). by apply set2_concat_perm.
  - intros Hs. by do 2 apply set2_shaped.
Qed.

End Swap.

(** Two arrays of the same shape with the same entries are the same array. *)
Lemma matrix_ext {A} ROWS COLS (m m' : matrix A) :
  shaped ROWS COLS m → shaped ROWS COLS m' →
  (∀ x y, at2 m x y = at2 m' x y) → m = m'.
Proof.
  intros [Hlen Hrows] [Hlen' Hrows'] Heq. apply list_eq. intros i.
  destruct (m !! i) as [row|] eqn:Hi.
  - destruct (lookup_lt_is_Some_2 m' i) as [row' Hi'].
    { rewrite Hlen', <- Hlen. by eapply lookup_lt_Some. }
    rewrite Hi'. f_equal. apply list_eq. intros j.
    specialize (Heq (Z.of_nat i) (Z.of_nat j)). unfold at2 in Heq.
    rewrite bool_decide_eq_true_2 in Heq by lia.
    rewrite !Nat2Z.id in Heq. by rewrite Hi, Hi' in Heq.
  - symmetry. apply lookup_ge_None. apply lookup_ge_None in Hi. lia.
Qed.

(** Exchanging a cell with itself leaves the array as it was. *)
Lemma swap_cells_self ROWS COLS (g g' : Grid) (p : pos) :
  shaped ROWS COLS g → swap_cells g p p = Ok g' → g' = g.
Proof.
  intros Hs Hswap.
  destruct (swap_cells_ok ROWS COLS _ _ _ _ Hswap)
    as (a & b & Ha & Hb & Hother & Hp2 & _ & _ & Hshape).
  apply (matrix_ext ROWS COLS); [auto|done|]. intros x y.
  destruct (decide ((x, y) = p)) as [<-|Hn].
  - simpl in *. congruence.
  - by apply (Hother (x, y)).
Qed.

(** ** Selecting the swap *)

(** An agent label is neither the empty label nor a fixed-feature label. *)
Lemma is_agent_not_fixed c :
  is_agent c = true → c ≠ EMPTY ∧ (c ∉ landUseTypes).
Proof.
  destruct c; intros H; try (by vm_compute in H);
    (split; [done|]); apply (bool_decide_unpack _); by vm_compute.
Qed.

Lemma list_pair_ind {A} (P : list A → Prop) :
  P [] → (∀ a, P [a]) → (∀ a b l, P l → P (a :: b :: l)) → ∀ l, P l.
Proof.
  intros H0 H1 H2.
  assert (∀ l, P l ∧ ∀ a, P (a :: l)) as H; [|intros l; apply H].
  induction l as [|b l [IH IH']]; [by auto|]. split; [apply IH'|]. auto.
Qed.

Section Select.
Variables ROWS COLS : Z.
Variable g : Grid.

(** Whatever [pick_agent] returns holds an agent label. *)
Lemma pick_agent_ok tape p tape' :
  pick_agent ROWS COLS g tape = Ok (p, tape') →
  ∃ c, at2 g p.1 p.2 = Some c ∧ is_agent c = true.
Proof.
  revert p tape'. induction tape as [|r|r1 r2 tape IH] using list_pair_ind;
    intros p tape'; simpl; try done.
  case_bool_decide; [done|]. unfold read2.
  destruct (at2 g (Z.rem r1 ROWS) (Z.rem r2 COLS)) as [c|] eqn:Hc; [|done]. simpl.
  destruct (is_agent c) eqn:Hag; [|by apply IH].
  intros [= <- <-]. eauto.
Qed.

Lemma select_swap_ok tape p1 p2 tape' :
  select_swap ROWS COLS g tape = Ok (p1, p2, tape') →
  (∃ a, at2 g p1.1 p1.2 = Some a ∧ is_agent a = true) ∧
  (∃ b, at2 g p2.1 p2.2 = Some b ∧ is_agent b = true).
Proof.
  unfold select_swap. intros H. inv_bind H. injection H as -> -> ->.
  split; by eapply pick_agent_ok.
Qed.

End Select.

(** ** More order facts on doubles *)

Lemma SFltb_trans x y z :
  SFltb x y = true → SFltb y z = true → SFltb x z = true.
Proof.
  unfold SFltb, SFcompare.
  destruct x as [[]|[]| |[] mx ex], y as [[]|[]| |[] my ey], z as [[]|[]| |[] mz ez];
    simpl; try congruence.
  all: change (Pos.compare_cont Eq ?a ?b) with (Pos.compare a b).
  all: destruct (Z.compare_spec ex ey), (Z.compare_spec ey ez), (Z.compare_spec ex ez);
    try lia; try congruence; subst.
  all: destruct (Pos.compare_spec mx my), (Pos.compare_spec my mz),
         (Pos.compare_spec mx mz); simpl; try lia; try congruence.
Qed.

Lemma ltb_trans (x y z : double) :
  (x <? y)%float = true → (y <? z)%float = true → (x <? z)%float = true.
Proof. rewrite !FloatAxioms.ltb_spec. apply SFltb_trans. Qed.

Lemma not_above_refl a : not_above a a.
Proof. by left. Qed.

Lemma not_above_trans a b c : not_above a b → not_above b c → not_above a c.
Proof.
  intros [->|Hab] [->|Hbc]; try (by left); try (by right).
  right. by eapply ltb_trans.
Qed.

(** ** One turn of the annealing loop *)

Section Annealing.
Variables ROWS COLS : Z.
Variable agentPreferences : gmap CellType (list double).
Variable exp : double → double.
Variable RAND_MAX : Z.
Variable distanceMaps : gmap CellType (matrix double).
Variables cooldown coolingRate : double.

Lemma accept_test_ok delta T tape b tape' :
  accept_test exp RAND_MAX delta T tape = Ok (b, tape') →
  b = true ↔
  (0 <? delta)%float = true ∨
  ∃ r, tape = r :: tape' ∧ (uniform_draw RAND_MAX r <? exp (delta / T))%float = true.
Proof.
  unfold accept_test. destruct (0 <? delta)%float eqn:Hpos.
  - intros [= <- <-]. split; [by left|done].
  - destruct tape as [|r tape]; [done|]. simpl. intros [= <- <-]. split.
    + intros Hb. right. eauto.
    + intros [?|(r' & [= <-] & ?)]; done.
Qed.

(** When the draw is taken: never for an improving candidate, always otherwise. *)
Lemma accept_test_draw delta T tape b tape' :
  accept_test exp RAND_MAX delta T tape = Ok (b, tape') →
  if (0 <? delta)%float then b = true ∧ tape' = tape
  else ∃ r, tape = r :: tape' ∧
            b = (uniform_draw RAND_MAX r <? exp (delta / T))%float.
Proof.
  unfold accept_test. destruct (0 <? delta)%float.
  - by intros [= <- <-].
  - destruct tape as [|r tape]; [done|]. simpl. intros [= <- <-]. by exists r.
Qed.

Lemma propose_ok st tape pr tape' :
  propose ROWS COLS agentPreferences exp RAND_MAX distanceMaps st tape = Ok (pr, tape') →
  ∃ p1 p2 tape2,
    select_swap ROWS COLS (grid st) tape = Ok (p1, p2, tape2) ∧
    swap_cells (grid st) p1 p2 = Ok (newGrid pr) ∧
    calculateScore ROWS COLS agentPreferences (newGrid pr) distanceMaps
      = Ok (newScore pr) ∧
    deltaScore pr = (newScore pr - currentScore st)%float ∧
    accept_test exp RAND_MAX (deltaScore pr) (temperature st) tape2
      = Ok (accepted pr, tape').
Proof.
  unfold propose. intros H. inv_bind H. destruct p as [p1 p2].
  inv_bind H. injection H as <- <-. simpl. eauto 10.
Qed.

Lemma anneal_step_ok st tape st' tape' :
  anneal_step ROWS COLS agentPreferences exp RAND_MAX distanceMaps coolingRate st tape
    = Ok (st', tape') →
  ∃ pr,
    propose ROWS COLS agentPreferences exp RAND_MAX distanceMaps st tape = Ok (pr, tape') ∧
    iteration st < INT_MAX ∧
    st' = Annealer (grid (commit st pr)) (currentScore (commit st pr))
                   (bestGrid (commit st pr)) (bestScore (commit st pr))
                   (temperature st * (1 - coolingRate))%float (iteration st + 1).
Proof.
  unfold anneal_step. intros H. inv_bind H. injection H as <- <-.
  exists p. split; [done|]. unfold cool in E0.
  assert (temperature (commit st p) = temperature st ∧
          iteration (commit st p) = iteration st) as [HT Hi].
  { unfold commit. by repeat case_match. }
  rewrite HT, Hi in E0. case_bool_decide; [|done]. by injection E0 as <-.
Qed.

(** What [commit] leaves in each variable. *)
Lemma commit_grid st pr :
  grid (commit st pr) = (if accepted pr then newGrid pr else grid st) ∧
  currentScore (commit st pr) = (if accepted pr then newScore pr else currentScore st).
Proof. unfold commit. by repeat case_match. Qed.

Lemma commit_best st pr :
  (if accepted pr && (bestScore st <? newScore pr)%float
   then bestGrid (commit st pr) = newGrid pr ∧ bestScore (commit st pr) = newScore pr
   else bestGrid (commit st pr) = bestGrid st ∧ bestScore (commit st pr) = bestScore st).
Proof. unfold commit. by repeat case_match. Qed.

Abbreviation step :=
  (anneal_step ROWS COLS agentPreferences exp RAND_MAX distanceMaps coolingRate).
Abbreviation runs :=
  (iterates ROWS COLS agentPreferences exp RAND_MAX distanceMaps cooldown coolingRate).

(** The cells a turn may change are the two it selected, and both hold
    agent labels; the snapshot is the old one or the new grid. *)
Lemma step_cells st tape st' tape' :
  step st tape = Ok (st', tape') →
  concat (grid st') ≡ₚ concat (grid st) ∧
  (shaped ROWS COLS (grid st) → shaped ROWS COLS (grid st')) ∧
  (∀ x y, at2 (grid st') x y = at2 (grid st) x y ∨
          ∃ a, at2 (grid st) x y = Some a ∧ is_agent a = true) ∧
  (bestGrid st' = bestGrid st ∨ bestGrid st' = grid st').
Proof.
  intros (pr & Hpr & _ & ->)%anneal_step_ok; simpl.
  destruct (propose_ok _ _ _ _ Hpr) as (p1 & p2 & tape2 & Hsel & Hswap & _).
  destruct (select_swap_ok _ _ _ _ _ _ _ Hsel) as [(a & Ha & Haa) (b & Hb & Hbb)].
  destruct (swap_cells_ok ROWS COLS _ _ _ _ Hswap)
    as (a' & b' & Ha' & Hb' & Hother & _ & _ & Hperm & Hshape).
  destruct (commit_grid st pr) as [-> _]. pose proof (commit_best st pr) as Hbest.
  destruct (accepted pr); simpl in Hbest.
  - split_and!; try done.
    + intros x y. destruct (decide ((x, y) = p1)) as [<-|Hn1]; [right; eauto|].
      destruct (decide ((x, y) = p2)) as [<-|Hn2]; [right; eauto|].
      left. by apply (Hother (x, y)).
    + destruct (bestScore st <? newScore pr)%float; destruct Hbest as [-> _]; auto.
  - destruct Hbest as [-> _]. split_and!; auto.
Qed.

(** A property of the state that every turn preserves holds along a run. *)
Lemma runs_invariant (P : annealer → Prop) :
  (∀ st tape st' tape', P st → step st tape = Ok (st', tape') → P st') →
  ∀ n s s', runs n s s' → P s.1 → P s'.1.
Proof.
  intros Hstep. induction 1 as [|n st tape [st' tape'] s'' Hguard Hs Hrun IH]; [done|].
  simpl. intros HP. apply IH. simpl. by eapply Hstep.
Qed.

Lemma anneal_loop_runs fuel st tape st' tape' :
  anneal_loop ROWS COLS agentPreferences exp RAND_MAX fuel distanceMaps
    cooldown coolingRate st tape = Ok (st', tape') →
  ∃ n, (n ≤ fuel)%nat ∧ runs n (st, tape) (st', tape') ∧
       (cooldown <? temperature st')%float = false.
Proof.
  revert st tape. induction fuel as [|fuel IH]; intros st tape; simpl;
    destruct (cooldown <? temperature st)%float eqn:Hguard; try done.
  - intros [= <- <-]. exists 0%nat. split; [done|]. split; [constructor|done].
  - intros H. inv_bind H. destruct (IH _ _ H) as (n & Hn & Hrun & Hcold).
    exists (S n). split; [lia|]. split; [|done]. by econstructor.
  - intros [= <- <-]. exists 0%nat. split; [lia|]. split; [constructor|done].
Qed.

Lemma optimiseGrid_runs fuel g T0 tape g' tape' :
  optimiseGrid ROWS COLS agentPreferences exp RAND_MAX fuel g distanceMaps
    T0 cooldown coolingRate tape = Ok (g', tape') →
  ∃ score n st,
    calculateScore ROWS COLS agentPreferences g distanceMaps = Ok score ∧
    runs n (initial_state g score T0, tape) (st, tape') ∧
    (cooldown <? temperature st)%float = false ∧ g' = bestGrid st.
Proof.
  unfold optimiseGrid. intros H. inv_bind H. injection H as <- <-.
  destruct (anneal_loop_runs _ _ _ _ _ E0) as (n & _ & Hrun & Hcold). eauto 10.
Qed.

(** The temperature follows the cooling sequence, the counter counts. *)
Lemma runs_schedule n s s' :
  runs n s s' →
  temperature s'.1 = Nat.iter n (λ T, T * (1 - coolingRate))%float (temperature s.1) ∧
  iteration s'.1 = iteration s.1 + Z.of_nat n ∧
  ∀ k, (k < n)%nat →
    (cooldown <? Nat.iter k (λ T, T * (1 - coolingRate))%float (temperature s.1))%float
    = true.
Proof.
  set (f := (λ T, T * (1 - coolingRate))%float).
  induction 1 as [|n st tape [st' tape'] s'' Hguard Hs Hrun IH].
  - split; [done|]. split; [simpl; lia|]. intros; lia.
  - apply anneal_step_ok in Hs as (pr & _ & _ & ->). cbn [fst temperature iteration] in *.
    destruct IH as (-> & -> & Hk). change (temperature st * _)%float with (f (temperature st)).
    split; [by rewrite Nat.iter_succ_r|].
    split; [lia|]. intros [|k] Hlt; [done|]. rewrite Nat.iter_succ_r. apply Hk. lia.
Qed.

End Annealing.

(** ** The claims about one turn *)

(** C3, as the code has it. In a turn that completes, the candidate is the
    current grid with the two selected cells exchanged, [newScore] is the
    Scorer's value on it and [deltaScore] is [newScore] minus the current score.
    When [deltaScore > 0] the candidate is accepted and no draw is taken: the
    tape left by the selection is the tape left by the turn. Otherwise one draw
    [(double)rand() / RAND_MAX] is taken from the tape left by the selection,
    and the candidate is accepted exactly when the draw is below
    [exp(deltaScore / temperature)]. The candidate replaces the current grid
    and score exactly when it is accepted. *)
Theorem metropolis_acceptance ROWS COLS agentPreferences exp RAND_MAX distanceMaps
    coolingRate st tape st' tape' :
  anneal_step ROWS COLS agentPreferences exp RAND_MAX distanceMaps coolingRate st tape
    = Ok (st', tape') →
  ∃ pr p1 p2 tape2,
    propose ROWS COLS agentPreferences exp RAND_MAX distanceMaps st tape = Ok (pr, tape') ∧
    select_swap ROWS COLS (grid st) tape = Ok (p1, p2, tape2) ∧
    swap_cells (grid st) p1 p2 = Ok (newGrid pr) ∧
    calculateScore ROWS COLS agentPreferences (newGrid pr) distanceMaps
      = Ok (newScore pr) ∧
    deltaScore pr = (newScore pr - currentScore st)%float ∧
    (if (0 <? deltaScore pr)%float
     then accepted pr = true ∧ tape' = tape2
     else ∃ r, tape2 = r :: tape' ∧
               accepted pr
               = (uniform_draw RAND_MAX r <? exp (deltaScore pr / temperature st))%float) ∧
    (accepted pr = true ↔
       (0 <? deltaScore pr)%float = true ∨
       ∃ r, tape2 = r :: tape' ∧
            (uniform_draw RAND_MAX r <? exp (deltaScore pr / temperature st))%float
            = true) ∧
    (if accepted pr
     then grid st' = newGrid pr ∧ currentScore st' = newScore pr
     else grid st' = grid st ∧ currentScore st' = currentScore st).
Proof.
  intros (pr & Hpr & _ & ->)%anneal_step_ok.
  destruct (propose_ok _ _ _ _ _ _ _ _ _ _ Hpr)
    as (p1 & p2 & tape2 & Hsel & Hswap & Hscore & Hdelta & Hacc).
  exists pr, p1, p2, tape2. split_and!; try done.
  - by eapply accept_test_draw.
  - by eapply accept_test_ok.
  - simpl. destruct (commit_grid st pr) as [-> ->]. by destruct (accepted pr).
Qed.

Lemma sample_step_runs :
  sample_step sample_state sample_tape = Ok (sample_next, [0; 2; 2; 1; 100; 7; 7]).
Proof. vm_compute. reflexivity. Qed.

Lemma improving_step_runs :
  sample_step sample_state improving_tape = Ok (improved_state, [32767]).
Proof. vm_compute. reflexivity. Qed.

(** Two turns from the sample state. On [sample_tape] the cells (0,0) and
    (2,1) are exchanged, the score goes down, the draw 100 is taken and the
    candidate is accepted. On [improving_tape] the cells (1,0) and (1,1) are
    exchanged, the score goes up, and the draw 32767 is left on the tape. *)
Lemma metropolis_acceptance_witness :
  (∃ pr p1 p2 tape2,
    propose 5 5 agentPreferences_src exp_poly 32767 sample_fields
      sample_state sample_tape = Ok (pr, [0; 2; 2; 1; 100; 7; 7]) ∧
    select_swap 5 5 (grid sample_state) sample_tape = Ok (p1, p2, tape2) ∧
    swap_cells (grid sample_state) p1 p2 = Ok (newGrid pr) ∧
    calculateScore 5 5 agentPreferences_src (newGrid pr) sample_fields
      = Ok (newScore pr) ∧
    deltaScore pr = (newScore pr - currentScore sample_state)%float ∧
    (if (0 <? deltaScore pr)%float
     then accepted pr = true ∧ [0; 2; 2; 1; 100; 7; 7] = tape2
     else ∃ r, tape2 = r :: [0; 2; 2; 1; 100; 7; 7] ∧
               accepted pr
               = (uniform_draw 32767 r
                  <? exp_poly (deltaScore pr / temperature sample_state))%float) ∧
    (accepted pr = true ↔
       (0 <? deltaScore pr)%float = true ∨
       ∃ r, tape2 = r :: [0; 2; 2; 1; 100; 7; 7] ∧
            (uniform_draw 32767 r
             <? exp_poly (deltaScore pr / temperature sample_state))%float = true) ∧
    (if accepted pr
     then grid sample_next = newGrid pr ∧ currentScore sample_next = newScore pr
     else grid sample_next = grid sample_state ∧
          currentScore sample_next = currentScore sample_state)) ∧
  (∃ pr p1 p2 tape2,
    propose 5 5 agentPreferences_src exp_poly 32767 sample_fields
      sample_state improving_tape = Ok (pr, [32767]) ∧
    select_swap 5 5 (grid sample_state) improving_tape = Ok (p1, p2, tape2) ∧
    swap_cells (grid sample_state) p1 p2 = Ok (newGrid pr) ∧
    calculateScore 5 5 agentPreferences_src (newGrid pr) sample_fields
      = Ok (newScore pr) ∧
    deltaScore pr = (newScore pr - currentScore sample_state)%float ∧
    (if (0 <? deltaScore pr)%float
     then accepted pr = true ∧ [32767] = tape2
     else ∃ r, tape2 = r :: [32767] ∧
               accepted pr
               = (uniform_draw 32767 r
                  <? exp_poly (deltaScore pr / temperature sample_state))%float) ∧
    (accepted pr = true ↔
       (0 <? deltaScore pr)%float = true ∨
       ∃ r, tape2 = r :: [32767] ∧
            (uniform_draw 32767 r
             <? exp_poly (deltaScore pr / temperature sample_state))%float = true) ∧
    (if accepted pr
     then grid improved_state = newGrid pr ∧ currentScore improved_state = newScore pr
     else grid improved_state = grid sample_state ∧
          currentScore improved_state = currentScore sample_state)).
Proof.
  split.
  - exact (metropolis_acceptance 5 5 agentPreferences_src exp_poly 32767 sample_fields
             0.5 sample_state sample_tape sample_next _ sample_step_runs).
  - exact (metropolis_acceptance 5 5 agentPreferences_src exp_poly 32767 sample_fields
             0.5 sample_state improving_tape improved_state _ improving_step_runs).
Defined.

(** What the two sample turns are: on [sample_tape] a lower score accepted on
    the draw, on [improving_tape] a higher score accepted with the draw left. *)
Lemma sample_turns :
  propose 5 5 agentPreferences_src exp_poly 32767 sample_fields sample_state sample_tape
  = Ok (Proposal (grid sample_next) (currentScore sample_next) (-0.75) true,
        [0; 2; 2; 1; 100; 7; 7]) ∧
  propose 5 5 agentPreferences_src exp_poly 32767 sample_fields sample_state improving_tape
  = Ok (Proposal (grid improved_state) (currentScore improved_state) 0.5 true, [32767]) ∧
  select_swap 5 5 (grid sample_state) improving_tape = Ok ((1, 0), (1, 1), [32767]) ∧
  grid improved_state ≠ grid sample_state.
Proof. split_and!; [vm_compute; reflexivity..|]. vm_compute. discriminate. Qed.

(** The draw is not confined to [0,1): it is 1 when [rand()] returns
    [RAND_MAX], and a candidate with [deltaScore = 0] is then rejected although
    [exp(0) = 1]. *)
Lemma draw_reaches_one :
  uniform_draw 2147483647 2147483647 = 1%float ∧
  (uniform_draw 2147483647 2147483647 <? 1)%float = false ∧
  exp_poly (0 / 1000) = 1%float ∧
  accept_test exp_poly 2147483647 0 1000 [2147483647] = Ok (false, []).
Proof. repeat split; vm_compute; reflexivity. Qed.

(** C4, as the code has it. In a turn that completes, each of the two selected
    positions holds an agent label on the current grid (so neither the empty
    label nor a fixed-feature label); nothing keeps the two positions apart. *)
Theorem swap_positions_hold_agents ROWS COLS agentPreferences exp RAND_MAX distanceMaps
    coolingRate st tape st' tape' :
  anneal_step ROWS COLS agentPreferences exp RAND_MAX distanceMaps coolingRate st tape
    = Ok (st', tape') →
  ∃ p1 p2 tape2 a b,
    select_swap ROWS COLS (grid st) tape = Ok (p1, p2, tape2) ∧
    at2 (grid st) p1.1 p1.2 = Some a ∧ is_agent a = true ∧
    at2 (grid st) p2.1 p2.2 = Some b ∧ is_agent b = true ∧
    a ≠ EMPTY ∧ (a ∉ landUseTypes) ∧ b ≠ EMPTY ∧ (b ∉ landUseTypes).
Proof.
  intros (pr & Hpr & _)%anneal_step_ok.
  destruct (propose_ok _ _ _ _ _ _ _ _ _ _ Hpr) as (p1 & p2 & tape2 & Hsel & _).
  destruct (select_swap_ok _ _ _ _ _ _ _ Hsel) as [(a & Ha & Haa) (b & Hb & Hbb)].
  exists p1, p2, tape2, a, b.
  destruct (is_agent_not_fixed a Haa), (is_agent_not_fixed b Hbb). by split_and!.
Qed.

Lemma swap_positions_hold_agents_witness :
  ∃ p1 p2 tape2 a b,
    select_swap 5 5 (grid sample_state) sample_tape = Ok (p1, p2, tape2) ∧
    at2 (grid sample_state) p1.1 p1.2 = Some a ∧ is_agent a = true ∧
    at2 (grid sample_state) p2.1 p2.2 = Some b ∧ is_agent b = true ∧
    a ≠ EMPTY ∧ (a ∉ landUseTypes) ∧ b ≠ EMPTY ∧ (b ∉ landUseTypes).
Proof.
  exact (swap_positions_hold_agents 5 5 agentPreferences_src exp_poly 32767
           sample_fields 0.5 sample_state sample_tape sample_next _ sample_step_runs).
Defined.

(** The same position can be selected twice. *)
Lemma same_position_selected_twice :
  select_swap 5 5 grid5 [0; 0; 0; 0] = Ok ((0, 0), (0, 0), []).
Proof. vm_compute. reflexivity. Qed.

(** C10. When the acceptance test rejects the candidate, the turn leaves the
    working grid, the current score, the snapshot and the best score as they
    were; the temperature is cooled and the counter goes up by one. *)
Theorem rejected_turn_frame ROWS COLS agentPreferences exp RAND_MAX distanceMaps
    coolingRate st tape pr tape' :
  propose ROWS COLS agentPreferences exp RAND_MAX distanceMaps st tape = Ok (pr, tape') →
  accepted pr = false →
  iteration st < INT_MAX →
  anneal_step ROWS COLS agentPreferences exp RAND_MAX distanceMaps coolingRate st tape
  = Ok (Annealer (grid st) (currentScore st) (bestGrid st) (bestScore st)
                 (temperature st * (1 - coolingRate))%float (iteration st + 1),
        tape').
Proof.
  intros Hpr Hrej Hit. unfold anneal_step. rewrite Hpr; cbn [mbind outcome_bind].
  unfold commit. rewrite Hrej. unfold cool. by rewrite bool_decide_eq_true_2.
Qed.

Lemma self_swap_rejected :
  propose 5 5 agentPreferences_src exp_poly 32767 sample_fields
    sample_state self_swap_tape = Ok (self_swap_proposal, []) ∧
  accepted self_swap_proposal = false.
Proof. split; vm_compute; reflexivity. Qed.

(** The candidate of the turn on [worsening_tape]: the grid with the cells
    (0,0) and (0,1) exchanged, which differs from the working grid and scores
    0.25 less; the draw 32767 gives 1 and the candidate is rejected. *)
Lemma worsening_rejected :
  propose 5 5 agentPreferences_src exp_poly 32767 sample_fields
    sample_state worsening_tape = Ok (worsening_proposal, []) ∧
  accepted worsening_proposal = false ∧
  swap_cells (grid sample_state) (0, 0) (0, 1) = Ok (newGrid worsening_proposal) ∧
  newGrid worsening_proposal ≠ grid sample_state ∧
  newScore worsening_proposal ≠ currentScore sample_state ∧
  deltaScore worsening_proposal = (-0.25)%float.
Proof.
  split; [vm_compute; reflexivity|].
  split; [vm_compute; reflexivity|].
  split; [vm_compute; reflexivity|].
  split; [vm_compute; discriminate|].
  split; [vm_compute; discriminate|].
  vm_compute; reflexivity.
Qed.

(** A rejected candidate that differs from the working grid: the turn leaves
    the grid, the score, the snapshot and the best score of the sample state,
    halves the temperature and counts one turn. *)
Lemma rejected_turn_frame_witness :
  (propose 5 5 agentPreferences_src exp_poly 32767 sample_fields
     sample_state worsening_tape = Ok (worsening_proposal, []) ∧
   accepted worsening_proposal = false ∧
   newGrid worsening_proposal ≠ grid sample_state ∧
   newScore worsening_proposal ≠ currentScore sample_state) ∧
  anneal_step 5 5 agentPreferences_src exp_poly 32767 sample_fields 0.5
    sample_state worsening_tape
  = Ok (Annealer (grid sample_state) (currentScore sample_state)
                 (bestGrid sample_state) (bestScore sample_state)
                 (temperature sample_state * (1 - 0.5))%float
                 (iteration sample_state + 1),
        []).
Proof.
  destruct worsening_rejected as (Hpr & Hrej & _ & Hgrid & Hscore & _).
  split; [split_and!; assumption|].
  apply (rejected_turn_frame 5 5 agentPreferences_src exp_poly 32767 sample_fields
           0.5 sample_state worsening_tape worsening_proposal [] Hpr Hrej).
  vm_compute. reflexivity.
Defined.

(** ** The claims about the whole run *)

Lemma sample_run_returns :
  optimiseGrid 5 5 agentPreferences_src exp_poly 32767 10 grid5 sample_fields
    4 1 0.5 sample_tape = Ok (sample_final, [100; 7; 7]).
Proof. vm_compute. reflexivity. Qed.

Section Conservation.
Variables ROWS COLS : Z.
Variable agentPreferences : gmap CellType (list double).
Variable exp : double → double.
Variable RAND_MAX : Z.
Variable distanceMaps : gmap CellType (matrix double).
Variables cooldown coolingRate : double.
Variable g : Grid.

Lemma agents_perm (g1 g2 : Grid) : concat g1 ≡ₚ concat g2 → agents g1 ≡ₚ agents g2.
Proof. unfold agents. by intros ->. Qed.

Lemma runs_agents n score T0 tape s' :
  iterates ROWS COLS agentPreferences exp RAND_MAX distanceMaps cooldown coolingRate
    n (initial_state g score T0, tape) s' →
  agents (grid s'.1) ≡ₚ agents g ∧ agents (bestGrid s'.1) ≡ₚ agents g.
Proof.
  intros Hrun.
  refine (runs_invariant ROWS COLS agentPreferences exp RAND_MAX distanceMaps
            cooldown coolingRate
            (λ st, agents (grid st) ≡ₚ agents g ∧ agents (bestGrid st) ≡ₚ agents g)
            _ n _ _ Hrun _); [|done].
  intros st tp st' tp' [Hg Hb] Hstep.
  destruct (step_cells _ _ _ _ _ _ _ _ _ _ _ Hstep) as (Hperm & _ & _ & Hbest).
  assert (agents (grid st') ≡ₚ agents g) as Hg'.
  { by rewrite (agents_perm _ _ Hperm). }
  split; [done|]. by destruct Hbest as [->| ->].
Qed.

(** Cells that do not hold an agent label at the start never change. *)
Lemma runs_fixed n score T0 tape s' x y c :
  iterates ROWS COLS agentPreferences exp RAND_MAX distanceMaps cooldown coolingRate
    n (initial_state g score T0, tape) s' →
  at2 g x y = Some c → is_agent c = false →
  at2 (grid s'.1) x y = Some c ∧ at2 (bestGrid s'.1) x y = Some c.
Proof.
  intros Hrun Hc Hna.
  refine (runs_invariant ROWS COLS agentPreferences exp RAND_MAX distanceMaps
            cooldown coolingRate
            (λ st, at2 (grid st) x y = Some c ∧ at2 (bestGrid st) x y = Some c)
            _ n _ _ Hrun _); [|done].
  intros st tp st' tp' [Hg Hb] Hstep.
  destruct (step_cells _ _ _ _ _ _ _ _ _ _ _ Hstep) as (_ & _ & Hcells & Hbest).
  assert (at2 (grid st') x y = Some c) as Hg'.
  { destruct (Hcells x y) as [->|(a & Ha & Haa)]; [done|]. congruence. }
  split; [done|]. by destruct Hbest as [->| ->].
Qed.

End Conservation.

(** C5. Along every run of the loop from the grid [g], the agent labels on
    the working grid (and on the snapshot) are a permutation of those on [g];
    so are those on the grid that [optimiseGrid] leaves in place. *)
Theorem agents_conserved ROWS COLS agentPreferences exp RAND_MAX distanceMaps
    cooldown coolingRate g T0 :
  (∀ score n tape st tape',
     iterates ROWS COLS agentPreferences exp RAND_MAX distanceMaps cooldown coolingRate
       n (initial_state g score T0, tape) (st, tape') →
     agents (grid st) ≡ₚ agents g ∧ agents (bestGrid st) ≡ₚ agents g) ∧
  (∀ fuel tape g' tape',
     optimiseGrid ROWS COLS agentPreferences exp RAND_MAX fuel g distanceMaps
       T0 cooldown coolingRate tape = Ok (g', tape') →
     agents g' ≡ₚ agents g).
Proof.
  split.
  - intros score n tape st tape' Hrun.
    apply (runs_agents _ _ _ _ _ _ _ _ _ _ _ _ _ _ Hrun).
  - intros fuel tape g' tape' (score & n & st & _ & Hrun & _ & ->)%optimiseGrid_runs.
    apply (runs_agents _ _ _ _ _ _ _ _ _ _ _ _ _ _ Hrun).
Qed.

Lemma agents_conserved_witness : agents sample_final ≡ₚ agents grid5.
Proof.
  exact (proj2 (agents_conserved 5 5 agentPreferences_src exp_poly 32767 sample_fields
                  1 0.5 grid5 4) 10%nat sample_tape sample_final [100; 7; 7]
           sample_run_returns).
Defined.

(** C6. Along every run from [g], a cell that holds the empty label or a
    fixed-feature label on [g] holds it on the working grid and on the
    snapshot; a turn changes a cell only if the cell held an agent label; and
    the grid [optimiseGrid] leaves in place agrees with [g] on such cells. *)
Theorem fixed_cells_unchanged ROWS COLS agentPreferences exp RAND_MAX distanceMaps
    cooldown coolingRate g T0 :
  (∀ score n tape st tape' x y c,
     iterates ROWS COLS agentPreferences exp RAND_MAX distanceMaps cooldown coolingRate
       n (initial_state g score T0, tape) (st, tape') →
     at2 g x y = Some c → is_agent c = false →
     at2 (grid st) x y = Some c ∧ at2 (bestGrid st) x y = Some c) ∧
  (∀ st tape st' tape' x y,
     anneal_step ROWS COLS agentPreferences exp RAND_MAX distanceMaps coolingRate st tape
       = Ok (st', tape') →
     at2 (grid st') x y ≠ at2 (grid st) x y →
     ∃ a, at2 (grid st) x y = Some a ∧ is_agent a = true) ∧
  (∀ fuel tape g' tape' x y c,
     optimiseGrid ROWS COLS agentPreferences exp RAND_MAX fuel g distanceMaps
       T0 cooldown coolingRate tape = Ok (g', tape') →
     at2 g x y = Some c → is_agent c = false → at2 g' x y = Some c).
Proof.
  split_and!.
  - intros score n tape st tape' x y c Hrun.
    apply (runs_fixed _ _ _ _ _ _ _ _ _ _ _ _ _ _ _ _ _ Hrun).
  - intros st tape st' tape' x y Hstep Hne.
    destruct (step_cells _ _ _ _ _ _ _ _ _ _ _ Hstep) as (_ & _ & Hcells & _).
    by destruct (Hcells x y).
  - intros fuel tape g' tape' x y c
      (score & n & st & _ & Hrun & _ & ->)%optimiseGrid_runs Hc Hna.
    apply (runs_fixed _ _ _ _ _ _ _ _ _ _ _ _ _ _ _ _ _ Hrun Hc Hna).
Qed.

Lemma fixed_cells_unchanged_witness :
  at2 sample_final 2 2 = Some TRANSPORT ∧ at2 sample_final 2 0 = Some EMPTY.
Proof.
  pose proof (proj2 (proj2 (fixed_cells_unchanged 5 5 agentPreferences_src exp_poly
                              32767 sample_fields 1 0.5 grid5 4))
                10%nat sample_tape sample_final [100; 7; 7]) as H.
  split; eapply H; try apply sample_run_returns; reflexivity.
Defined.

(** C7. Along every run the best score never goes down: between any state
    and any later one it is the same or higher. A turn that completes has made
    one candidate, and the snapshot and the best score it leaves are the
    candidate's exactly when the candidate is accepted and its score is above
    the best score so far; otherwise they are the ones it found. A turn whose
    candidate is made completes with these values as long as the turn counter
    is below [INT_MAX]. *)
Theorem best_score_monotone ROWS COLS agentPreferences exp RAND_MAX distanceMaps
    cooldown coolingRate :
  (∀ n s s',
     iterates ROWS COLS agentPreferences exp RAND_MAX distanceMaps cooldown coolingRate
       n s s' →
     not_above (bestScore s.1) (bestScore s'.1)) ∧
  (∀ st tape st' tape',
     anneal_step ROWS COLS agentPreferences exp RAND_MAX distanceMaps coolingRate st tape
       = Ok (st', tape') →
     ∃ pr,
       propose ROWS COLS agentPreferences exp RAND_MAX distanceMaps st tape
         = Ok (pr, tape') ∧
       if accepted pr && (bestScore st <? newScore pr)%float
       then bestGrid st' = newGrid pr ∧ bestScore st' = newScore pr ∧
            currentScore st' = newScore pr
       else bestGrid st' = bestGrid st ∧ bestScore st' = bestScore st) ∧
  (∀ st tape pr tape',
     propose ROWS COLS agentPreferences exp RAND_MAX distanceMaps st tape
       = Ok (pr, tape') →
     iteration st < INT_MAX →
     ∃ st',
       anneal_step ROWS COLS agentPreferences exp RAND_MAX distanceMaps coolingRate st tape
         = Ok (st', tape') ∧
       if accepted pr && (bestScore st <? newScore pr)%float
       then bestGrid st' = newGrid pr ∧ bestScore st' = newScore pr ∧
            currentScore st' = newScore pr
       else bestGrid st' = bestGrid st ∧ bestScore st' = bestScore st).
Proof.
  assert (∀ st pr,
            if accepted pr && (bestScore st <? newScore pr)%float
            then bestGrid (commit st pr) = newGrid pr ∧
                 bestScore (commit st pr) = newScore pr ∧
                 currentScore (commit st pr) = newScore pr
            else bestGrid (commit st pr) = bestGrid st ∧
                 bestScore (commit st pr) = bestScore st) as Hcommit.
  { intros st pr. pose proof (commit_best st pr) as Hbest.
    destruct (commit_grid st pr) as [_ Hcur].
    destruct (accepted pr); simpl in *; [|done].
    destruct (bestScore st <? newScore pr)%float; by destruct Hbest. }
  split_and!.
  - induction 1 as [|n st tape [st' tape'] s'' Hguard Hs Hrun IH];
      [apply not_above_refl|].
    eapply not_above_trans; [|exact IH]. simpl.
    apply anneal_step_ok in Hs as (pr & _ & _ & ->). simpl.
    pose proof (commit_best st pr) as Hbest.
    destruct (accepted pr); simpl in Hbest; [|destruct Hbest as [_ ->]; by left].
    destruct (bestScore st <? newScore pr)%float eqn:Hlt; destruct Hbest as [_ ->].
    + by right.
    + by left.
  - intros st tape st' tape' (pr & Hpr & _ & ->)%anneal_step_ok.
    exists pr. split; [done|]. simpl. apply Hcommit.
  - intros st tape pr tape' Hpr Hit. unfold anneal_step.
    rewrite Hpr; cbn [mbind outcome_bind]. unfold cool.
    assert (iteration (commit st pr) = iteration st) as ->.
    { unfold commit. by repeat case_match. }
    rewrite bool_decide_eq_true_2 by done. cbn [mbind outcome_bind].
    eexists. split; [done|]. simpl. apply Hcommit.
Qed.

(** The turn on [improving_tape] raises the best score: the candidate, the
    grid with the cells (1,0) and (1,1) exchanged, is accepted and scores 0.5
    above the best score so far, so the snapshot and the best score are
    replaced by the candidate's. *)
Lemma best_score_monotone_witness :
  not_above (bestScore sample_state) (bestScore improved_state) ∧
  (bestScore sample_state <? bestScore improved_state)%float = true ∧
  bestGrid improved_state ≠ bestGrid sample_state ∧
  (∃ pr,
     propose 5 5 agentPreferences_src exp_poly 32767 sample_fields
       sample_state improving_tape = Ok (pr, [32767]) ∧
     if accepted pr && (bestScore sample_state <? newScore pr)%float
     then bestGrid improved_state = newGrid pr ∧
          bestScore improved_state = newScore pr ∧
          currentScore improved_state = newScore pr
     else bestGrid improved_state = bestGrid sample_state ∧
          bestScore improved_state = bestScore sample_state) ∧
  (∃ st',
     anneal_step 5 5 agentPreferences_src exp_poly 32767 sample_fields 0.5
       sample_state worsening_tape = Ok (st', []) ∧
     if accepted worsening_proposal
        && (bestScore sample_state <? newScore worsening_proposal)%float
     then bestGrid st' = newGrid worsening_proposal ∧
          bestScore st' = newScore worsening_proposal ∧
          currentScore st' = newScore worsening_proposal
     else bestGrid st' = bestGrid sample_state ∧
          bestScore st' = bestScore sample_state).
Proof.
  destruct (best_score_monotone 5 5 agentPreferences_src exp_poly 32767
              sample_fields 1 0.5) as (Hmono & Hturn & Hmade).
  split_and!.
  - apply (Hmono 1%nat (sample_state, improving_tape) (improved_state, [32767])).
    eapply iterates_S; [|apply improving_step_runs|apply iterates_O].
    vm_compute. reflexivity.
  - vm_compute. reflexivity.
  - vm_compute. discriminate.
  - exact (Hturn sample_state improving_tape improved_state [32767]
             improving_step_runs).
  - apply (Hmade sample_state worsening_tape worsening_proposal []).
    + apply (proj1 worsening_rejected).
    + vm_compute. reflexivity.
Defined.

(** ** Fewer than two agent cells *)

Section FewAgents.
Variables ROWS COLS : Z.
Variable agentPreferences : gmap CellType (list double).
Variable exp : double → double.
Variable RAND_MAX : Z.
Variable distanceMaps : gmap CellType (matrix double).
Variable g : Grid.
Hypothesis g_shaped : shaped ROWS COLS g.
Hypothesis no_agent : ∀ x y c, at2 g x y = Some c → is_agent c = false.

Lemma pick_agent_starves tape :
  0 < ROWS → 0 < COLS → Forall (λ r, 0 ≤ r) tape →
  pick_agent ROWS COLS g tape = Starved.
Proof.
  intros HR HC. induction tape as [|r|r1 r2 tape IH] using list_pair_ind;
    intros Htape; simpl; try done.
  rewrite bool_decide_eq_false_2 by lia.
  assert (0 ≤ r1 ∧ 0 ≤ r2 ∧ Forall (λ r, 0 ≤ r) tape) as (H1 & H2 & Ht).
  { inversion Htape as [|? ? ? Ht]; subst. by inversion Ht; subst. }
  assert (in_grid ROWS COLS (Z.rem r1 ROWS, Z.rem r2 COLS)) as Hin.
  { pose proof (Z.rem_bound_pos r1 ROWS). pose proof (Z.rem_bound_pos r2 COLS).
    unfold in_grid; simpl. lia. }
  destruct (at2_shaped ROWS COLS g _ _ g_shaped Hin) as [c Hc].
  unfold read2. rewrite Hc; simpl. rewrite (no_agent _ _ _ Hc). by apply IH.
Qed.

Lemma calculateScore_no_agent :
  calculateScore ROWS COLS agentPreferences g distanceMaps = Ok 0%float.
Proof.
  unfold calculateScore.
  rewrite (for_each_foldl (λ s _, s)).
  - by induction (seqZ 0 ROWS).
  - intros i s Hi%elem_of_seqZ. rewrite (for_each_foldl (λ s _, s)).
    + by induction (seqZ 0 COLS).
    + intros j s' Hj%elem_of_seqZ. unfold score_cell.
      assert (in_grid ROWS COLS (i, j)) as Hin by (unfold in_grid; simpl; lia).
      destruct (at2_shaped ROWS COLS g _ _ g_shaped Hin) as [c Hc].
      unfold read2. rewrite Hc; simpl. by rewrite (no_agent _ _ _ Hc).
Qed.

Lemma optimiseGrid_no_agent fuel T0 Tmin r tape :
  0 < ROWS → 0 < COLS → Forall (λ r, 0 ≤ r) tape →
  (Tmin <? T0)%float = true →
  optimiseGrid ROWS COLS agentPreferences exp RAND_MAX fuel g distanceMaps
    T0 Tmin r tape
  = match fuel with O => OutOfFuel | S _ => Starved end.
Proof.
  intros HR HC Htape Hguard. unfold optimiseGrid.
  rewrite calculateScore_no_agent; cbn [mbind outcome_bind].
  destruct fuel as [|fuel]; simpl; rewrite Hguard; [done|].
  unfold anneal_step, propose, select_swap.
  by rewrite pick_agent_starves.
Qed.

End FewAgents.

(** C9, as the code has it. Nothing checks the number of agent cells. On a grid with
    no agent cell the selection never returns a position, and on well-formed
    input [optimiseGrid] neither returns nor reports a condition: it asks for
    draws until the tape (or the loop bound) is used up. On a grid with one
    agent cell every selection that returns gives that cell twice; the turn
    exchanges the cell with itself, and whenever [optimiseGrid] returns, what
    it returns is the grid it was given. *)
Theorem few_agents_not_detected ROWS COLS agentPreferences exp RAND_MAX distanceMaps g :
  ((∀ x y c, at2 g x y = Some c → is_agent c = false) →
     (∀ tape res, select_swap ROWS COLS g tape ≠ Ok res) ∧
     (shaped ROWS COLS g → 0 < ROWS → 0 < COLS →
      ∀ fuel T0 Tmin r tape,
        Forall (λ r, 0 ≤ r) tape → (Tmin <? T0)%float = true →
        optimiseGrid ROWS COLS agentPreferences exp RAND_MAX fuel g distanceMaps
          T0 Tmin r tape
        = match fuel with O => OutOfFuel | S _ => Starved end)) ∧
  (∀ p, (∀ x y c, at2 g x y = Some c → is_agent c = true → (x, y) = p) →
     ∀ tape p1 p2 tape',
       select_swap ROWS COLS g tape = Ok (p1, p2, tape') → p1 = p ∧ p2 = p) ∧
  (∀ p, (∀ x y c, at2 g x y = Some c → is_agent c = true → (x, y) = p) →
     shaped ROWS COLS g →
     (∀ r st tape st' tape',
        grid st = g →
        anneal_step ROWS COLS agentPreferences exp RAND_MAX distanceMaps r st tape
          = Ok (st', tape') →
        swap_cells g p p = Ok g ∧ grid st' = g) ∧
     (∀ fuel T0 Tmin r tape g' tape',
        optimiseGrid ROWS COLS agentPreferences exp RAND_MAX fuel g distanceMaps
          T0 Tmin r tape = Ok (g', tape') →
        g' = g)).
Proof.
  assert (∀ p, (∀ x y c, at2 g x y = Some c → is_agent c = true → (x, y) = p) →
            ∀ tape p1 p2 tape',
              select_swap ROWS COLS g tape = Ok (p1, p2, tape') → p1 = p ∧ p2 = p)
    as Htwice.
  { intros p Hone tape [x1 y1] [x2 y2] tape'
      [(a & Ha & Haa) (b & Hb & Hbb)]%select_swap_ok.
    split; eapply Hone; eauto. }
  assert (∀ p, (∀ x y c, at2 g x y = Some c → is_agent c = true → (x, y) = p) →
            shaped ROWS COLS g →
            ∀ r st tape st' tape',
              grid st = g →
              anneal_step ROWS COLS agentPreferences exp RAND_MAX distanceMaps r st tape
                = Ok (st', tape') →
              swap_cells g p p = Ok g ∧ grid st' = g ∧
              (bestGrid st = g → bestGrid st' = g)) as Hturn.
  { intros p Hone Hg r st tape st' tape' Hgrid (pr & Hpr & _ & ->)%anneal_step_ok.
    destruct (propose_ok _ _ _ _ _ _ _ _ _ _ Hpr)
      as (p1 & p2 & tape2 & Hsel & Hswap & _).
    rewrite Hgrid in Hsel, Hswap.
    destruct (Htwice p Hone _ _ _ _ Hsel) as [-> ->].
    pose proof (swap_cells_self ROWS COLS _ _ _ Hg Hswap) as Hnew.
    rewrite Hnew in Hswap. split; [done|]. simpl.
    destruct (commit_grid st pr) as [-> _]. pose proof (commit_best st pr) as Hbest.
    destruct (accepted pr); simpl in Hbest.
    - split; [done|]. intros Hb.
      destruct (bestScore st <? newScore pr)%float; destruct Hbest as [-> _]; congruence.
    - destruct Hbest as [-> _]. done. }
  split_and!.
  - intros Hnone. split.
    + intros tape [[p1 p2] tape'] [(a & Ha & Haa) _]%select_swap_ok.
      rewrite (Hnone _ _ _ Ha) in Haa. done.
    + intros Hg HR HC fuel T0 Tmin r tape Htape Hguard.
      by apply optimiseGrid_no_agent.
  - exact Htwice.
  - intros p Hone Hg. split.
    + intros r st tape st' tape' Hgrid Hstep.
      destruct (Hturn p Hone Hg r st tape st' tape' Hgrid Hstep) as (? & ? & _). done.
    + intros fuel T0 Tmin r tape g' tape'
        (score & n & st & _ & Hrun & _ & ->)%optimiseGrid_runs.
      refine (proj2 (runs_invariant ROWS COLS agentPreferences exp RAND_MAX distanceMaps
                       Tmin r (λ st, grid st = g ∧ bestGrid st = g) _ n _ _ Hrun _));
        [|done].
      intros st0 tp st1 tp' [Hgrid Hbest] Hstep.
      destruct (Hturn p Hone Hg r st0 tp st1 tp' Hgrid Hstep) as (_ & ? & Hb). auto.
Qed.

(** With one agent cell and draws that never hit it, the selection uses up
    the tape. *)
Lemma one_agent_run_starves :
  optimiseGrid 5 5 agentPreferences_src exp_poly 32767 10 grid_one_agent
    (fields_of 5 5 grid_one_agent) 4 1 0.5 (replicate 40 1)
  = Starved.
Proof. vm_compute. reflexivity. Qed.

(** On [grid_no_agent] the run uses up its draws. On [grid_one_agent], whose
    agent cell is (0,0), every selection that returns gives (0,0) twice and
    whatever a run returns is [grid_one_agent]; a run whose draws never hit
    (0,0) uses up its draws. *)
Lemma few_agents_not_detected_witness :
  optimiseGrid 5 5 agentPreferences_src exp_poly 32767 10 grid_no_agent
    (fields_of 5 5 grid_no_agent) 4 1 0.5 [0; 0; 0; 0; 5; 0; 0; 0; 0; 5; 9]
  = Starved ∧
  (∀ tape p1 p2 tape',
     select_swap 5 5 grid_one_agent tape = Ok (p1, p2, tape') →
     p1 = (0, 0) ∧ p2 = (0, 0)) ∧
  (∀ fuel T0 Tmin r tape g' tape',
     optimiseGrid 5 5 agentPreferences_src exp_poly 32767 fuel grid_one_agent
       (fields_of 5 5 grid_one_agent) T0 Tmin r tape = Ok (g', tape') →
     g' = grid_one_agent) ∧
  optimiseGrid 5 5 agentPreferences_src exp_poly 32767 10 grid_one_agent
    (fields_of 5 5 grid_one_agent) 4 1 0.5 (replicate 40 1)
  = Starved.
Proof.
  assert (∀ (g : Grid) (P : Z → Z → CellType → Prop),
            (∀ i row j c, g !! i = Some row → row !! j = Some c →
                          P (Z.of_nat i) (Z.of_nat j) c) →
            ∀ x y c, at2 g x y = Some c → P x y c) as Hcells.
  { intros g P H x y c (Hx & Hy & row & Hrow & Hc)%at2_Some.
    specialize (H _ _ _ _ Hrow Hc). by rewrite !Z2Nat.id in H by lia. }
  assert (∀ x y c, at2 grid_one_agent x y = Some c → is_agent c = true → (x, y) = (0, 0))
    as Hone.
  { apply (Hcells grid_one_agent (λ x y c, is_agent c = true → (x, y) = (0, 0))).
    intros i row j c Hrow Hc.
    do 5 (destruct i as [|i]; [injection Hrow as <-;
            do 5 (destruct j as [|j]; [by injection Hc as <-|]); done|]).
    done. }
  assert (shaped 5 5 grid_one_agent) as Hshape.
  { apply shaped_check_sound. vm_compute. reflexivity. }
  split_and!.
  - apply (proj1 (few_agents_not_detected 5 5 agentPreferences_src exp_poly 32767
                    (fields_of 5 5 grid_no_agent) grid_no_agent)).
    + intros x y c (_ & _ & row & Hrow & Hc)%at2_Some.
      apply list_elem_of_lookup_2 in Hrow, Hc.
      repeat (apply elem_of_cons in Hrow as [->|Hrow]);
        [..|by apply elem_of_nil in Hrow];
        repeat (apply elem_of_cons in Hc as [->|Hc]); try done;
        by apply elem_of_nil in Hc.
    + apply shaped_check_sound. vm_compute. reflexivity.
    + lia.
    + lia.
    + repeat constructor; lia.
    + vm_compute. reflexivity.
  - exact (proj1 (proj2 (few_agents_not_detected 5 5 agentPreferences_src exp_poly 32767
                           (fields_of 5 5 grid_one_agent) grid_one_agent))
             (0, 0) Hone).
  - exact (proj2 (proj2 (proj2 (few_agents_not_detected 5 5 agentPreferences_src
                                  exp_poly 32767 (fields_of 5 5 grid_one_agent)
                                  grid_one_agent))
                    (0, 0) Hone Hshape)).
  - exact one_agent_run_starves.
Defined.

(** With one agent cell the optimizer runs to the end and returns. *)
Lemma one_agent_run_returns :
  optimiseGrid 5 5 agentPreferences_src exp_poly 32767 10 grid_one_agent
    (fields_of 5 5 grid_one_agent) 4 1 0.5 [0; 0; 0; 0; 5; 0; 0; 0; 0; 5; 9]
  = Ok (grid_one_agent, [9]).
Proof. vm_compute. reflexivity. Qed.

(** ** Termination of the loop *)

Lemma first_cold_check_sound T0 Tmin r n :
  first_cold_check T0 Tmin r n = true → first_cold T0 Tmin r n.
Proof.
  unfold first_cold_check. intros [Hn Hk]%andb_prop. split.
  - by apply negb_true_iff.
  - intros k Hlt. rewrite forallb_forall in Hk. apply Hk, in_seq. lia.
Qed.

Lemma at2_elem_of_concat {A} (m : matrix A) x y v :
  at2 m x y = Some v → v ∈ concat m.
Proof.
  intros (_ & _ & row & Hrow & Hv)%at2_Some.
  apply list_elem_of_In, in_concat. exists row.
  split; apply list_elem_of_In; by eapply list_elem_of_lookup_2.
Qed.

Lemma elem_of_concat_at2 {A} (m : matrix A) v :
  v ∈ concat m → ∃ x y, at2 m x y = Some v.
Proof.
  intros Hv. apply list_elem_of_In, in_concat in Hv as (row & Hrow & Hv).
  apply list_elem_of_In, list_elem_of_lookup_1 in Hrow as [i Hrow].
  apply list_elem_of_In, list_elem_of_lookup_1 in Hv as [j Hv].
  exists (Z.of_nat i), (Z.of_nat j). apply at2_Some.
  split; [lia|]. split; [lia|]. exists row. by rewrite !Nat2Z.id.
Qed.

Section Progress.
Variables ROWS COLS : Z.
Variable agentPreferences : gmap CellType (list double).
Variable exp : double → double.
Variable RAND_MAX : Z.
Variable distanceMaps : gmap CellType (matrix double).
Variables cooldown coolingRate : double.
Hypothesis rows_pos : 0 < ROWS.
Hypothesis cols_pos : 0 < COLS.
Hypothesis fields_ok : distance_fields ROWS COLS distanceMaps.

Lemma weights_aligned_perm (g g' : Grid) :
  shaped ROWS COLS g → concat g' ≡ₚ concat g →
  weights_aligned ROWS COLS agentPreferences g →
  weights_aligned ROWS COLS agentPreferences g'.
Proof.
  intros Hg Hperm Hw [x y] Hin Hag. unfold label_at in *; cbn [fst snd] in *.
  destruct (at2 g' x y) as [c|] eqn:Hc; cbn [default] in *; [|done].
  apply at2_elem_of_concat in Hc. rewrite Hperm in Hc.
  apply elem_of_concat_at2 in Hc as (x0 & y0 & Hc0).
  specialize (Hw (x0, y0) (at2_in_grid _ _ _ _ _ _ Hg Hc0)).
  unfold label_at in Hw; cbn [fst snd] in Hw. rewrite Hc0 in Hw. by apply Hw.
Qed.

(** [pick_agent] returns a position of the grid, or the tape runs out. *)
Lemma pick_agent_progress g tape :
  shaped ROWS COLS g → Forall (λ r, 0 ≤ r) tape →
  (∃ p tape', pick_agent ROWS COLS g tape = Ok (p, tape') ∧
              in_grid ROWS COLS p ∧ Forall (λ r, 0 ≤ r) tape') ∨
  pick_agent ROWS COLS g tape = Starved.
Proof.
  intros Hg. induction tape as [|r|r1 r2 tape IH] using list_pair_ind;
    intros Htape; simpl; try (by right).
  rewrite bool_decide_eq_false_2 by lia.
  assert (0 ≤ r1 ∧ 0 ≤ r2 ∧ Forall (λ r, 0 ≤ r) tape) as (H1 & H2 & Ht).
  { inversion Htape as [|? ? ? Ht]; subst. by inversion Ht; subst. }
  assert (in_grid ROWS COLS (Z.rem r1 ROWS, Z.rem r2 COLS)) as Hin.
  { pose proof (Z.rem_bound_pos r1 ROWS). pose proof (Z.rem_bound_pos r2 COLS).
    unfold in_grid; simpl. lia. }
  destruct (at2_shaped ROWS COLS g _ _ Hg Hin) as [c Hc].
  unfold read2. rewrite Hc; simpl. destruct (is_agent c); [|by apply IH].
  left. eauto.
Qed.

Lemma write2_ok {A} (m : matrix A) x y v w :
  at2 m x y = Some w → write2 m x y v = Ok (set2 m x y v).
Proof. unfold write2. by intros ->. Qed.

Lemma swap_cells_progress (g : Grid) p1 p2 :
  shaped ROWS COLS g → in_grid ROWS COLS p1 → in_grid ROWS COLS p2 →
  ∃ g', swap_cells g p1 p2 = Ok g'.
Proof.
  intros Hg H1 H2. destruct p1 as [x1 y1], p2 as [x2 y2].
  destruct (at2_shaped ROWS COLS g _ _ Hg H1) as [a Ha].
  destruct (at2_shaped ROWS COLS g _ _ Hg H2) as [b Hb].
  destruct (at2_shaped ROWS COLS (set2 g x1 y1 b) x2 y2) as [c Hc];
    [by apply set2_shaped|done|].
  unfold swap_cells, read2; cbn [fst snd]. rewrite Ha, Hb.
  cbn [or_undefined mbind outcome_bind]. rewrite (write2_ok _ _ _ _ _ Ha).
  cbn [mbind outcome_bind]. rewrite (write2_ok _ _ _ _ _ Hc). eauto.
Qed.

(** A turn on a well-formed state completes, unless the tape runs out. *)
Lemma step_progress st tape :
  well_formed ROWS COLS agentPreferences st → Forall (λ r, 0 ≤ r) tape →
  iteration st < INT_MAX →
  (∃ st' tape',
     anneal_step ROWS COLS agentPreferences exp RAND_MAX distanceMaps coolingRate
       st tape = Ok (st', tape') ∧
     well_formed ROWS COLS agentPreferences st' ∧ Forall (λ r, 0 ≤ r) tape') ∨
  anneal_step ROWS COLS agentPreferences exp RAND_MAX distanceMaps coolingRate st tape
  = Starved.
Proof.
  intros [Hg Hw] Htape Hit. unfold anneal_step, propose, select_swap.
  destruct (pick_agent_progress (grid st) tape Hg Htape)
    as [(p1 & tape1 & -> & Hp1 & Ht1)| ->]; [|by right]. cbn [mbind outcome_bind].
  destruct (pick_agent_progress (grid st) tape1 Hg Ht1)
    as [(p2 & tape2 & -> & Hp2 & Ht2)| ->]; [|by right]. cbn [mbind outcome_bind].
  destruct (swap_cells_progress (grid st) p1 p2 Hg Hp1 Hp2) as [g' Hswap].
  rewrite Hswap; cbn [mbind outcome_bind].
  destruct (swap_cells_ok ROWS COLS _ _ _ _ Hswap)
    as (_ & _ & _ & _ & _ & _ & _ & Hperm & Hshape).
  specialize (Hshape Hg).
  pose proof (weights_aligned_perm _ _ Hg Hperm Hw) as Hw'.
  rewrite (calculateScore_fold ROWS COLS agentPreferences g' distanceMaps) by done.
  cbn [mbind outcome_bind]. unfold accept_test.
  set (score' := foldl _ _ _). set (delta := (score' - currentScore st)%float).
  assert (∀ pr, well_formed ROWS COLS agentPreferences st →
            newGrid pr = g' → iteration st < INT_MAX →
            ∃ st', cool coolingRate (commit st pr) = Ok st' ∧
                   well_formed ROWS COLS agentPreferences st') as Hcommit.
  { intros pr [Hg0 Hw0] Hpr _. unfold cool, commit, well_formed.
    destruct (accepted pr); [destruct (bestScore st <? newScore pr)%float|];
      simpl; rewrite bool_decide_eq_true_2 by done; eexists; (split; [done|]);
      simpl; rewrite ?Hpr; done. }
  destruct (0 <? delta)%float.
  - cbn [mbind outcome_bind].
    destruct (Hcommit (Proposal g' score' delta true)) as (st' & -> & Hwf'); try done.
    left. eauto.
  - destruct tape2 as [|r tape3]; [by right|]. cbn [rand mbind outcome_bind].
    destruct (Hcommit (Proposal g' score' delta
                (uniform_draw RAND_MAX r <? exp (delta / temperature st))%float))
      as (st' & -> & Hwf'); try done.
    left. exists st', tape3. split; [done|]. split; [done|]. by inversion Ht2.
Qed.

(** With [n] the first cold index, a run that has made [k] turns needs
    [n - k] more; it completes unless the tape runs out. *)
Lemma loop_progress T0 n fuel : ∀ (k : nat) st tape,
  first_cold T0 cooldown coolingRate n →
  temperature st = temperature_at T0 coolingRate k →
  iteration st = Z.of_nat k → (k ≤ n)%nat → Z.of_nat n ≤ INT_MAX →
  (n - k ≤ fuel)%nat →
  well_formed ROWS COLS agentPreferences st → Forall (λ r, 0 ≤ r) tape →
  (∃ st' tape',
     anneal_loop ROWS COLS agentPreferences exp RAND_MAX fuel distanceMaps
       cooldown coolingRate st tape = Ok (st', tape')) ∨
  anneal_loop ROWS COLS agentPreferences exp RAND_MAX fuel distanceMaps
    cooldown coolingRate st tape = Starved.
Proof.
  induction fuel as [|fuel IH]; intros k st tape [Hcold Hhot] HT Hi Hk Hn Hfuel Hwf Htape.
  - assert (k = n) as -> by lia. simpl. rewrite HT, Hcold. eauto.
  - destruct (decide (k = n)) as [->|Hne].
    { simpl. rewrite HT, Hcold. eauto. }
    cbn [anneal_loop]. rewrite HT, Hhot by lia.
    destruct (step_progress st tape Hwf Htape) as [(st' & tape' & Hstep & Hwf' & Ht')|Hst];
      [lia| |by rewrite Hst; right].
    rewrite Hstep; cbn [mbind outcome_bind].
    apply anneal_step_ok in Hstep as (pr & _ & _ & Hst').
    apply (IH (S k)); try done; try lia.
    + rewrite Hst'. cbn [temperature]. by rewrite HT.
    + rewrite Hst'. simpl. lia.
Qed.

Lemma loop_count T0 n fuel g score tape st tape' :
  first_cold T0 cooldown coolingRate n →
  anneal_loop ROWS COLS agentPreferences exp RAND_MAX fuel distanceMaps
    cooldown coolingRate (initial_state g score T0) tape = Ok (st, tape') →
  iteration st = Z.of_nat n ∧ temperature st = temperature_at T0 coolingRate n ∧
  (cooldown <? temperature st)%float = false.
Proof.
  intros [Hcold Hhot] (m & _ & Hrun & Hstop)%anneal_loop_runs.
  apply runs_schedule in Hrun as (HT & Hi & Hk). simpl in *.
  fold (temperature_at T0 coolingRate m) in HT.
  assert (m = n) as ->; [|by rewrite Hi, HT].
  destruct (Nat.lt_trichotomy m n) as [Hlt|[->|Hgt]]; [|done|].
  - rewrite HT, (Hhot m Hlt) in Hstop. done.
  - specialize (Hk n Hgt). fold (temperature_at T0 coolingRate n) in Hk. congruence.
Qed.

End Progress.

(** C8, as the code has it. Let [n] be the first index at which the cooling sequence
    [T0, T0(1-r), ...], computed in doubles, is not above [Tmin]. Then every
    completed run of the loop has made exactly [n] turns and stops with the
    temperature not above [Tmin], whatever the grid, the scores and the draws;
    and [n] is then at most [INT_MAX], the [int] turn counter having counted
    the turns (so no run completes when [n] is above [INT_MAX]). When [n] is at
    most [INT_MAX], on well-formed input with non-negative draws [n] turns of
    fuel are enough: the loop completes unless the tape runs out of draws, in
    the selection or in the acceptance test. *)
Theorem iterations_fixed_by_cooling ROWS COLS agentPreferences exp RAND_MAX
    distanceMaps T0 Tmin r n :
  first_cold T0 Tmin r n →
  (∀ fuel g score tape st tape',
     anneal_loop ROWS COLS agentPreferences exp RAND_MAX fuel distanceMaps Tmin r
       (initial_state g score T0) tape = Ok (st, tape') →
     iteration st = Z.of_nat n ∧ temperature st = temperature_at T0 r n ∧
     (Tmin <? temperature st)%float = false ∧ Z.of_nat n ≤ INT_MAX) ∧
  (∀ fuel g score tape,
     0 < ROWS → 0 < COLS → distance_fields ROWS COLS distanceMaps →
     shaped ROWS COLS g → weights_aligned ROWS COLS agentPreferences g →
     Forall (λ r, 0 ≤ r) tape → Z.of_nat n ≤ INT_MAX → (n ≤ fuel)%nat →
     (∃ st tape',
        anneal_loop ROWS COLS agentPreferences exp RAND_MAX fuel distanceMaps Tmin r
          (initial_state g score T0) tape = Ok (st, tape')) ∨
     anneal_loop ROWS COLS agentPreferences exp RAND_MAX fuel distanceMaps Tmin r
       (initial_state g score T0) tape = Starved).
Proof.
  intros Hfirst. split.
  - intros fuel g score tape st tape' Hloop.
    destruct (loop_count ROWS COLS agentPreferences exp RAND_MAX distanceMaps Tmin r
                T0 n fuel g score tape st tape' Hfirst Hloop) as (Hit & HT & Hcold).
    split_and!; try done.
    apply anneal_loop_runs in Hloop as (m & _ & Hrun & _).
    assert (iteration st ≤ INT_MAX); [|lia].
    refine (runs_invariant ROWS COLS agentPreferences exp RAND_MAX distanceMaps
              Tmin r (λ st, iteration st ≤ INT_MAX) _ m _ _ Hrun _); [|done].
    intros st0 tp st1 tp' _ (pr & _ & Hlt & ->)%anneal_step_ok. simpl. lia.
  - intros fuel g score tape HR HC Hd Hg Hw Htape Hn Hfuel.
    apply (loop_progress ROWS COLS agentPreferences exp RAND_MAX distanceMaps Tmin r
             HR HC Hd T0 n fuel 0%nat); try done; lia.
Qed.

(** For [T0 = 1000], [Tmin = 1], [r = 0.003] the first cold index is 2300, and
    every completed run has made 2300 turns. For [T0 = 4], [Tmin = 1],
    [r = 0.5] it is 2, and on [grid5] the loop completes within two turns
    unless the draws run out. *)
Lemma iterations_fixed_by_cooling_witness :
  (first_cold 1000 1 default_coolingRate 2300 ∧
   ∀ fuel g score tape st tape',
     anneal_loop 5 5 agentPreferences_src exp_poly 32767 fuel sample_fields
       1 default_coolingRate (initial_state g score 1000) tape = Ok (st, tape') →
     iteration st = 2300) ∧
  (first_cold 4 1 0.5 2 ∧
   ∀ tape, Forall (λ r, 0 ≤ r) tape →
     (∃ st tape',
        anneal_loop 5 5 agentPreferences_src exp_poly 32767 2 sample_fields 1 0.5
          (initial_state grid5 sample_score 4) tape = Ok (st, tape')) ∨
     anneal_loop 5 5 agentPreferences_src exp_poly 32767 2 sample_fields 1 0.5
       (initial_state grid5 sample_score 4) tape = Starved).
Proof.
  split.
  - assert (first_cold 1000 1 default_coolingRate 2300) as H.
    { apply first_cold_check_sound. vm_cast_no_check (eq_refl true). }
    split; [exact H|]. intros fuel g score tape st tape' Hloop.
    apply (proj1 (iterations_fixed_by_cooling 5 5 agentPreferences_src exp_poly 32767
                    sample_fields 1000 1 default_coolingRate 2300 H) _ _ _ _ _ _ Hloop).
  - assert (first_cold 4 1 0.5 2) as H.
    { apply first_cold_check_sound. vm_compute. reflexivity. }
    split; [exact H|]. intros tape Htape.
    apply (proj2 (iterations_fixed_by_cooling 5 5 agentPreferences_src exp_poly 32767
                    sample_fields 4 1 0.5 2 H) 2%nat grid5 sample_score tape).
    + lia.
    + lia.
    + apply distance_fields_check_sound. vm_compute. reflexivity.
    + apply shaped_check_sound. vm_compute. reflexivity.
    + apply weights_aligned_check_sound. vm_compute. reflexivity.
    + exact Htape.
    + vm_compute. discriminate.
    + lia.
Defined.

(** The two outcomes of the loop on [grid5]: with the draws of [sample_tape]
    it completes after two turns; with those of [worsening_tape] the second
    turn finds the tape empty in its selection; with the third tape the second
    turn selects its two cells and finds the tape empty in the acceptance
    test. *)
Lemma sample_loop_outcomes :
  (∃ st, anneal_loop 5 5 agentPreferences_src exp_poly 32767 2 sample_fields 1 0.5
           (initial_state grid5 sample_score 4) sample_tape = Ok (st, [100; 7; 7]) ∧
         iteration st = 2) ∧
  anneal_loop 5 5 agentPreferences_src exp_poly 32767 2 sample_fields 1 0.5
    (initial_state grid5 sample_score 4) worsening_tape = Starved ∧
  anneal_loop 5 5 agentPreferences_src exp_poly 32767 2 sample_fields 1 0.5
    (initial_state grid5 sample_score 4) [1; 0; 1; 1; 0; 0; 0; 1] = Starved.
Proof.
  split_and!.
  - eexists. split; vm_compute; reflexivity.
  - vm_compute. reflexivity.
  - vm_compute. reflexivity.
Qed.

(** With the cooling rate 2^-60 the factor [1 - r] is [1]: the temperature
    never changes, and no run of [optimiseGrid] returns. *)
Lemma tiny_rate_never_cools :
  (0 <? tiny_rate)%float = true ∧ (tiny_rate <? 1)%float = true ∧
  (1 - tiny_rate)%float = 1%float ∧
  (¬ ∃ n, (1 <? temperature_at 1000 tiny_rate n)%float = false) ∧
  (¬ ∃ fuel tape res,
       optimiseGrid 5 5 agentPreferences_src exp_poly 32767 fuel grid5 sample_fields
         1000 1 tiny_rate tape = Ok res).
Proof.
  assert (∀ n, temperature_at 1000 tiny_rate n = 1000%float) as Hconst.
  { induction n as [|n IH]; [done|].
    change (temperature_at 1000 tiny_rate (S n))
      with (temperature_at 1000 tiny_rate n * (1 - tiny_rate))%float.
    rewrite IH. by vm_compute. }
  split_and!.
  - by vm_compute.
  - by vm_compute.
  - by vm_compute.
  - intros [n Hn]. rewrite Hconst in Hn. by vm_compute in Hn.
  - intros (fuel & tape & [g' tape'] & Hrun).
    apply optimiseGrid_runs in Hrun as (score & n & st & _ & Hrun & Hstop & _).
    apply runs_schedule in Hrun as (HT & _).
    change (temperature st = temperature_at 1000 tiny_rate n) in HT.
    rewrite HT, Hconst in Hstop. by vm_compute in Hstop.
Qed.

(** ** The source's own inputs *)

Lemma table_weights_aligned ROWS COLS g :
  weights_aligned ROWS COLS agentPreferences_src g.
Proof.
  intros p _ Hag. destruct (label_at g p); try done; by vm_compute.
Qed.

(** The source's table gives every agent label one weight per fixed-feature
    label, so the weights are aligned on every grid. *)
Lemma source_weights_aligned ROWS COLS g :
  weights_aligned ROWS COLS agentPreferences_src g.
Proof. exact (table_weights_aligned ROWS COLS g). Qed.

(** The source's dimensions are within the range of [computeDistanceMaps_min_steps],
    and the fields of [main]'s layout are computed within 144 dequeues. *)
Lemma source_layout_fields :
  Source.ROWS + Source.COLS ≤ Z.of_nat step_bound ∧
  computeDistanceMaps Source.ROWS Source.COLS 144 Source.layout
  = Ok (fields_of Source.ROWS Source.COLS Source.layout) ∧
  distance_at (fields_of Source.ROWS Source.COLS Source.layout) TRANSPORT (0, 0)
  = 12%float ∧
  distance_at (fields_of Source.ROWS Source.COLS Source.layout) ROAD (11, 11) = 5%float.
Proof.
  split_and!.
  - vm_compute. discriminate.
  - by vm_compute.
  - by vm_compute.
  - by vm_compute.
Qed.

Lemma main_schedule : first_cold 1000 Source.cooldown Source.coolingRate 9206.
Proof. apply first_cold_check_sound. vm_cast_no_check (eq_refl true). Qed.

(** The call in [main] cools from 1000 to below 0.1 in exactly 9206 turns. *)
Lemma source_schedule : first_cold 1000 Source.cooldown Source.coolingRate 9206.
Proof. exact main_schedule. Qed.

(** [computeDistanceMaps] returns, and what it returns is a distance-field
    collection. *)
Lemma computeDistanceMaps_fields ROWS COLS g fuel :
  shaped ROWS COLS g → ROWS + COLS ≤ Z.of_nat step_bound →
  (Z.to_nat ROWS * Z.to_nat COLS ≤ fuel)%nat →
  ∃ distanceMaps, computeDistanceMaps ROWS COLS fuel g = Ok distanceMaps ∧
                  distance_fields ROWS COLS distanceMaps.
Proof.
  intros Hg Hsmall Hfuel.
  destruct (distance_map_ok ROWS COLS g TRANSPORT fuel) as (d1 & E1 & H1); try done.
  destruct (distance_map_ok ROWS COLS g PUBLIC fuel) as (d2 & E2 & H2); try done.
  destruct (distance_map_ok ROWS COLS g LANDSCAPE fuel) as (d3 & E3 & H3); try done.
  destruct (distance_map_ok ROWS COLS g ROAD fuel) as (d4 & E4 & H4); try done.
  eexists. split; [by apply computeDistanceMaps_eq|]. intros t Ht.
  assert (∃ dm, (<[ROAD := d4]> (<[LANDSCAPE := d3]> (<[PUBLIC := d2]>
                   (<[TRANSPORT := d1]> ∅))) : gmap CellType (matrix double)) !! t
                = Some dm ∧ shaped ROWS COLS dm ∧
            ∀ p, in_grid ROWS COLS p →
              (absent ROWS COLS g t ∧ at2 dm p.1 p.2 = Some DBL_MAX) ∨
              (∃ n, min_steps ROWS COLS g t p n ∧
                    at2 dm p.1 p.2 = Some (double_of_int (Z.of_nat n))))
    as (dm & Hdm & Hs & Hval).
  { unfold landUseTypes in Ht.
    repeat (apply elem_of_cons in Ht as [->|Ht]); [..|by apply elem_of_nil in Ht].
    - exists d1. split; [by simplify_map_eq|done].
    - exists d2. split; [by simplify_map_eq|done].
    - exists d3. split; [by simplify_map_eq|done].
    - exists d4. split; [by simplify_map_eq|done]. }
  exists dm. split; [done|]. split; [done|].
  intros [x y] d Hd; simpl in Hd.
  destruct (Hval (x, y) (at2_in_grid _ _ _ _ _ _ Hs Hd)) as [[_ Hmax]|(n & Hmin & Hn)];
    simpl in *.
  - rewrite Hd in Hmax. injection Hmax as ->. by split; vm_compute.
  - assert (n < step_bound)%nat as Hlt.
    { pose proof (min_steps_bound _ _ _ _ _ _ Hmin). lia. }
    rewrite <- (steps_value n Hlt), Hd in Hn. injection Hn as ->.
    by apply steps_is_distance.
Qed.

(** What [computeDistanceMaps] returns is a distance-field collection in the
    sense [calculateScore] relies on. *)
Lemma computed_fields_are_distance_fields ROWS COLS g fuel distanceMaps :
  shaped ROWS COLS g → ROWS + COLS ≤ Z.of_nat step_bound →
  (Z.to_nat ROWS * Z.to_nat COLS ≤ fuel)%nat →
  computeDistanceMaps ROWS COLS fuel g = Ok distanceMaps →
  distance_fields ROWS COLS distanceMaps.
Proof.
  intros Hg Hsmall Hfuel Hrun.
  destruct (computeDistanceMaps_fields ROWS COLS g fuel Hg Hsmall Hfuel)
    as (distanceMaps' & Hrun' & Hfields).
  rewrite Hrun in Hrun'. by injection Hrun' as ->.
Qed.

Lemma computed_fields_are_distance_fields_witness :
  distance_fields 5 5 sample_fields.
Proof.
  apply (computed_fields_are_distance_fields 5 5 grid5 25 sample_fields).
  - apply shaped_check_sound. vm_compute. reflexivity.
  - vm_compute. discriminate.
  - vm_compute. lia.
  - vm_compute. reflexivity.
Defined.

(** ** The distance fields and the agents *)

Lemma for_each_ext_in {A S} (l : list A) (body body' : A → S → outcome S) :
  (∀ a s, a ∈ l → body a s = body' a s) → ∀ s, for_each l body s = for_each l body' s.
Proof.
  induction l as [|a l IH]; intros H s; simpl; [done|].
  rewrite (H a s) by left.
  destruct (body' a s); simpl; try done.
  apply IH. intros b s' Hb. apply H. by right.
Qed.

Lemma same_features_check_sound ROWS COLS (g g' : Grid) :
  shaped ROWS COLS g → shaped ROWS COLS g' →
  same_features_check ROWS COLS g g' = true → same_features g g'.
Proof.
  intros Hs Hs' Hc x y t Ht.
  unfold same_features_check in Hc. rewrite forallb_forall in Hc.
  assert (in_grid ROWS COLS (x, y) →
          bool_decide (at2 g x y = Some t) = bool_decide (at2 g' x y = Some t)) as Heq.
  { intros Hin%elem_of_positions%list_elem_of_In.
    specialize (Hc _ Hin). rewrite forallb_forall in Hc.
    apply Bool.eqb_prop, (Hc t). by apply list_elem_of_In. }
  split; intros Hxy.
  - apply (bool_decide_eq_true_1 (at2 g' x y = Some t)).
    rewrite <- Heq by apply (at2_in_grid ROWS COLS g x y t Hs Hxy).
    by apply bool_decide_eq_true_2.
  - apply (bool_decide_eq_true_1 (at2 g x y = Some t)).
    rewrite Heq by apply (at2_in_grid ROWS COLS g' x y t Hs' Hxy).
    by apply bool_decide_eq_true_2.
Qed.

Lemma seed_same_features ROWS COLS (g g' : Grid) t :
  shaped ROWS COLS g → shaped ROWS COLS g' → same_features g g' →
  t ∈ landUseTypes → seed ROWS COLS g t = seed ROWS COLS g' t.
Proof.
  intros Hs Hs' Hsame Ht. unfold seed.
  rewrite !(for_each_positions ROWS COLS (seed_cell _ t)).
  apply for_each_ext_in. intros [i j] [dm q] Hp%elem_of_positions.
  unfold seed_cell; simpl.
  rewrite (read2_label ROWS COLS g Hs i j Hp), (read2_label ROWS COLS g' Hs' i j Hp).
  cbn [mbind outcome_bind].
  destruct (at2_shaped ROWS COLS g i j Hs Hp) as [c Hc].
  destruct (at2_shaped ROWS COLS g' i j Hs' Hp) as [c' Hc'].
  unfold label_at; simpl. rewrite Hc, Hc'; simpl.
  assert (c = t ↔ c' = t) as Hiff.
  { split; intros ->.
    - apply (Hsame i j t Ht) in Hc. congruence.
    - apply (Hsame i j t Ht) in Hc'. congruence. }
  by rewrite (bool_decide_ext _ _ Hiff).
Qed.

Lemma distance_map_same_features ROWS COLS fuel (g g' : Grid) t :
  shaped ROWS COLS g → shaped ROWS COLS g' → same_features g g' →
  t ∈ landUseTypes →
  distance_map ROWS COLS fuel g t = distance_map ROWS COLS fuel g' t.
Proof.
  intros Hs Hs' Hsame Ht. unfold distance_map.
  by rewrite (seed_same_features ROWS COLS g g' t).
Qed.

(** The distance fields are a function of where the fixed-feature labels
    are: two [ROWS]×[COLS] grids that bear them at the same cells get the
    same fields, whatever else the cells hold. *)
Theorem fields_depend_on_features_only ROWS COLS fuel (g g' : Grid) :
  shaped ROWS COLS g → shaped ROWS COLS g' → same_features g g' →
  computeDistanceMaps ROWS COLS fuel g = computeDistanceMaps ROWS COLS fuel g'.
Proof.
  intros Hs Hs' Hsame. unfold computeDistanceMaps.
  apply for_each_ext_in. intros t dms Ht.
  by rewrite (distance_map_same_features ROWS COLS fuel g g' t).
Qed.

Lemma fields_depend_on_features_only_witness :
  computeDistanceMaps 5 5 25 grid_one_agent = computeDistanceMaps 5 5 25 grid_no_agent.
Proof.
  apply (fields_depend_on_features_only 5 5 25 grid_one_agent grid_no_agent).
  - apply shaped_check_sound. vm_compute. reflexivity.
  - apply shaped_check_sound. vm_compute. reflexivity.
  - apply (same_features_check_sound 5 5).
    + apply shaped_check_sound. vm_compute. reflexivity.
    + apply shaped_check_sound. vm_compute. reflexivity.
    + vm_compute. reflexivity.
Defined.

(** ** What [optimiseGrid] returns *)

Section Returned.
Variables ROWS COLS : Z.
Variable agentPreferences : gmap CellType (list double).
Variable exp : double → double.
Variable RAND_MAX : Z.
Variable distanceMaps : gmap CellType (matrix double).
Variables cooldown coolingRate : double.

Abbreviation turn :=
  (anneal_step ROWS COLS agentPreferences exp RAND_MAX distanceMaps coolingRate).
Abbreviation turns :=
  (iterates ROWS COLS agentPreferences exp RAND_MAX distanceMaps cooldown coolingRate).
Abbreviation score_of g :=
  (calculateScore ROWS COLS agentPreferences g distanceMaps).

(** A cell that holds an agent label holds one after the turn. *)
Lemma step_agent_cells st tape st' tape' x y a :
  turn st tape = Ok (st', tape') →
  at2 (grid st) x y = Some a → is_agent a = true →
  ∃ b, at2 (grid st') x y = Some b ∧ is_agent b = true.
Proof.
  intros (pr & Hpr & _ & ->)%anneal_step_ok Hxy Ha; simpl.
  destruct (propose_ok _ _ _ _ _ _ _ _ _ _ Hpr) as (p1 & p2 & tape2 & Hsel & Hswap & _).
  destruct (select_swap_ok _ _ _ _ _ _ _ Hsel) as [(a1 & Ha1 & Hag1) (a2 & Ha2 & Hag2)].
  destruct (swap_cells_ok ROWS COLS _ _ _ _ Hswap)
    as (a' & b' & Ha' & Hb' & Hother & Hp2 & Hp1 & _).
  assert (a' = a1) as -> by congruence. assert (b' = a2) as -> by congruence.
  destruct (commit_grid st pr) as [-> _].
  destruct (accepted pr); [|eauto].
  destruct (decide ((x, y) = p2)) as [<-|Hn2]; [eauto|].
  destruct (decide ((x, y) = p1)) as [<-|Hn1].
  - exists a2. split; [|done]. apply Hp1. congruence.
  - exists a. split; [|done]. by rewrite <- Hxy; apply (Hother (x, y)).
Qed.

(** Along a run the working grid and the snapshot keep the shape, and the
    cells that held agent labels at the start hold agent labels. *)
Lemma runs_agent_cells g n score T0 tape s' :
  shaped ROWS COLS g →
  turns n (initial_state g score T0, tape) s' →
  (shaped ROWS COLS (grid s'.1) ∧ shaped ROWS COLS (bestGrid s'.1)) ∧
  ∀ x y a, at2 g x y = Some a → is_agent a = true →
    (∃ b, at2 (grid s'.1) x y = Some b ∧ is_agent b = true) ∧
    (∃ b, at2 (bestGrid s'.1) x y = Some b ∧ is_agent b = true).
Proof.
  intros Hs Hrun.
  refine (runs_invariant ROWS COLS agentPreferences exp RAND_MAX distanceMaps
            cooldown coolingRate
            (λ st, (shaped ROWS COLS (grid st) ∧ shaped ROWS COLS (bestGrid st)) ∧
                   ∀ x y a, at2 g x y = Some a → is_agent a = true →
                     (∃ b, at2 (grid st) x y = Some b ∧ is_agent b = true) ∧
                     (∃ b, at2 (bestGrid st) x y = Some b ∧ is_agent b = true))
            _ n _ _ Hrun _).
  - intros st tp st' tp' [[Hg Hb] Hcells] Hstep.
    destruct (step_cells _ _ _ _ _ _ _ _ _ _ _ Hstep) as (_ & Hshape & _ & Hbest).
    assert (∀ x y a, at2 g x y = Some a → is_agent a = true →
              ∃ b, at2 (grid st') x y = Some b ∧ is_agent b = true) as Hg'.
    { intros x y a Hxy Ha. destruct (Hcells x y a Hxy Ha) as [(b & Hb1 & Hb2) _].
      by eapply step_agent_cells. }
    destruct Hbest as [->| ->].
    + split; [auto|]. intros x y a Hxy Ha. split; [eauto|].
      by destruct (Hcells x y a Hxy Ha) as [_ ?].
    + split; [auto|]. intros x y a Hxy Ha. split; eauto.
  - simpl. split; [done|]. intros x y a Hxy Ha. split; eauto.
Qed.

(** The grid [optimiseGrid] leaves has the fixed-feature labels where the
    grid it was given has them. *)
Lemma optimiseGrid_same_features fuel g T0 tape g' tape' :
  shaped ROWS COLS g →
  optimiseGrid ROWS COLS agentPreferences exp RAND_MAX fuel g distanceMaps
    T0 cooldown coolingRate tape = Ok (g', tape') →
  shaped ROWS COLS g' ∧ same_features g g'.
Proof.
  intros Hs (score & n & st & _ & Hrun & _ & ->)%optimiseGrid_runs.
  destruct (runs_agent_cells g n score T0 tape (st, tape') Hs Hrun)
    as [[_ Hshape] Hcells]; simpl in *.
  split; [done|]. intros x y t Ht.
  assert (is_agent t = false) as Hnt.
  { destruct (is_agent t) eqn:E; [|done].
    by destruct (is_agent_not_fixed t E) as [_ []]. }
  split; intros Hxy.
  - by destruct (runs_fixed _ _ _ _ _ _ _ _ _ _ _ _ _ _ _ _ _ Hrun Hxy Hnt) as [_ ?].
  - destruct (at2_shaped ROWS COLS g x y Hs
                (at2_in_grid ROWS COLS _ x y t Hshape Hxy)) as [c Hc].
    destruct (is_agent c) eqn:E.
    + destruct (Hcells x y c Hc E) as [_ (b & Hb & Hbb)]. congruence.
    + destruct (runs_fixed _ _ _ _ _ _ _ _ _ _ _ _ _ _ _ _ _ Hrun Hc E) as [_ ?].
      simpl in *. congruence.
Qed.

(** Along a run [currentScore] and [bestScore] are the scores of [grid] and
    [bestGrid], and [bestScore] is not below the score at the start. *)
Lemma runs_scores g n score T0 tape s' :
  score_of g = Ok score →
  turns n (initial_state g score T0, tape) s' →
  score_of (grid s'.1) = Ok (currentScore s'.1) ∧
  score_of (bestGrid s'.1) = Ok (bestScore s'.1) ∧
  not_above score (bestScore s'.1).
Proof.
  intros Hscore Hrun.
  refine (runs_invariant ROWS COLS agentPreferences exp RAND_MAX distanceMaps
            cooldown coolingRate
            (λ st, score_of (grid st) = Ok (currentScore st) ∧
                   score_of (bestGrid st) = Ok (bestScore st) ∧
                   not_above score (bestScore st))
            _ n _ _ Hrun _).
  - intros st tp st' tp' (Hcur & Hbest & Hle) (pr & Hpr & _ & ->)%anneal_step_ok.
    destruct (propose_ok _ _ _ _ _ _ _ _ _ _ Hpr) as (_ & _ & _ & _ & _ & Hnew & _).
    unfold commit; simpl.
    destruct (accepted pr); [|done].
    destruct (bestScore st <? newScore pr)%float eqn:E; simpl; [|done].
    split_and!; try done.
    eapply not_above_trans; [done|]. by right.
  - simpl. split_and!; try done. apply not_above_refl.
Qed.

(** The turn counter never exceeds [INT_MAX] along a run. *)
Lemma runs_counter n s s' :
  turns n s s' → iteration s.1 ≤ INT_MAX → iteration s'.1 ≤ INT_MAX.
Proof.
  intros Hrun.
  refine (runs_invariant ROWS COLS agentPreferences exp RAND_MAX distanceMaps
            cooldown coolingRate (λ st, iteration st ≤ INT_MAX) _ n _ _ Hrun).
  intros st tp st' tp' _ (pr & _ & Hlt & ->)%anneal_step_ok. simpl. lia.
Qed.

End Returned.

(** [main] computes the distance fields once, before [optimiseGrid], and
    scores the optimised grid with them: the fields of the grid that
    [optimiseGrid] leaves are the fields of the grid it was given. *)
Theorem distance_maps_survive_optimisation ROWS COLS agentPreferences exp RAND_MAX
    distanceMaps fuel g T0 Tmin r tape g' tape' :
  shaped ROWS COLS g →
  optimiseGrid ROWS COLS agentPreferences exp RAND_MAX fuel g distanceMaps
    T0 Tmin r tape = Ok (g', tape') →
  shaped ROWS COLS g' ∧
  ∀ fuel', computeDistanceMaps ROWS COLS fuel' g' = computeDistanceMaps ROWS COLS fuel' g.
Proof.
  intros Hs Hrun.
  destruct (optimiseGrid_same_features _ _ _ _ _ _ _ _ _ _ _ _ _ _ Hs Hrun)
    as [Hs' Hsame].
  split; [done|]. intros fuel'. unfold computeDistanceMaps.
  apply for_each_ext_in. intros t dms Ht.
  by rewrite (distance_map_same_features ROWS COLS fuel' g g' t).
Qed.

(** The sample run returns a grid that is not the one it was given, and
    that scores higher. *)
Lemma sample_run_moves :
  sample_final ≠ grid5 ∧
  ∃ score score',
    calculateScore 5 5 agentPreferences_src grid5 sample_fields = Ok score ∧
    calculateScore 5 5 agentPreferences_src sample_final sample_fields = Ok score' ∧
    (score <? score')%float = true.
Proof.
  split; [vm_compute; discriminate|].
  do 2 eexists. split_and!; vm_compute; reflexivity.
Qed.

Lemma distance_maps_survive_optimisation_witness :
  sample_final ≠ grid5 ∧
  shaped 5 5 sample_final ∧
  ∀ fuel', computeDistanceMaps 5 5 fuel' sample_final = computeDistanceMaps 5 5 fuel' grid5.
Proof.
  split; [apply sample_run_moves|].
  apply (distance_maps_survive_optimisation 5 5 agentPreferences_src exp_poly 32767
           sample_fields 10 grid5 4 1 0.5 sample_tape sample_final [100; 7; 7]).
  - apply shaped_check_sound. vm_compute. reflexivity.
  - vm_compute. reflexivity.
Defined.

(** [optimiseGrid] never makes things worse: the grid it leaves has a score
    (under the same distance fields), and this score is the score of the grid
    it was given or above it. *)
Theorem optimised_grid_scores_no_worse ROWS COLS agentPreferences exp RAND_MAX
    distanceMaps fuel g T0 Tmin r tape g' tape' :
  optimiseGrid ROWS COLS agentPreferences exp RAND_MAX fuel g distanceMaps
    T0 Tmin r tape = Ok (g', tape') →
  ∃ score score',
    calculateScore ROWS COLS agentPreferences g distanceMaps = Ok score ∧
    calculateScore ROWS COLS agentPreferences g' distanceMaps = Ok score' ∧
    not_above score score'.
Proof.
  intros (score & n & st & Hscore & Hrun & _ & ->)%optimiseGrid_runs.
  destruct (runs_scores _ _ _ _ _ _ _ _ _ _ _ _ _ _ Hscore Hrun) as (_ & Hbest & Hle).
  exists score, (bestScore st). by split_and!.
Qed.

Lemma optimised_grid_scores_no_worse_witness :
  (∃ score score',
     calculateScore 5 5 agentPreferences_src grid5 sample_fields = Ok score ∧
     calculateScore 5 5 agentPreferences_src sample_final sample_fields = Ok score' ∧
     (score <? score')%float = true) ∧
  ∃ score score',
    calculateScore 5 5 agentPreferences_src grid5 sample_fields = Ok score ∧
    calculateScore 5 5 agentPreferences_src sample_final sample_fields = Ok score' ∧
    not_above score score'.
Proof.
  split; [apply sample_run_moves|].
  apply (optimised_grid_scores_no_worse 5 5 agentPreferences_src exp_poly 32767
           sample_fields 10 grid5 4 1 0.5 sample_tape sample_final [100; 7; 7]).
  vm_compute. reflexivity.
Defined.

(** The loop cannot make more than [INT_MAX] turns: [iteration] counts them
    from 0, and a turn that finds it at [INT_MAX] overflows in [iteration++]. *)
Theorem turn_counter_bounded ROWS COLS agentPreferences exp RAND_MAX distanceMaps
    cooldown coolingRate :
  (∀ n g score T0 tape st tape',
     iterates ROWS COLS agentPreferences exp RAND_MAX distanceMaps cooldown coolingRate
       n (initial_state g score T0, tape) (st, tape') →
     iteration st = Z.of_nat n ∧ Z.of_nat n ≤ INT_MAX) ∧
  (∀ st tape pr tape',
     propose ROWS COLS agentPreferences exp RAND_MAX distanceMaps st tape
       = Ok (pr, tape') →
     INT_MAX ≤ iteration st →
     anneal_step ROWS COLS agentPreferences exp RAND_MAX distanceMaps coolingRate st tape
     = Undefined).
Proof.
  split.
  - intros n g score T0 tape st tape' Hrun.
    destruct (runs_schedule _ _ _ _ _ _ _ _ _ _ _ Hrun) as (_ & Hit & _).
    pose proof (runs_counter _ _ _ _ _ _ _ _ _ _ _ Hrun) as Hmax.
    simpl in *. unfold INT_MAX in *. lia.
  - intros st tape pr tape' Hpr Hit. unfold anneal_step. rewrite Hpr; simpl.
    unfold cool. rewrite bool_decide_eq_false_2; [done|].
    assert (iteration (commit st pr) = iteration st) as ->; [|lia].
    unfold commit. by repeat case_match.
Qed.

Lemma turn_counter_bounded_witness :
  anneal_step 5 5 agentPreferences_src exp_poly 32767 sample_fields 0.5
    (Annealer grid5 sample_score grid5 sample_score 4 INT_MAX) sample_tape
  = Undefined.
Proof.
  destruct (turn_counter_bounded 5 5 agentPreferences_src exp_poly 32767
              sample_fields 1 0.5) as [_ H].
  eapply H.
  - vm_compute. reflexivity.
  - simpl. lia.
Defined.

(** ** Swapping twice *)

(** [swap] is its own inverse: the same swap applied to the candidate gives
    the grid back; and swapping a cell with itself changes nothing. *)
Theorem swap_cells_involutive ROWS COLS (g g' : Grid) (p1 p2 : pos) :
  shaped ROWS COLS g →
  swap_cells g p1 p2 = Ok g' →
  swap_cells g' p1 p2 = Ok g ∧ (p1 = p2 → g' = g).
Proof.
  intros Hs Hswap.
  destruct (swap_cells_ok ROWS COLS _ _ _ _ Hswap)
    as (a & b & Ha & Hb & Hother & Hp2 & Hp1 & _ & Hshape).
  specialize (Hshape Hs).
  assert (in_grid ROWS COLS p1) as Hin1.
  { destruct p1 as [x y]. apply (at2_in_grid ROWS COLS g x y a Hs Ha). }
  assert (in_grid ROWS COLS p2) as Hin2.
  { destruct p2 as [x y]. apply (at2_in_grid ROWS COLS g x y b Hs Hb). }
  split.
  - destruct (swap_cells_progress ROWS COLS g' p1 p2 Hshape Hin1 Hin2) as [g'' Hback].
    rewrite Hback. f_equal.
    destruct (swap_cells_ok ROWS COLS _ _ _ _ Hback)
      as (a' & b' & Ha' & Hb' & Hother' & Hp2' & Hp1' & _ & Hshape').
    apply (matrix_ext ROWS COLS); [auto|done|]. intros x y.
    destruct (decide ((x, y) = p2)) as [<-|Hn2].
    + simpl in *. rewrite Hp2', Hb.
      destruct (decide (p1 = (x, y))) as [->|Hne]; simpl in *; [congruence|].
      rewrite (Hp1 Hne) in Ha'. congruence.
    + destruct (decide ((x, y) = p1)) as [<-|Hn1].
      * simpl in *. rewrite Hp1', Ha by congruence. congruence.
      * etrans; [by apply (Hother' (x, y))|by apply (Hother (x, y))].
  - intros <-. apply (matrix_ext ROWS COLS); [done..|]. intros x y.
    destruct (decide ((x, y) = p1)) as [<-|Hn1].
    + simpl in *. congruence.
    + by apply (Hother (x, y)).
Qed.

Lemma swap_cells_involutive_witness :
  swap_cells [[RESIDENTIAL; OFFICE]; [ROAD; COM_CAFE]] (0, 0) (1, 1)
  = Ok [[COM_CAFE; OFFICE]; [ROAD; RESIDENTIAL]] ∧
  swap_cells [[COM_CAFE; OFFICE]; [ROAD; RESIDENTIAL]] (0, 0) (1, 1)
  = Ok [[RESIDENTIAL; OFFICE]; [ROAD; COM_CAFE]].
Proof.
  split; [vm_compute; reflexivity|].
  apply (swap_cells_involutive 2 2 [[RESIDENTIAL; OFFICE]; [ROAD; COM_CAFE]]
           [[COM_CAFE; OFFICE]; [ROAD; RESIDENTIAL]] (0, 0) (1, 1)).
  - apply shaped_check_sound. vm_compute. reflexivity.
  - vm_compute. reflexivity.
Defined.

(** ** How the scorer fails *)

(** A loop whose turns either succeed or fail with [e] succeeds or fails
    with [e]. *)
Lemma for_each_or_fails {A S} (e : outcome S) (l : list A) (body : A → S → outcome S) :
  (∀ a s, a ∈ l → (∃ s', body a s = Ok s') ∨ body a s = e) →
  ∀ s, (∃ s', for_each l body s = Ok s') ∨ for_each l body s = e.
Proof.
  induction l as [|a l IH]; intros H s; simpl; [eauto|].
  assert (∀ b s', b ∈ l → (∃ s'', body b s' = Ok s'') ∨ body b s' = e) as H'.
  { intros b s' Hb. apply H. by right. }
  destruct (H a s ltac:(left)) as [[s' ->]| ->]; simpl; [by apply IH|].
  destruct e; simpl; auto.
Qed.

(** And it fails with [e] when one of its turns fails in every state. *)
Lemma for_each_fails {A S} (e : outcome S) (l : list A) (body : A → S → outcome S) :
  (∀ s', e ≠ Ok s') →
  (∀ a s, a ∈ l → (∃ s', body a s = Ok s') ∨ body a s = e) →
  (∃ a, a ∈ l ∧ ∀ s, body a s = e) →
  ∀ s, for_each l body s = e.
Proof.
  intros He. induction l as [|a l IH]; intros H (a0 & Ha0 & Hfail) s; simpl.
  - by apply elem_of_nil in Ha0.
  - destruct (H a s ltac:(left)) as [[s' Hs']| ->].
    + rewrite Hs'; simpl. apply IH.
      * intros b s'' Hb. apply H. by right.
      * exists a0. split; [|done]. apply elem_of_cons in Ha0 as [->|]; [|done].
        rewrite Hfail in Hs'. by destruct (He s').
    + destruct e; simpl; try done. by destruct (He a1).
Qed.

Section ScorerFails.
Variables ROWS COLS : Z.
Variable agentPreferences : gmap CellType (list double).
Variable g : Grid.
Variable distanceMaps : gmap CellType (matrix double).
Hypothesis g_shaped : shaped ROWS COLS g.

(** The scorer on a grid where every turn of the cell loop succeeds or fails
    with [e], and the turn of some cell fails. *)
Lemma calculateScore_fails (e : outcome double) :
  (∀ s', e ≠ Ok s') →
  (∀ p s, in_grid ROWS COLS p →
     (∃ s', score_cell agentPreferences g distanceMaps p.1 p.2 s = Ok s') ∨
     score_cell agentPreferences g distanceMaps p.1 p.2 s = e) →
  (∃ p, in_grid ROWS COLS p ∧
        ∀ s, score_cell agentPreferences g distanceMaps p.1 p.2 s = e) →
  calculateScore ROWS COLS agentPreferences g distanceMaps = e.
Proof.
  intros He Hall (p & Hp & Hfail). unfold calculateScore.
  rewrite (for_each_positions ROWS COLS (score_cell agentPreferences g distanceMaps)).
  apply for_each_fails; [done| |].
  - intros q s Hq%elem_of_positions. by apply Hall.
  - exists p. split; [|done]. by apply elem_of_positions.
Qed.

(** The turn for a cell that holds no agent label. *)
Lemma score_cell_skip i j s :
  in_grid ROWS COLS (i, j) → is_agent (label_at g (i, j)) = false →
  score_cell agentPreferences g distanceMaps i j s = Ok s.
Proof.
  intros Hin Hna. unfold score_cell.
  rewrite (read2_label ROWS COLS g g_shaped i j Hin); cbn [mbind outcome_bind].
  by rewrite Hna.
Qed.

(** The turn for an agent cell, in terms of its [k] loop. *)
Lemma score_cell_agent i j s :
  in_grid ROWS COLS (i, j) → is_agent (label_at g (i, j)) = true →
  score_cell agentPreferences g distanceMaps i j s
  = (agentScore ← for_each (seq 0 (length landUseTypes))
                    (score_term distanceMaps
                       (preferences_of agentPreferences (label_at g (i, j))) i j)
                    0%float;
     Ok (s + agentScore)%float).
Proof.
  intros Hin Hag. unfold score_cell.
  rewrite (read2_label ROWS COLS g g_shaped i j Hin); cbn [mbind outcome_bind].
  by rewrite Hag.
Qed.

Lemma score_cell_cases (e : outcome double) :
  (∀ s', e ≠ Ok s') →
  (∀ i j k s, in_grid ROWS COLS (i, j) → is_agent (label_at g (i, j)) = true →
     (k < length landUseTypes)%nat →
     (∃ s', score_term distanceMaps
              (preferences_of agentPreferences (label_at g (i, j))) i j k s = Ok s') ∨
     score_term distanceMaps
       (preferences_of agentPreferences (label_at g (i, j))) i j k s = e) →
  ∀ p s, in_grid ROWS COLS p →
    (∃ s', score_cell agentPreferences g distanceMaps p.1 p.2 s = Ok s') ∨
    score_cell agentPreferences g distanceMaps p.1 p.2 s = e.
Proof.
  intros He Hterm [i j] s Hin; simpl.
  destruct (is_agent (label_at g (i, j))) eqn:Hag.
  - rewrite score_cell_agent by done.
    destruct (for_each_or_fails e (seq 0 (length landUseTypes))
                (score_term distanceMaps
                   (preferences_of agentPreferences (label_at g (i, j))) i j)
                (λ k s' Hk, Hterm i j k s' Hin Hag (proj2 (proj1 (elem_of_seq _ _ _) Hk)))
                0%float) as [[a ->]| ->]; simpl; [eauto|].
    right. destruct e; try done. by destruct (He a).
  - left. rewrite score_cell_skip by done. eauto.
Qed.

Lemma score_cell_fails (e : outcome double) i j :
  (∀ s', e ≠ Ok s') →
  in_grid ROWS COLS (i, j) → is_agent (label_at g (i, j)) = true →
  (∀ k s, (k < length landUseTypes)%nat →
     (∃ s', score_term distanceMaps
              (preferences_of agentPreferences (label_at g (i, j))) i j k s = Ok s') ∨
     score_term distanceMaps
       (preferences_of agentPreferences (label_at g (i, j))) i j k s = e) →
  (∃ k, (k < length landUseTypes)%nat ∧
     ∀ s, score_term distanceMaps
            (preferences_of agentPreferences (label_at g (i, j))) i j k s = e) →
  ∀ s, score_cell agentPreferences g distanceMaps i j s = e.
Proof.
  intros He Hin Hag Hterm (k & Hk & Hfail) s.
  rewrite score_cell_agent by done.
  rewrite (for_each_fails e); [by destruct e; try done; destruct (He a)|done| |].
  - intros k' s' Hk'%elem_of_seq. apply Hterm. lia.
  - exists k. split; [|done]. apply elem_of_seq. lia.
Qed.

End ScorerFails.

(** An agent label with fewer weights than there are fixed-feature labels
    (an agent label that [agentPreferences] does not list has none) makes
    [preferences[k]] read past the end of the vector: on a grid that holds
    such a label in some cell the scorer has undefined behaviour, even with
    well-formed distance fields. *)
Theorem short_weights_undefined ROWS COLS agentPreferences g distanceMaps p :
  shaped ROWS COLS g →
  distance_fields ROWS COLS distanceMaps →
  in_grid ROWS COLS p → is_agent (label_at g p) = true →
  (length (preferences_of agentPreferences (label_at g p)) < length landUseTypes)%nat →
  calculateScore ROWS COLS agentPreferences g distanceMaps = Undefined.
Proof.
  intros Hs Hf Hp Hag Hshort.
  assert (∀ i j k s, in_grid ROWS COLS (i, j) → (k < length landUseTypes)%nat →
            (∃ s', score_term distanceMaps
                     (preferences_of agentPreferences (label_at g (i, j))) i j k s
                   = Ok s') ∨
            score_term distanceMaps
              (preferences_of agentPreferences (label_at g (i, j))) i j k s
            = Undefined) as Hterm.
  { intros i j k s Hin Hk.
    destruct (lookup_lt_is_Some_2 landUseTypes k Hk) as [t Ht].
    destruct (preferences_of agentPreferences (label_at g (i, j)) !! k) as [w|] eqn:Hw.
    - left. erewrite score_term_ok by done. eauto.
    - right. unfold score_term. by rewrite Ht, Hw. }
  apply (calculateScore_fails ROWS COLS); [by intros ? [=]| |].
  - apply (score_cell_cases ROWS COLS); [done|by intros ? [=]|]. intros i j k s Hin _ Hk. auto.
  - exists p. split; [done|]. destruct p as [i j]; simpl.
    apply (score_cell_fails ROWS COLS); [done|by intros ? [=]|done|done| |].
    + intros k s Hk. auto.
    + exists (length (preferences_of agentPreferences (label_at g (i, j)))).
      split; [done|]. intros s. unfold score_term.
      destruct (lookup_lt_is_Some_2 landUseTypes _ Hshort) as [t ->]; simpl.
      by rewrite (proj2 (lookup_ge_None _ _)).
Qed.

Lemma short_weights_undefined_witness :
  calculateScore 5 5 (delete OFFICE agentPreferences_src) grid5 sample_fields = Undefined.
Proof.
  apply (short_weights_undefined 5 5 (delete OFFICE agentPreferences_src) grid5
           sample_fields (0, 1)).
  - apply shaped_check_sound. vm_compute. reflexivity.
  - apply distance_fields_check_sound. vm_compute. reflexivity.
  - vm_compute. intuition discriminate.
  - vm_compute. reflexivity.
  - vm_compute. lia.
Defined.

(** [distanceMaps.at(landUseType)] throws when the collection lacks the
    field of a fixed-feature label. The scorer looks the field up for agent
    cells only: with weights for every label it throws [std::out_of_range]
    when the grid has an agent cell, and returns [0.0] when it has none. *)
Theorem missing_field_throws ROWS COLS agentPreferences g distanceMaps t :
  shaped ROWS COLS g →
  (∀ t' dm, distanceMaps !! t' = Some dm → shaped ROWS COLS dm) →
  t ∈ landUseTypes → distanceMaps !! t = None →
  (∀ p, in_grid ROWS COLS p → is_agent (label_at g p) = true →
     (length landUseTypes ≤ length (preferences_of agentPreferences (label_at g p)))%nat) →
  ((∃ p, in_grid ROWS COLS p ∧ is_agent (label_at g p) = true) →
   calculateScore ROWS COLS agentPreferences g distanceMaps = Thrown) ∧
  ((∀ p, in_grid ROWS COLS p → is_agent (label_at g p) = false) →
   calculateScore ROWS COLS agentPreferences g distanceMaps = Ok 0%float).
Proof.
  intros Hs Hf Ht Hnone Hw.
  assert (∀ i j k s, in_grid ROWS COLS (i, j) →
            is_agent (label_at g (i, j)) = true → (k < length landUseTypes)%nat →
            (∃ s', score_term distanceMaps
                     (preferences_of agentPreferences (label_at g (i, j))) i j k s
                   = Ok s') ∨
            score_term distanceMaps
              (preferences_of agentPreferences (label_at g (i, j))) i j k s
            = Thrown) as Hterm.
  { intros i j k s Hin Hag Hk.
    destruct (lookup_lt_is_Some_2 landUseTypes k Hk) as [t' Ht'].
    destruct (lookup_lt_is_Some_2
                (preferences_of agentPreferences (label_at g (i, j))) k) as [w Hw'].
    { specialize (Hw (i, j) Hin Hag). lia. }
    unfold score_term. rewrite Ht', Hw'; cbn [or_undefined mbind outcome_bind].
    destruct (distanceMaps !! t') as [dm|] eqn:Hdm; [|by right].
    cbn [or_thrown mbind outcome_bind].
    destruct (at2_shaped ROWS COLS dm i j (Hf _ _ Hdm) Hin) as [d Hd].
    unfold read2. rewrite Hd; cbn [or_undefined mbind outcome_bind].
    left. case_match; eauto. }
  split.
  - intros ([i j] & Hp & Hag).
    apply (calculateScore_fails ROWS COLS); [by intros ? [=]| |].
    + apply (score_cell_cases ROWS COLS); [done|by intros ? [=]|done].
    + exists (i, j). split; [done|]. simpl.
      apply (score_cell_fails ROWS COLS); [done|by intros ? [=]|done|done|auto|].
      apply list_elem_of_lookup_1 in Ht as [k Hk]. exists k.
      split; [by eapply lookup_lt_Some|]. intros s.
      destruct (lookup_lt_is_Some_2
                  (preferences_of agentPreferences (label_at g (i, j))) k) as [w Hw'].
      { specialize (Hw (i, j) Hp Hag). apply lookup_lt_Some in Hk. lia. }
      unfold score_term. by rewrite Hk, Hw'; cbn [or_undefined mbind outcome_bind];
        rewrite Hnone.
  - intros Hno. apply calculateScore_no_agent; [done|].
    intros x y c Hc.
    rewrite <- (Hno (x, y) (at2_in_grid ROWS COLS g x y c Hs Hc)).
    unfold label_at; simpl. by rewrite Hc.
Qed.

Lemma grid_no_agent_labels p : is_agent (label_at grid_no_agent p) = false.
Proof.
  destruct p as [x y]. unfold label_at. simpl.
  destruct (at2 grid_no_agent x y) as [c|] eqn:Hc; [|done].
  apply at2_Some in Hc as (_ & _ & row & Hrow & Hc).
  apply list_elem_of_lookup_2 in Hrow, Hc.
  repeat (apply elem_of_cons in Hrow as [->|Hrow]);
    [..|by apply elem_of_nil in Hrow];
    repeat (apply elem_of_cons in Hc as [->|Hc]); try done;
    by apply elem_of_nil in Hc.
Qed.

(** Without the field of ROAD the scorer throws on [grid5], which has agent
    cells, and returns 0 on [grid_no_agent], which has none. *)
Lemma missing_field_throws_witness :
  calculateScore 5 5 agentPreferences_src grid5 (delete ROAD sample_fields) = Thrown ∧
  calculateScore 5 5 agentPreferences_src grid_no_agent
    (delete ROAD (fields_of 5 5 grid_no_agent)) = Ok 0%float.
Proof.
  split.
  - apply (missing_field_throws 5 5 agentPreferences_src grid5
             (delete ROAD sample_fields) ROAD).
    + apply shaped_check_sound. vm_compute. reflexivity.
    + intros t' dm Hdm. apply lookup_delete_Some in Hdm as [_ Hdm].
      assert (t' ∈ landUseTypes) as Ht'.
      { destruct t'; try (by vm_compute in Hdm); vm_compute; by repeat constructor. }
      destruct (distance_fields_check_sound 5 5 sample_fields eq_refl t' Ht')
        as (dm' & Hdm' & Hshape & _). congruence.
    + by vm_compute; repeat constructor.
    + by apply lookup_delete_eq.
    + intros p Hin Hag. rewrite (table_weights_aligned 5 5 grid5 p Hin); [done|].
      by rewrite Hag.
    + exists (0, 0). split; [vm_compute; intuition discriminate|vm_compute; reflexivity].
  - apply (missing_field_throws 5 5 agentPreferences_src grid_no_agent
             (delete ROAD (fields_of 5 5 grid_no_agent)) ROAD).
    + apply shaped_check_sound. vm_compute. reflexivity.
    + intros t' dm Hdm. apply lookup_delete_Some in Hdm as [_ Hdm].
      assert (t' ∈ landUseTypes) as Ht'.
      { destruct t'; try (by vm_compute in Hdm); vm_compute; by repeat constructor. }
      destruct (distance_fields_check_sound 5 5 (fields_of 5 5 grid_no_agent)
                  eq_refl t' Ht') as (dm' & Hdm' & Hshape & _). congruence.
    + by vm_compute; repeat constructor.
    + by apply lookup_delete_eq.
    + intros p Hin Hag. by rewrite grid_no_agent_labels in Hag.
    + intros p _. apply grid_no_agent_labels.
Defined.

(** ** Scoring what [computeDistanceMaps] returns *)



(** ** printGrid *)

Lemma glyph_inj c c' : glyph c = glyph c' → c = c'.
Proof. by destruct c, c'. Qed.

Lemma print_row_inj row : ∀ row' rest rest',
  print_row row ++ rest = print_row row' ++ rest' → row = row' ∧ rest = rest'.
Proof.
  unfold print_row.
  induction row as [|c row IH]; intros [|c' row'] rest rest' H; simpl in H.
  - by injection H as ->.
  - injection H as H _. by destruct c'.
  - injection H as H _. by destruct c.
  - injection H as Hc H. apply glyph_inj in Hc as ->.
    by destruct (IH _ _ _ H) as [-> ->].
Qed.

(** The printout determines the grid: two grids that print the same are the
    same grid, and two different grids print differently (the nine labels have
    nine different characters, none of them the separator or the line end).
    It has two characters for every cell and one more for every row. *)
Theorem printGrid_inj (g g' : Grid) :
  (printGrid g = printGrid g' → g = g') ∧
  (g ≠ g' → printGrid g ≠ printGrid g') ∧
  length (printGrid g) = (2 * length (concat g) + length g)%nat.
Proof.
  assert (∀ g g' : Grid, printGrid g = printGrid g' → g = g') as Hinj.
  { clear. unfold printGrid. intros g.
    induction g as [|row g IH]; intros [|row' g'] H; simpl in H.
    - done.
    - destruct row'; discriminate H.
    - destruct row; discriminate H.
    - destruct (print_row_inj _ _ _ _ H) as [-> H']. f_equal. by apply IH. }
  split_and!.
  - apply Hinj.
  - intros Hne H. by apply Hne, Hinj.
  - unfold printGrid. induction g as [|row g IH]; [done|].
    cbn [mbind list_bind concat length]. rewrite !length_app, IH.
    assert (length (print_row row) = (2 * length row + 1)%nat) as ->; [|lia].
    unfold print_row. rewrite length_app. cbn [length]. clear.
    induction row as [|c row IHrow]; [done|].
    cbn [mbind list_bind app length] in *. lia.
Qed.

(** A row of two cells and two rows of one cell print differently. *)
Lemma printGrid_inj_witness :
  printGrid [[RESIDENTIAL; EMPTY]] ≠ printGrid [[RESIDENTIAL]; [EMPTY]] ∧
  length (printGrid [[RESIDENTIAL; EMPTY]]) = 5%nat ∧
  length (printGrid [[RESIDENTIAL]; [EMPTY]]) = 6%nat.
Proof.
  split_and!.
  - apply (proj1 (proj2 (printGrid_inj [[RESIDENTIAL; EMPTY]] [[RESIDENTIAL]; [EMPTY]]))).
    discriminate.
  - exact (proj2 (proj2 (printGrid_inj [[RESIDENTIAL; EMPTY]] []))).
  - exact (proj2 (proj2 (printGrid_inj [[RESIDENTIAL]; [EMPTY]] []))).
Defined.

(** ** Grid generation *)

Lemma agents_to_place_ok (agentCounts : gmap CellType Z) (l : list CellType) :
  agents_to_place agentCounts = Ok l →
  l = agentTypes ≫= (λ t, replicate (Z.to_nat (default 0 (agentCounts !! t))) t) ∧
  ∀ t, t ∈ agentTypes → 0 ≤ default 0 (agentCounts !! t).
Proof.
  unfold agents_to_place, agentTypes. cbn [for_each].
  destruct (bool_decide_reflect (default 0 (agentCounts !! RESIDENTIAL) < 0));
    cbn [mbind outcome_bind]; [done|].
  destruct (bool_decide_reflect (default 0 (agentCounts !! OFFICE) < 0));
    cbn [mbind outcome_bind]; [done|].
  destruct (bool_decide_reflect (default 0 (agentCounts !! COM_SHOP) < 0));
    cbn [mbind outcome_bind]; [done|].
  destruct (bool_decide_reflect (default 0 (agentCounts !! COM_CAFE) < 0));
    cbn [mbind outcome_bind]; [done|].
  intros [= <-]. split.
  - cbn [mbind list_bind app]. by rewrite !app_nil_r, <- !app_assoc.
  - intros t Ht. repeat (apply elem_of_cons in Ht as [->|Ht]); try lia.
    by apply elem_of_nil in Ht.
Qed.

Lemma agents_to_place_agents (agentCounts : gmap CellType Z) (l : list CellType) :
  agents_to_place agentCounts = Ok l → Forall (λ a, a ∈ agentTypes) l.
Proof.
  intros [-> _]%agents_to_place_ok. apply Forall_forall.
  intros a (t & Ha & Ht)%list_elem_of_bind.
  by apply elem_of_replicate in Ha as [-> _].
Qed.

Lemma fill_up_ok n : ∀ l tape l' tape',
  fill_up n l tape = Ok (l', tape') →
  ∃ padding drawn,
    l' = l ++ padding ∧ length padding = n ∧ Forall (λ a, a ∈ agentTypes) padding ∧
    tape = drawn ++ tape' ∧ length drawn = n.
Proof.
  induction n as [|n IH]; intros l tape l' tape'; simpl.
  - intros [= <- <-]. exists [], []. by rewrite app_nil_r.
  - destruct tape as [|r tape]; [done|]. cbn [rand mbind outcome_bind].
    destruct (agentTypes !! _) as [a|] eqn:Ha; [|done]. cbn [or_undefined mbind outcome_bind].
    intros (padding & drawn & -> & Hp & Hag & -> & Hd)%IH.
    exists (a :: padding), (r :: drawn). rewrite <- app_assoc. simpl.
    split_and!; try done; [lia| |lia].
    constructor; [|done]. by eapply list_elem_of_lookup_2.
Qed.

Lemma agent_counts_ok agentPercentages availableCells (agentCounts : gmap CellType Z) :
  agent_counts agentPercentages availableCells = Ok agentCounts →
  ∀ t, t ∈ agentTypes →
    int_of_double (default 0%float (agentPercentages !! t)
                   * double_of_int availableCells)%float
    = Ok (default 0 (agentCounts !! t)).
Proof.
  unfold agent_counts, agentTypes. cbn [for_each]. intros H.
  inv_bind H. injection H as <-.
  apply bind_Ok in E as (n1 & E & [= <-]). apply bind_Ok in E0 as (n2 & E0 & [= <-]).
  apply bind_Ok in E1 as (n3 & E1 & [= <-]). apply bind_Ok in E2 as (n4 & E2 & [= <-]).
  intros t Ht. repeat (apply elem_of_cons in Ht as [->|Ht]);
    [by simplify_map_eq..|by apply elem_of_nil in Ht].
Qed.

Lemma NoDup_positions ROWS COLS : NoDup (positions ROWS COLS).
Proof.
  unfold positions. apply NoDup_bind; [| |apply NoDup_seqZ].
  - intros i1 i2 p _ _ (j1 & Hp1 & _)%list_elem_of_bind (j2 & Hp2 & _)%list_elem_of_bind.
    apply list_elem_of_singleton in Hp1, Hp2. congruence.
  - intros i _. apply NoDup_bind; [| |apply NoDup_seqZ].
    + intros j1 j2 p _ _ Hp1%list_elem_of_singleton Hp2%list_elem_of_singleton.
      congruence.
    + intros j _. apply NoDup_singleton.
Qed.

Lemma agents_replicate_EMPTY n : filter (λ c, is_agent c) (replicate n EMPTY) = [].
Proof.
  induction n as [|n IH]; [done|]. simpl.
  rewrite filter_cons_False; [done|]. vm_compute. tauto.
Qed.

Lemma agents_all (l : list CellType) :
  Forall (λ a, a ∈ agentTypes) l → filter (λ c, is_agent c) l = l.
Proof.
  induction 1 as [|a l Ha _ IH]; [done|].
  rewrite filter_cons_True, IH; [done|]. by apply bool_decide_pack.
Qed.

Lemma filter_label_agents (t : CellType) (l : list CellType) :
  t ∈ agentTypes →
  filter (λ c, c = t) (filter (λ c, is_agent c) l) = filter (λ c, c = t) l.
Proof.
  intros Ht. induction l as [|c l IH]; [done|].
  destruct (decide (is_agent c)) as [Hc|Hc].
  - rewrite (filter_cons_True (λ c, is_agent c)) by done.
    rewrite !(filter_cons (λ c, c = t)), IH. done.
  - rewrite (filter_cons_False (λ c, is_agent c)) by done. rewrite IH.
    rewrite (filter_cons_False (λ c, c = t)); [done|].
    intros ->. apply Hc. by apply bool_decide_pack.
Qed.

Lemma filter_label_replicate (t t' : CellType) (n : nat) :
  length (filter (λ c, c = t) (replicate n t')) = if decide (t' = t) then n else 0%nat.
Proof.
  induction n as [|n IH]; simpl; [by case_decide|].
  rewrite filter_cons. destruct (decide (t' = t)); simpl; by rewrite IH.
Qed.

Lemma count_requested (n : CellType → Z) (t : CellType) :
  t ∈ agentTypes →
  length (filter (λ c, c = t) (agentTypes ≫= (λ t', replicate (Z.to_nat (n t')) t')))
  = Z.to_nat (n t).
Proof.
  intros Ht. unfold agentTypes in *. cbn [mbind list_bind].
  rewrite !filter_app, !length_app, !filter_label_replicate. simpl.
  repeat (apply elem_of_cons in Ht as [->|Ht]); [..|by apply elem_of_nil in Ht];
    repeat case_decide; try done; lia.
Qed.

Lemma length_requested (n : CellType → Z) :
  (∀ t, t ∈ agentTypes → 0 ≤ n t) →
  Z.of_nat (length (agentTypes ≫= (λ t', replicate (Z.to_nat (n t')) t')))
  = foldr (λ t s, n t + s) 0 agentTypes.
Proof.
  intros Hpos. unfold agentTypes in *. cbn [mbind list_bind foldr].
  rewrite !length_app, !length_replicate. simpl.
  pose proof (Hpos RESIDENTIAL ltac:(by repeat constructor)).
  pose proof (Hpos OFFICE ltac:(by repeat constructor)).
  pose proof (Hpos COM_SHOP ltac:(by repeat constructor)).
  pose proof (Hpos COM_CAFE ltac:(by repeat constructor)). lia.
Qed.

Section Generated.
Variables ROWS COLS : Z.
Variable random_shuffle : list CellType → list Z → outcome (list CellType * list Z).
Hypothesis shuffle_permutes :
  ∀ l tape l' tape', random_shuffle l tape = Ok (l', tape') → l' ≡ₚ l.

Lemma scan_ok (g : Grid) :
  shaped ROWS COLS g →
  ∃ fixedCells,
    for_each (seqZ 0 ROWS) (λ i, for_each (seqZ 0 COLS) (scan_cell g i)) (0, [])
    = Ok (fixedCells, empty_cells ROWS COLS g).
Proof.
  intros Hs. rewrite (for_each_positions ROWS COLS (scan_cell g)).
  set (f := λ (s : Z * list pos) (p : pos),
         if bool_decide (label_at g p ≠ EMPTY) && bool_decide (label_at g p ∉ landUseTypes)
         then (s.1 + 1, s.2)
         else if bool_decide (label_at g p = EMPTY) then (s.1, s.2 ++ [p]) else s).
  rewrite (for_each_foldl f).
  - assert (∀ l s, (foldl f s l).2 = s.2 ++ filter (λ p, label_at g p = EMPTY) l) as H.
    { induction l as [|p l IH]; intros s; simpl; [by rewrite app_nil_r|].
      rewrite IH. unfold f. rewrite filter_cons.
      destruct (decide (label_at g p = EMPTY)) as [E|E].
      - rewrite E; simpl. by rewrite <- app_assoc.
      - rewrite (bool_decide_eq_false_2 _ E).
        by destruct (_ && _). }
    exists (foldl f (0, []) (positions ROWS COLS)).1.
    f_equal. rewrite (surjective_pairing (foldl _ _ _)). f_equal. apply H.
  - intros [i j] [n l] Hin%elem_of_positions. unfold scan_cell, f. cbn [fst snd].
    rewrite (read2_label ROWS COLS g Hs i j Hin); cbn [mbind outcome_bind fst snd].
    by repeat case_match.
Qed.

(** The assignment loop: cells off the list keep their label, cells on it
    get an entry of [agentsToPlace]. *)
Lemma place_cells_ok (agentsToPlace : list CellType) (cells : list pos) :
  ∀ g index g' index',
    for_each cells (place_cell agentsToPlace) (g, index) = Ok (g', index') →
    (shaped ROWS COLS g → shaped ROWS COLS g') ∧
    (∀ x y, (x, y) ∉ cells → at2 g' x y = at2 g x y) ∧
    (∀ x y, (x, y) ∈ cells → ∃ a, a ∈ agentsToPlace ∧ at2 g' x y = Some a).
Proof.
  induction cells as [|[cx cy] cells IH]; intros g index g' index' H; simpl in H.
  - injection H as <- <-. split_and!; [done|done|]. by intros x y ?%elem_of_nil.
  - unfold place_cell at 1 in H. cbn [fst snd] in H.
    destruct (agentsToPlace !! Z.to_nat index) as [a|] eqn:Ha; [|done].
    cbn [or_undefined mbind outcome_bind] in H. unfold write2 in H.
    destruct (at2 g cx cy) as [c|] eqn:Hc; [|done]. cbn [mbind outcome_bind] in H.
    destruct (IH _ _ _ _ H) as (Hshape & Hout & Hin).
    pose proof (proj1 (at2_Some _ _ _ _) Hc) as (Hx & Hy & _).
    split_and!.
    + intros Hs. by apply Hshape, set2_shaped.
    + intros x y Hxy. rewrite Hout by (intros ?; apply Hxy; by right).
      apply at2_set2_ne; [done..|]. intros E. apply Hxy. rewrite E. by left.
    + intros x y Hxy. destruct (decide ((x, y) ∈ cells)) as [Hr|Hr]; [by apply Hin|].
      apply elem_of_cons in Hxy as [[= -> ->]|]; [|done].
      exists a. split; [by eapply list_elem_of_lookup_2|].
      rewrite Hout by done. by eapply at2_set2_eq.
Qed.

(** What [generateGrid_input] does to the cells. *)
Lemma generateGrid_input_cells g agentPercentages tape g' tape' :
  shaped ROWS COLS g →
  generateGrid_input ROWS COLS random_shuffle g agentPercentages tape = Ok (g', tape') →
  shaped ROWS COLS g' ∧
  (∀ x y c, at2 g x y = Some c → c ≠ EMPTY → at2 g' x y = Some c) ∧
  (∀ x y, at2 g x y = Some EMPTY → ∃ a, at2 g' x y = Some a ∧ is_agent a = true).
Proof.
  intros Hs H. unfold generateGrid_input in H. inv_bind H.
  destruct (scan_ok g Hs) as [n Hscan]. rewrite Hscan in E0. injection E0 as <- <-.
  apply agents_to_place_agents in E2.
  apply fill_up_ok in E3 as (padding & drawn & -> & _ & Hpad & _).
  apply shuffle_permutes in E4.
  destruct (place_cells_ok _ _ _ _ _ _ E5) as (Hshape & Hout & Hin).
  injection H as <- <-. split_and!; [auto| |].
  - intros x y c Hc Hne. rewrite Hout; [done|].
    intros [Hl _]%list_elem_of_filter. unfold label_at in Hl; simpl in Hl.
    rewrite Hc in Hl. by simpl in Hl.
  - intros x y Hc. destruct (Hin x y) as (c & Ha & Hxy).
    + apply list_elem_of_filter. split.
      * unfold label_at; simpl. by rewrite Hc.
      * apply elem_of_positions. by eapply at2_in_grid.
    + exists c. split; [done|]. apply bool_decide_eq_true_2.
      rewrite E4 in Ha. apply elem_of_app in Ha as [Ha|Ha].
      * by apply (proj1 (Forall_forall _ _) E2).
      * by apply (proj1 (Forall_forall _ _) Hpad).
Qed.

(** The assignment loop on cells that are empty and listed once: the
    entries of [agentsToPlace] from [index] on replace as many [EMPTY]s. *)
Lemma place_cells_perm (agentsToPlace : list CellType) (cells : list pos) :
  NoDup cells →
  ∀ g index g' index', 0 ≤ index →
    (∀ p, p ∈ cells → at2 g p.1 p.2 = Some EMPTY) →
    for_each cells (place_cell agentsToPlace) (g, index) = Ok (g', index') →
    replicate (length cells) EMPTY ++ concat g'
    ≡ₚ take (length cells) (drop (Z.to_nat index) agentsToPlace) ++ concat g.
Proof.
  induction 1 as [|[cx cy] cells Hnin Hnd IH]; intros g index g' index' Hi Hempty H;
    simpl in H.
  - by injection H as <- <-.
  - unfold place_cell at 1 in H. cbn [fst snd] in H.
    destruct (agentsToPlace !! Z.to_nat index) as [a|] eqn:Ha; [|done].
    cbn [or_undefined mbind outcome_bind] in H.
    pose proof (Hempty (cx, cy) ltac:(left)) as Hc; simpl in Hc.
    rewrite (write2_ok _ _ _ _ _ Hc) in H. cbn [mbind outcome_bind] in H.
    pose proof (proj1 (at2_Some _ _ _ _) Hc) as (Hx & Hy & _).
    apply IH in H; [|lia|].
    + rewrite (drop_S _ _ _ Ha). simpl.
      replace (Z.to_nat (index + 1)) with (S (Z.to_nat index)) in H by lia.
      rewrite H. rewrite Permutation_middle.
      rewrite (set2_concat_perm _ _ _ _ a Hc). by rewrite <- Permutation_middle.
    + intros [px py] Hp; simpl. rewrite at2_set2_ne; [|done..|].
      * apply (Hempty (px, py)). by right.
      * intros [= -> ->]. by apply Hnin.
Qed.

(** The agents [generateGrid_input] adds, when the shares do not ask for more
    than there are empty cells: the requested ones, and one drawn at random
    for each cell that this leaves over. *)
Lemma generateGrid_input_agents g agentPercentages tape g' tape' :
  shaped ROWS COLS g →
  generateGrid_input ROWS COLS random_shuffle g agentPercentages tape = Ok (g', tape') →
  ∃ agentCounts : gmap CellType Z,
    (∀ t, t ∈ agentTypes →
       int_of_double (default 0%float (agentPercentages !! t)
                      * double_of_int (Z.of_nat (length (empty_cells ROWS COLS g))))%float
       = Ok (default 0 (agentCounts !! t)) ∧
       0 ≤ default 0 (agentCounts !! t)) ∧
    let requested :=
      agentTypes ≫= (λ t, replicate (Z.to_nat (default 0 (agentCounts !! t))) t) in
    ((length requested ≤ length (empty_cells ROWS COLS g))%nat →
     ∃ padding,
       (length requested + length padding = length (empty_cells ROWS COLS g))%nat ∧
       Forall (λ a, a ∈ agentTypes) padding ∧
       agents g' ≡ₚ requested ++ padding ++ agents g).
Proof.
  intros Hs H. unfold generateGrid_input in H. inv_bind H.
  destruct (scan_ok g Hs) as [n Hscan]. rewrite Hscan in E0. injection E0 as <- <-.
  pose proof (agent_counts_ok _ _ _ E1) as Hcounts.
  pose proof (agents_to_place_agents _ _ E2) as Hreq.
  apply agents_to_place_ok in E2 as [-> Hpos].
  apply fill_up_ok in E3 as (padding & drawn & -> & Hlen & Hpad & _).
  apply shuffle_permutes in E4. injection H as <- <-.
  exists a0. split; [by auto|]. intros requested Hfit. subst requested.
  set (requested := agentTypes ≫= _) in *.
  exists padding. split; [lia|]. split; [done|].
  apply place_cells_perm in E5; [|apply NoDup_filter, NoDup_positions|done|].
  - pose proof (Permutation_length E4) as Hl2. rewrite length_app in Hl2.
    rewrite drop_0, take_ge in E5 by lia.
    unfold agents.
    apply (filter_Permutation (λ c, is_agent c)) in E5.
    rewrite !filter_app, agents_replicate_EMPTY in E5. simpl in E5.
    rewrite E5, (agents_all l2), E4, <- app_assoc; [done|].
    rewrite E4. by apply Forall_app.
  - intros [x y] [Hl Hin%elem_of_positions]%list_elem_of_filter; simpl.
    destruct (at2_shaped ROWS COLS g x y Hs Hin) as [c Hc].
    unfold label_at in Hl; simpl in Hl. rewrite Hc in Hl. simpl in Hl. by subst.
Qed.

(** [generateGrid_input] fills the empty cells and nothing else: the grid
    keeps its shape, every cell that held a label keeps it, every cell that
    was empty holds an agent label afterwards, and no cell is left empty. *)
Theorem generateGrid_input_fills g agentPercentages tape g' tape' :
  shaped ROWS COLS g →
  generateGrid_input ROWS COLS random_shuffle g agentPercentages tape = Ok (g', tape') →
  shaped ROWS COLS g' ∧
  (∀ x y c, at2 g x y = Some c → c ≠ EMPTY → at2 g' x y = Some c) ∧
  (∀ x y, at2 g x y = Some EMPTY → ∃ a, at2 g' x y = Some a ∧ is_agent a = true) ∧
  (∀ x y, at2 g' x y ≠ Some EMPTY).
Proof.
  intros Hs H.
  destruct (generateGrid_input_cells _ _ _ _ _ Hs H) as (Hs' & Hkept & Hfilled).
  split_and!; try done. intros x y Hxy.
  destruct (at2_shaped ROWS COLS g x y Hs (at2_in_grid ROWS COLS g' x y _ Hs' Hxy))
    as [c Hc].
  destruct (decide (c = EMPTY)) as [->|Hne].
  - destruct (Hfilled x y Hc) as (a & Ha & Hag). by assert (a = EMPTY) as -> by congruence.
  - specialize (Hkept x y c Hc Hne). congruence.
Qed.

(** The grid [generateGrid_input] leaves bears the fixed-feature labels
    where the layout has them. *)
Lemma generateGrid_input_same_features g agentPercentages tape g' tape' :
  shaped ROWS COLS g →
  generateGrid_input ROWS COLS random_shuffle g agentPercentages tape = Ok (g', tape') →
  shaped ROWS COLS g' ∧ same_features g g'.
Proof.
  intros Hs H.
  destruct (generateGrid_input_cells _ _ _ _ _ Hs H) as (Hs' & Hkept & Hfilled).
  split; [done|]. intros x y t Ht.
  assert (t ≠ EMPTY) as Hne.
  { intros ->. unfold landUseTypes in Ht.
    repeat (apply elem_of_cons in Ht as [[=]|Ht]). by apply elem_of_nil in Ht. }
  split; intros Hxy; [by apply Hkept|].
  destruct (at2_shaped ROWS COLS g x y Hs (at2_in_grid ROWS COLS g' x y _ Hs' Hxy))
    as [c Hc].
  destruct (decide (c = EMPTY)) as [->|Hc'].
  - destruct (Hfilled x y Hc) as (a & Ha & Hag).
    assert (a = t) as -> by congruence.
    by destruct (is_agent_not_fixed t Hag) as [_ []].
  - specialize (Hkept x y c Hc Hc'). congruence.
Qed.

(** The distance fields can be computed from the layout or from the grid
    with the agents filled in: [generateGrid_input] does not change them. *)
Theorem generation_keeps_distance_fields g agentPercentages tape g' tape' fuel :
  shaped ROWS COLS g →
  generateGrid_input ROWS COLS random_shuffle g agentPercentages tape = Ok (g', tape') →
  computeDistanceMaps ROWS COLS fuel g' = computeDistanceMaps ROWS COLS fuel g.
Proof.
  intros Hs H.
  destruct (generateGrid_input_same_features _ _ _ _ _ Hs H) as [Hs' Hsame].
  unfold computeDistanceMaps. apply for_each_ext_in. intros t dms Ht.
  by rewrite (distance_map_same_features ROWS COLS fuel g g' t).
Qed.

(** When the shares do not ask for more agents than there are empty cells,
    every agent label gets at least the whole part of its share of the empty
    cells; and exactly that when the whole parts add up to the number of
    empty cells. *)
Theorem generateGrid_input_shares g agentPercentages tape g' tape' :
  shaped ROWS COLS g →
  generateGrid_input ROWS COLS random_shuffle g agentPercentages tape = Ok (g', tape') →
  ∃ n : CellType → Z,
    (∀ t, t ∈ agentTypes →
       int_of_double (default 0%float (agentPercentages !! t)
                      * double_of_int (Z.of_nat (length (empty_cells ROWS COLS g))))%float
       = Ok (n t) ∧ 0 ≤ n t) ∧
    let total := foldr (λ t s, n t + s) 0 agentTypes in
    (total ≤ Z.of_nat (length (empty_cells ROWS COLS g)) →
     ∀ t, t ∈ agentTypes →
       Z.of_nat (count_label t g) + n t ≤ Z.of_nat (count_label t g') ∧
       (total = Z.of_nat (length (empty_cells ROWS COLS g)) →
        Z.of_nat (count_label t g') = Z.of_nat (count_label t g) + n t)).
Proof.
  intros Hs H.
  destruct (generateGrid_input_agents _ _ _ _ _ Hs H) as (agentCounts & Hn & Hperm).
  exists (λ t, default 0 (agentCounts !! t)). split; [done|].
  intros total Hfit t Ht. subst total.
  rewrite <- length_requested in * by (intros; by apply Hn).
  destruct Hperm as (padding & Hlen & Hpad & Hperm); [lia|].
  assert (count_label t g' =
          (Z.to_nat (default 0%Z (agentCounts !! t))
           + length (filter (λ c, c = t) padding) + count_label t g)%nat) as ->.
  { unfold count_label. rewrite <- (filter_label_agents t (concat g')) by done.
    fold (agents g'). rewrite Hperm, !filter_app, !length_app.
    rewrite (count_requested (λ t, default 0 (agentCounts !! t))) by done.
    unfold agents. rewrite filter_label_agents by done. lia. }
  destruct (Hn t Ht) as [_ Hpos]. split; [lia|]. intros Htotal.
  assert (padding = []) as -> by (apply length_zero_iff_nil; lia). simpl. lia.
Qed.

End Generated.

Lemma swap_entries_perm {A} (l : list A) (i j : nat) : swap_entries l i j ≡ₚ l.
Proof.
  unfold swap_entries.
  destruct (l !! i) as [a|] eqn:Hi; [|done].
  destruct (l !! j) as [b|] eqn:Hj; [|done].
  apply (Permutation_cons_inv (a := b)).
  assert (<[i := b]> l !! j = Some b) as Hj'.
  { destruct (decide (i = j)) as [->|Hne].
    - apply list_lookup_insert_eq. by eapply lookup_lt_Some.
    - by rewrite list_lookup_insert_ne. }
  rewrite (insert_cons_perm _ j b a Hj'). apply (insert_cons_perm l i a b Hi).
Qed.

Lemma random_shuffle_gnu_permutes l tape l' tape' :
  random_shuffle_gnu l tape = Ok (l', tape') → l' ≡ₚ l.
Proof.
  unfold random_shuffle_gnu. generalize (seq 1 (length l - 1)) as idxs.
  intros idxs. revert l tape.
  induction idxs as [|i idxs IH]; intros l tape H; simpl in H.
  - by injection H as <- <-.
  - destruct tape as [|r tape]; [done|]. cbn [rand mbind outcome_bind] in H.
    apply IH in H. by rewrite H, swap_entries_perm.
Qed.

Lemma generateGrid_input_fills_witness :
  shaped 2 3 sample_filled ∧
  (∀ x y c, at2 sample_layout x y = Some c → c ≠ EMPTY →
     at2 sample_filled x y = Some c) ∧
  (∀ x y, at2 sample_layout x y = Some EMPTY →
     ∃ a, at2 sample_filled x y = Some a ∧ is_agent a = true) ∧
  (∀ x y, at2 sample_filled x y ≠ Some EMPTY).
Proof.
  apply (generateGrid_input_fills 2 3 random_shuffle_gnu random_shuffle_gnu_permutes
           sample_layout sample_shares [2; 1; 0; 2; 9] sample_filled [9]).
  - apply shaped_check_sound. vm_compute. reflexivity.
  - vm_compute. reflexivity.
Defined.

Lemma generation_keeps_distance_fields_witness :
  computeDistanceMaps 2 3 6 sample_filled = computeDistanceMaps 2 3 6 sample_layout.
Proof.
  apply (generation_keeps_distance_fields 2 3 random_shuffle_gnu
           random_shuffle_gnu_permutes sample_layout sample_shares [2; 1; 0; 2; 9]
           sample_filled [9] 6).
  - apply shaped_check_sound. vm_compute. reflexivity.
  - vm_compute. reflexivity.
Defined.

Lemma generateGrid_input_shares_witness :
  ∃ n : CellType → Z,
    (∀ t, t ∈ agentTypes →
       int_of_double (default 0%float (sample_shares !! t)
                      * double_of_int (Z.of_nat (length (empty_cells 2 3 sample_layout))))%float
       = Ok (n t) ∧ 0 ≤ n t) ∧
    let total := foldr (λ t s, n t + s) 0 agentTypes in
    (total ≤ Z.of_nat (length (empty_cells 2 3 sample_layout)) →
     ∀ t, t ∈ agentTypes →
       Z.of_nat (count_label t sample_layout) + n t ≤ Z.of_nat (count_label t sample_filled) ∧
       (total = Z.of_nat (length (empty_cells 2 3 sample_layout)) →
        Z.of_nat (count_label t sample_filled)
        = Z.of_nat (count_label t sample_layout) + n t)).
Proof.
  apply (generateGrid_input_shares 2 3 random_shuffle_gnu random_shuffle_gnu_permutes
           sample_layout sample_shares [2; 1; 0; 2; 9] sample_filled [9]).
  - apply shaped_check_sound. vm_compute. reflexivity.
  - vm_compute. reflexivity.
Defined.

(** ** The cells of a grid, in loop order *)

Lemma seq_lookup_bind {A B} (f : option A → list B) (l : list A) : ∀ pre,
  (i ← seq (length pre) (length l); f ((pre ++ l) !! i)) = l ≫= (f ∘ Some).
Proof.
  induction l as [|a l IH]; intros pre; [done|].
  cbn [length seq]. rewrite !bind_cons. f_equal.
  - simpl. by rewrite list_lookup_middle.
  - specialize (IH (pre ++ [a])). rewrite length_app, Nat.add_1_r, <- app_assoc in IH.
    apply IH.
Qed.

Lemma fmap_bind {A B C} (g : B → C) (f : A → list B) (l : list A) :
  g <$> (l ≫= f) = l ≫= (λ x, g <$> f x).
Proof.
  induction l as [|a l IH]; [done|]. by rewrite !bind_cons, fmap_app, IH.
Qed.

Lemma concat_bind {A} (m : matrix A) : concat m = m ≫= id.
Proof. induction m as [|row m IH]; [done|]. by rewrite bind_cons, <- IH. Qed.

Lemma positions_seq ROWS COLS :
  positions ROWS COLS
  = i ← seq 0 (Z.to_nat ROWS); j ← seq 0 (Z.to_nat COLS); [(Z.of_nat i, Z.of_nat j)].
Proof.
  unfold positions, seqZ. rewrite list_fmap_bind. apply list_bind_ext; [|done].
  intros i. simpl. rewrite list_fmap_bind. apply list_bind_ext; [|done].
  intros j. simpl. do 2 f_equal; lia.
Qed.

(** The labels at [positions] are the cells of the grid, row after row. *)
Lemma labels_positions ROWS COLS (g : Grid) :
  shaped ROWS COLS g → label_at g <$> positions ROWS COLS = concat g.
Proof.
  intros [Hlen Hrows]. rewrite positions_seq, fmap_bind, concat_bind, <- Hlen.
  set (G := λ o : option (list CellType),
         j ← seq 0 (Z.to_nat COLS); [default EMPTY (o ≫= (.!! j))]).
  trans (i ← seq 0 (length g); G (g !! i)).
  { apply list_bind_ext; [|done]. intros i. rewrite fmap_bind.
    apply list_bind_ext; [|done]. intros j. simpl. unfold label_at, at2; simpl.
    rewrite bool_decide_eq_true_2 by lia. by rewrite !Nat2Z.id. }
  pose proof (seq_lookup_bind G g []) as HG. cbn [length app] in HG. rewrite HG.
  apply Forall_bind_ext.
  eapply Forall_impl; [done|]. intros row Hrow. unfold G; simpl. rewrite <- Hrow.
  pose proof (seq_lookup_bind (λ o, [default EMPTY o]) row []) as Hr.
  cbn [length app] in Hr. simpl. rewrite Hr. simpl.
  clear. induction row as [|a row IH]; [done|]. by rewrite bind_cons, IH.
Qed.

Lemma count_positions ROWS COLS (g : Grid) (P : CellType → Prop)
    `{∀ c, Decision (P c)} :
  shaped ROWS COLS g →
  length (filter (λ p, P (label_at g p)) (positions ROWS COLS))
  = length (filter P (concat g)).
Proof.
  intros Hs. rewrite <- (labels_positions ROWS COLS g Hs).
  induction (positions ROWS COLS) as [|p l IH]; [done|].
  rewrite fmap_cons, !filter_cons. simpl. by destruct (decide (P (label_at g p))); simpl; rewrite IH.
Qed.

Lemma count_absent (t : CellType) (l : list CellType) :
  t ∉ l → length (filter (λ c, c = t) l) = 0%nat.
Proof.
  induction l as [|c l IH]; [done|]. intros Hn.
  rewrite filter_cons_False.
  - apply IH. intros Hin. apply Hn. by right.
  - intros ->. apply Hn. by left.
Qed.

Lemma count_features (k : nat) (t : CellType) :
  length (filter (λ c, c = t) (landUseTypes ≫= replicate k))
  = if decide (t ∈ landUseTypes) then k else 0%nat.
Proof.
  unfold landUseTypes. cbn [mbind list_bind].
  rewrite !filter_app, !length_app, !filter_label_replicate. simpl.
  destruct (decide (t ∈ [TRANSPORT; PUBLIC; LANDSCAPE; ROAD])) as [Ht|Ht].
  - apply list_elem_of_In in Ht. simpl in Ht.
    destruct Ht as [<-|[<-|[<-|[<-|[]]]]]; by repeat case_decide.
  - repeat case_decide; try done; subst t; exfalso; apply Ht;
      apply list_elem_of_In; simpl; tauto.
Qed.

Lemma agents_features (k : nat) :
  filter (λ c, is_agent c) (landUseTypes ≫= replicate k) = [].
Proof.
  unfold landUseTypes. cbn [mbind list_bind]. rewrite !filter_app. simpl.
  assert (∀ t, is_agent t = false → filter (λ c, is_agent c) (replicate k t) = []) as H.
  { intros t Ht. induction k as [|k IH]; [done|]. simpl.
    rewrite filter_cons_False; [done|]. rewrite Ht. intros []. }
  by rewrite !H.
Qed.

Lemma features_per_type_nonneg n : 0 ≤ features_per_type n.
Proof.
  unfold features_per_type, size_t_of_int. apply Z.div_pos; [|done].
  by apply Z.mod_pos_bound.
Qed.

(** ** generateGrid_random *)

Section RandomGrid.
Variables ROWS COLS : Z.
Variable random_shuffle : list CellType → list Z → outcome (list CellType * list Z).
Hypothesis shuffle_permutes :
  ∀ l tape l' tape', random_shuffle l tape = Ok (l', tape') → l' ≡ₚ l.

(** The loops that empty the grid. *)
Lemma clear_ok (cells : list pos) : ∀ g g',
  for_each cells (λ p g, write2 g p.1 p.2 EMPTY) g = Ok g' →
  (shaped ROWS COLS g → shaped ROWS COLS g') ∧
  (∀ x y, at2 g x y = Some EMPTY → at2 g' x y = Some EMPTY) ∧
  (∀ p, p ∈ cells → at2 g' p.1 p.2 = Some EMPTY).
Proof.
  induction cells as [|[cx cy] cells IH]; intros g g' H; simpl in H.
  - injection H as <-. split; [done|]. split; [done|]. by intros p ?%elem_of_nil.
  - cbn [fst snd] in H.
    destruct (at2 g cx cy) as [c|] eqn:Hc;
      [|by unfold write2 in H; rewrite Hc in H].
    rewrite (write2_ok _ _ _ _ _ Hc) in H. cbn [mbind outcome_bind] in H.
    pose proof (proj1 (at2_Some _ _ _ _) Hc) as (Hx & Hy & _).
    destruct (IH _ _ H) as (Hshape & Hkeep & Hset).
    assert (∀ x y, at2 g x y = Some EMPTY → at2 (set2 g cx cy EMPTY) x y = Some EMPTY)
      as Hstep.
    { intros x y Hxy. destruct (decide ((cx, cy) = (x, y))) as [[= <- <-]|Hne].
      - by eapply at2_set2_eq.
      - by rewrite at2_set2_ne. }
    split_and!.
    + intros Hs. by apply Hshape, set2_shaped.
    + intros x y Hxy. by apply Hkeep, Hstep.
    + intros p [->|Hp]%elem_of_cons; [|by apply Hset].
      simpl. apply Hkeep. by eapply at2_set2_eq.
Qed.

(** Whatever [pick_empty] returns is an empty cell. *)
Lemma pick_empty_ok g tape p tape' :
  pick_empty ROWS COLS g tape = Ok (p, tape') → at2 g p.1 p.2 = Some EMPTY.
Proof.
  revert p tape'. induction tape as [|r|r1 r2 tape IH] using list_pair_ind;
    intros p tape'; simpl; try done.
  case_bool_decide; [done|]. unfold read2.
  destruct (at2 g (Z.rem r1 ROWS) (Z.rem r2 COLS)) as [c|] eqn:Hc; [|done]. simpl.
  case_bool_decide as Hc'; [|by apply IH].
  intros [= <- <-]. by subst.
Qed.

(** Each turn of the placement loop turns one empty cell into a cell of the
    label. *)
Lemma place_features_perm t (idxs : list Z) : ∀ g tape g' tape',
  for_each idxs (place_feature ROWS COLS t) (g, tape) = Ok (g', tape') →
  (shaped ROWS COLS g → shaped ROWS COLS g') ∧
  replicate (length idxs) EMPTY ++ concat g' ≡ₚ replicate (length idxs) t ++ concat g.
Proof.
  induction idxs as [|i idxs IH]; intros g tape g' tape' H; simpl in H.
  - by injection H as <- <-.
  - unfold place_feature at 1 in H.
    destruct (pick_empty ROWS COLS g tape) as [[[x y] tape1]| | | |] eqn:Hpick; try done.
    cbn [mbind outcome_bind fst snd] in H.
    pose proof (pick_empty_ok _ _ _ _ Hpick) as Hc; simpl in Hc.
    rewrite (write2_ok _ _ _ _ _ Hc) in H. cbn [mbind outcome_bind] in H.
    case_bool_decide; [|done]. cbn [mbind outcome_bind] in H.
    destruct (IH _ _ _ _ H) as [Hshape Hperm]. split.
    + intros Hs. by apply Hshape, set2_shaped.
    + simpl. rewrite Hperm, Permutation_middle.
      rewrite (set2_concat_perm _ _ _ _ t Hc). by rewrite <- Permutation_middle.
Qed.

(** The loops that assign the agents. *)
Lemma fill_ok (agentsToPlace : list CellType) (cells : list pos) :
  Forall (λ a, a ∈ agentTypes) agentsToPlace →
  ∀ g index g' index', 0 ≤ index →
    for_each cells (λ p, fill_cell agentsToPlace p.1 p.2) (g, index) = Ok (g', index') →
    (shaped ROWS COLS g → shaped ROWS COLS g') ∧
    index ≤ index' ∧
    (index ≤ Z.of_nat (length agentsToPlace) → index' ≤ Z.of_nat (length agentsToPlace)) ∧
    replicate (Z.to_nat (index' - index)) EMPTY ++ concat g'
    ≡ₚ take (Z.to_nat (index' - index)) (drop (Z.to_nat index) agentsToPlace)
       ++ concat g ∧
    (∀ x y, at2 g x y ≠ Some EMPTY → at2 g' x y ≠ Some EMPTY) ∧
    (index' < Z.of_nat (length agentsToPlace) →
     ∀ p, p ∈ cells → at2 g' p.1 p.2 ≠ Some EMPTY).
Proof.
  intros Hagents.
  induction cells as [|[cx cy] cells IH]; intros g index g' index' Hi H; simpl in H.
  - injection H as <- <-. rewrite Z.sub_diag. simpl.
    split_and!; try done; try lia. by intros _ p ?%elem_of_nil.
  - unfold fill_cell at 1 in H. cbn [fst snd] in H.
    case_bool_decide as Hlt.
    + unfold read2 in H. destruct (at2 g cx cy) as [c|] eqn:Hc; [|done].
      cbn [or_undefined mbind outcome_bind] in H.
      case_bool_decide as Hempty.
      * subst c.
        destruct (agentsToPlace !! Z.to_nat index) as [a|] eqn:Ha; [|done].
        cbn [or_undefined mbind outcome_bind] in H.
        rewrite (write2_ok _ _ _ _ _ Hc) in H. cbn [mbind outcome_bind] in H.
        pose proof (proj1 (at2_Some _ _ _ _) Hc) as (Hx & Hy & _).
        assert (a ≠ EMPTY) as Hne.
        { intros ->. apply list_elem_of_lookup_2 in Ha.
          apply (proj1 (Forall_forall _ _) Hagents) in Ha.
          apply list_elem_of_In in Ha. simpl in Ha. intuition discriminate. }
        assert (∀ x y, at2 g x y ≠ Some EMPTY →
                  at2 (set2 g cx cy a) x y ≠ Some EMPTY) as Hstep.
        { intros x y Hxy. destruct (decide ((cx, cy) = (x, y))) as [[= <- <-]|Hn].
          - rewrite (at2_set2_eq _ _ _ _ _ Hc). congruence.
          - by rewrite at2_set2_ne. }
        assert (0 ≤ index + 1) as Hi' by lia.
        destruct (IH _ _ _ _ Hi' H) as (Hshape & Hle & Hmax & Hperm & Hmono & Hfull).
        split_and!.
        -- intros Hs. by apply Hshape, set2_shaped.
        -- lia.
        -- lia.
        -- replace (Z.to_nat (index' - index))
             with (S (Z.to_nat (index' - (index + 1)))) by lia.
           rewrite (drop_S _ _ _ Ha). simpl.
           replace (Z.to_nat (index + 1)) with (S (Z.to_nat index)) in Hperm by lia.
           rewrite Hperm, Permutation_middle.
           rewrite (set2_concat_perm _ _ _ _ a Hc). by rewrite <- Permutation_middle.
        -- intros x y Hxy. by apply Hmono, Hstep.
        -- intros Hlt' p [->|Hp]%elem_of_cons; [|by apply Hfull].
           simpl. apply Hmono. rewrite (at2_set2_eq _ _ _ _ _ Hc). congruence.
      * destruct (IH _ _ _ _ Hi H) as (Hshape & Hle & Hmax & Hperm & Hmono & Hfull).
        split_and!; try done.
        intros Hlt' p [->|Hp]%elem_of_cons; [|by apply Hfull].
        simpl. apply Hmono. congruence.
    + destruct (IH _ _ _ _ Hi H) as (Hshape & Hle & Hmax & Hperm & Hmono & Hfull).
      split_and!; try done. intros Hlt'. lia.
Qed.

(** The loops that count the cells that are not empty. *)
Lemma count_ok g :
  shaped ROWS COLS g →
  for_each (seqZ 0 ROWS) (λ i, for_each (seqZ 0 COLS) (count_cell g i)) 0
  = Ok (Z.of_nat (length (filter (λ c, c ≠ EMPTY) (concat g)))).
Proof.
  intros Hs. rewrite (for_each_positions ROWS COLS (count_cell g)).
  rewrite <- (count_positions ROWS COLS g (λ c, c ≠ EMPTY) Hs).
  set (f := λ (n : Z) (p : pos), if bool_decide (label_at g p ≠ EMPTY) then n + 1 else n).
  rewrite (for_each_foldl f).
  - f_equal.
    assert (∀ l n, foldl f n l
                   = n + Z.of_nat (length (filter (λ p, label_at g p ≠ EMPTY) l))) as Hf.
    { induction l as [|p l IH]; intros n; simpl; [lia|].
      rewrite IH, filter_cons. unfold f.
      destruct (decide (label_at g p ≠ EMPTY)) as [E|E].
      - rewrite (bool_decide_eq_true_2 _ E). simpl. lia.
      - rewrite (bool_decide_eq_false_2 _ E). lia. }
    by rewrite Hf.
  - intros [i j] n Hin%elem_of_positions. unfold count_cell, f. cbn [fst snd].
    rewrite (read2_label ROWS COLS g Hs i j Hin). cbn [mbind outcome_bind].
    by case_bool_decide.
Qed.

(** All the placement loops. *)
Lemma features_perm (types : list CellType) (idxs : list Z) : ∀ g tape g' tape',
  for_each types (λ t, for_each idxs (place_feature ROWS COLS t)) (g, tape)
  = Ok (g', tape') →
  (shaped ROWS COLS g → shaped ROWS COLS g') ∧
  replicate (length types * length idxs) EMPTY ++ concat g'
  ≡ₚ (types ≫= replicate (length idxs)) ++ concat g.
Proof.
  induction types as [|t types IH]; intros g tape g' tape' H; simpl in H.
  - by injection H as <- <-.
  - apply bind_Ok in H as ([g1 tape1] & H1 & H).
    destruct (place_features_perm _ _ _ _ _ _ H1) as [Hs1 P1].
    destruct (IH _ _ _ _ H) as [Hs2 P2]. split; [auto|].
    cbn [length]. rewrite bind_cons. simpl. rewrite replicate_add, <- !app_assoc.
    rewrite P2, (Permutation_app_swap_app (replicate _ EMPTY)), P1.
    by rewrite (Permutation_app_swap_app (types ≫= _)).
Qed.

(** The stages of [generateGrid_random]: the grid [g2] with the fixed
    features placed, the shuffled agents [l], and the number [m] of them that
    the last loops assign. *)
Lemma generateGrid_random_stages g agentPercentages tape g' tape' :
  shaped ROWS COLS g →
  generateGrid_random ROWS COLS random_shuffle g agentPercentages tape = Ok (g', tape') →
  let k := Z.to_nat (features_per_type (ROWS * COLS)) in
  ∃ (g2 : Grid) (agentCounts : gmap CellType Z) (l : list CellType) (m : nat),
    shaped ROWS COLS g2 ∧
    replicate (length landUseTypes * k) EMPTY ++ concat g2
    ≡ₚ (landUseTypes ≫= replicate k)
       ++ replicate (Z.to_nat ROWS * Z.to_nat COLS) EMPTY ∧
    agent_counts agentPercentages
      (ROWS * COLS - Z.of_nat (length (filter (λ c, c ≠ EMPTY) (concat g2))))
    = Ok agentCounts ∧
    (∀ t, t ∈ agentTypes → 0 ≤ default 0 (agentCounts !! t)) ∧
    l ≡ₚ agentTypes ≫= (λ t, replicate (Z.to_nat (default 0 (agentCounts !! t))) t) ∧
    Forall (λ a, a ∈ agentTypes) l ∧
    shaped ROWS COLS g' ∧
    (m ≤ length l)%nat ∧
    replicate m EMPTY ++ concat g' ≡ₚ take m l ++ concat g2 ∧
    ((m < length l)%nat → ∀ c, c ∈ concat g' → c ≠ EMPTY).
Proof.
  intros Hs H k. unfold generateGrid_random in H. inv_bind H. injection H as <- <-.
  rewrite (for_each_positions ROWS COLS (λ i j g, write2 g i j EMPTY)) in E.
  destruct (clear_ok _ _ _ E) as (Hs1 & _ & Hclear). specialize (Hs1 Hs).
  assert (concat a = replicate (Z.to_nat ROWS * Z.to_nat COLS) EMPTY) as Hg1.
  { symmetry. apply replicate_as_Forall. split.
    - rewrite <- (labels_positions ROWS COLS a Hs1), length_fmap.
      apply length_positions.
    - apply Forall_forall. intros c (x & y & Hc)%elem_of_concat_at2.
      pose proof (at2_in_grid ROWS COLS a x y c Hs1 Hc) as Hin.
      apply elem_of_positions in Hin. specialize (Hclear _ Hin). simpl in Hclear.
      congruence. }
  unfold total_cells in E0. case_bool_decide; [|done]. injection E0 as <-.
  destruct (features_perm landUseTypes _ _ _ _ _ E1) as [Hs2 P]. specialize (Hs2 Hs1).
  rewrite length_seqZ in P. fold k in P. rewrite Hg1 in P.
  rewrite (count_ok l Hs2) in E2. injection E2 as <-.
  pose proof (agents_to_place_agents _ _ E4) as Hreq.
  apply agents_to_place_ok in E4 as [-> Hpos].
  apply shuffle_permutes in E5.
  rewrite (for_each_positions ROWS COLS (fill_cell l1)) in E6.
  assert (Forall (λ a, a ∈ agentTypes) l1) as Hl1 by (by rewrite E5).
  destruct (fill_ok l1 _ Hl1 _ _ _ _ (Z.le_refl 0) E6)
    as (Hs' & Hle & Hmax & Hperm & _ & Hfull).
  rewrite Z.sub_0_r in Hperm. simpl in Hperm. rewrite drop_0 in Hperm.
  exists l, a2, l1, (Z.to_nat z). split_and!; try done.
  - auto.
  - lia.
  - intros Hlt c (x & y & Hc)%elem_of_concat_at2 ->.
    pose proof (at2_in_grid ROWS COLS _ x y _ (Hs' Hs2) Hc) as Hin.
    apply elem_of_positions in Hin. by apply (Hfull ltac:(lia) _ Hin).
Qed.

Lemma agent_not_feature (t : CellType) : t ∈ agentTypes → t ∈ landUseTypes → False.
Proof.
  intros H1%list_elem_of_In H2%list_elem_of_In. simpl in *. intuition congruence.
Qed.

(** [generateGrid_random] places the same number of cells of every
    fixed-feature label: a fifth of the cells, divided by the number of
    labels, both quotients rounded down. *)
Theorem generateGrid_random_features g agentPercentages tape g' tape' :
  shaped ROWS COLS g →
  generateGrid_random ROWS COLS random_shuffle g agentPercentages tape = Ok (g', tape') →
  shaped ROWS COLS g' ∧
  ∀ t, t ∈ landUseTypes →
    Z.of_nat (count_label t g') = features_per_type (ROWS * COLS).
Proof.
  intros Hs H.
  destruct (generateGrid_random_stages _ _ _ _ _ Hs H)
    as (g2 & agentCounts & l & m & _ & P1 & _ & _ & _ & Hl & Hs' & _ & P2 & _).
  split; [done|]. intros t Ht.
  assert (EMPTY ≠ t) as Hne.
  { intros <-. apply list_elem_of_In in Ht. simpl in Ht. intuition discriminate. }
  apply (filter_Permutation (λ c, c = t)), Permutation_length in P1, P2.
  rewrite !filter_app, !length_app in P1, P2.
  rewrite !filter_label_replicate, count_features, !decide_False, decide_True in P1
    by done.
  rewrite filter_label_replicate, decide_False in P2 by done.
  rewrite (count_absent t (take m l)) in P2.
  - destruct (decide (EMPTY = t)); [done|].
    unfold count_label. pose proof (features_per_type_nonneg (ROWS * COLS)). lia.
  - intros Hin%subseteq_take. apply (agent_not_feature t); [|done].
    by apply (proj1 (Forall_forall _ _) Hl).
Qed.

(** The agents [generateGrid_random] places. The fixed features take
    [4 * features_per_type] cells; the shares are taken of the cells that
    remain, each rounded down; and nothing makes up for the rounding: when the
    whole parts add up to less than the cells that remain, the difference
    stays empty. *)
Theorem generateGrid_random_agents g agentPercentages tape g' tape' :
  0 ≤ ROWS → 0 ≤ COLS →
  shaped ROWS COLS g →
  generateGrid_random ROWS COLS random_shuffle g agentPercentages tape = Ok (g', tape') →
  let available := ROWS * COLS - 4 * features_per_type (ROWS * COLS) in
  ∃ n : CellType → Z,
    (∀ t, t ∈ agentTypes →
       int_of_double (default 0%float (agentPercentages !! t)
                      * double_of_int available)%float = Ok (n t) ∧ 0 ≤ n t) ∧
    let total := foldr (λ t s, n t + s) 0 agentTypes in
    Z.of_nat (length (agents g')) = Z.min total available ∧
    Z.of_nat (count_label EMPTY g') = available - Z.min total available ∧
    (total ≤ available →
     agents g' ≡ₚ agentTypes ≫= (λ t, replicate (Z.to_nat (n t)) t)).
Proof.
  intros HR HC Hs H available.
  destruct (generateGrid_random_stages _ _ _ _ _ Hs H)
    as (g2 & agentCounts & l & m & Hs2 & P1 & Hcounts & Hpos & Hl & Hagents & Hs' & Hm
        & P2 & Hfull).
  pose proof (features_per_type_nonneg (ROWS * COLS)) as Hk.
  set (k := Z.to_nat (features_per_type (ROWS * COLS))) in *.
  (* the cells of [g2] *)
  assert (Z.of_nat k = features_per_type (ROWS * COLS)) as Hkz by (unfold k; lia).
  pose proof (Permutation_length P1) as Hlen.
  rewrite !length_app, !length_replicate in Hlen.
  rewrite (length_bind_const _ k) in Hlen by (intros; apply length_replicate).
  change (length landUseTypes) with 4%nat in *.
  pose proof (Permutation_length (filter_Permutation (λ c, c = EMPTY) _ _ P1)) as HE.
  rewrite !filter_app, !length_app, !filter_label_replicate, count_features in HE.
  assert (EMPTY ∉ landUseTypes) as Hnot.
  { intros Hin%list_elem_of_In. simpl in Hin. intuition discriminate. }
  rewrite !decide_True, decide_False in HE by done.
  destruct (decide (EMPTY = EMPTY)); [|done].
  pose proof (filter_length_split (λ c, c = EMPTY) (λ c, c ≠ EMPTY) (concat g2)
                ltac:(done)) as Hsplit.
  assert (ROWS * COLS
          - Z.of_nat (length (filter (λ c, c ≠ EMPTY) (concat g2))) = available) as Hav.
  { unfold available. lia. }
  rewrite Hav in Hcounts.
  pose proof (agent_counts_ok _ _ _ Hcounts) as Hn.
  exists (λ t, default 0 (agentCounts !! t)). split; [by auto|].
  intros total. subst total. rewrite <- length_requested by done.
  rewrite <- (Permutation_length Hl).
  (* the cells of [g'] *)
  pose proof (Permutation_length (filter_Permutation (λ c, c = EMPTY) _ _ P2)) as HE'.
  rewrite !filter_app, !length_app, !filter_label_replicate in HE'.
  rewrite !decide_True in HE' by done.
  try (destruct (decide (EMPTY = EMPTY)); [|done]).
  rewrite (count_absent EMPTY (take m l)) in HE'.
  2: { intros Hin%subseteq_take. apply (proj1 (Forall_forall _ _) Hagents) in Hin.
       apply list_elem_of_In in Hin. simpl in Hin. intuition discriminate. }
  assert (agents g2 = []) as Hg2.
  { apply Permutation_nil_r. unfold agents.
    pose proof (filter_Permutation (λ c, is_agent c) _ _ P1) as HP.
    rewrite !filter_app, !agents_replicate_EMPTY, agents_features in HP. by simpl in HP. }
  assert (agents g' ≡ₚ take m l) as Hg'.
  { unfold agents. pose proof (filter_Permutation (λ c, is_agent c) _ _ P2) as HP.
    rewrite !filter_app, agents_replicate_EMPTY in HP. simpl in HP.
    fold (agents g2) in HP. rewrite Hg2, app_nil_r in HP. rewrite HP.
    rewrite agents_all; [done|]. by apply Forall_take. }
  assert (m = Nat.min (length l) (Z.to_nat available)) as Hmin.
  { destruct (decide (m < length l)%nat) as [Hlt|Hge].
    - rewrite (count_absent EMPTY (concat g')) in HE'
        by (intros Hin; by apply (Hfull Hlt EMPTY Hin)).
      unfold available. nia.
    - unfold available. nia. }
  split_and!.
  - rewrite Hg', length_take_le by done. lia.
  - unfold count_label, available. nia.
  - intros Hfit. rewrite Hg', take_ge, Hl; [done|]. lia.
Qed.

End RandomGrid.

Lemma generateGrid_random_features_witness :
  shaped 5 5 sample_random ∧
  ∀ t, t ∈ landUseTypes →
    Z.of_nat (count_label t sample_random) = features_per_type (5 * 5).
Proof.
  apply (generateGrid_random_features 5 5 random_shuffle_gnu random_shuffle_gnu_permutes
           grid5 sample_shares sample_random_tape sample_random [14]).
  - apply shaped_check_sound. vm_compute. reflexivity.
  - vm_compute. reflexivity.
Defined.

Lemma generateGrid_random_agents_witness :
  let available := 5 * 5 - 4 * features_per_type (5 * 5) in
  ∃ n : CellType → Z,
    (∀ t, t ∈ agentTypes →
       int_of_double (default 0%float (sample_shares !! t)
                      * double_of_int available)%float = Ok (n t) ∧ 0 ≤ n t) ∧
    let total := foldr (λ t s, n t + s) 0 agentTypes in
    Z.of_nat (length (agents sample_random)) = Z.min total available ∧
    Z.of_nat (count_label EMPTY sample_random) = available - Z.min total available ∧
    (total ≤ available →
     agents sample_random ≡ₚ agentTypes ≫= (λ t, replicate (Z.to_nat (n t)) t)).
Proof.
  apply (generateGrid_random_agents 5 5 random_shuffle_gnu random_shuffle_gnu_permutes
           grid5 sample_shares sample_random_tape sample_random [14]).
  - lia.
  - lia.
  - apply shaped_check_sound. vm_compute. reflexivity.
  - vm_compute. reflexivity.
Defined.

(** ** main *)

Lemma same_features_trans (g1 g2 g3 : Grid) :
  same_features g1 g2 → same_features g2 g3 → same_features g1 g3.
Proof. intros H12 H23 x y t Ht. etrans; [by apply H12|by apply H23]. Qed.

Section MainReport.
Variable random_shuffle : list CellType → list Z → outcome (list CellType * list Z).
Variable exp : double → double.
Variable RAND_MAX : Z.
Hypothesis shuffle_permutes :
  ∀ l tape l' tape', random_shuffle l tape = Ok (l', tape') → l' ≡ₚ l.

Lemma source_layout_shares g tape tape' :
  generateGrid_input Source.ROWS Source.COLS random_shuffle Source.layout
    agentPercentages_src tape = Ok (g, tape') →
  agents g ≡ₚ replicate 45 RESIDENTIAL ++ replicate 25 OFFICE ++
              replicate 20 COM_SHOP ++ replicate 10 COM_CAFE.
Proof.
  intros H.
  assert (shaped Source.ROWS Source.COLS Source.layout) as Hs
    by (apply shaped_check_sound; by vm_compute).
  destruct (generateGrid_input_agents _ _ _ shuffle_permutes _ _ _ _ _ Hs H)
    as (agentCounts & Hn & Hperm).
  assert (length (empty_cells Source.ROWS Source.COLS Source.layout) = 100%nat) as Hlen
    by (by vm_compute).
  rewrite Hlen in *.
  assert (default 0 (agentCounts !! RESIDENTIAL) = 45) as HR.
  { destruct (Hn RESIDENTIAL ltac:(by repeat constructor)) as [E _].
    replace (int_of_double _) with (Ok 45 : outcome Z) in E by (by vm_compute).
    by injection E as <-. }
  assert (default 0 (agentCounts !! OFFICE) = 25) as HO.
  { destruct (Hn OFFICE ltac:(by repeat constructor)) as [E _].
    replace (int_of_double _) with (Ok 25 : outcome Z) in E by (by vm_compute).
    by injection E as <-. }
  assert (default 0 (agentCounts !! COM_SHOP) = 20) as HS.
  { destruct (Hn COM_SHOP ltac:(by repeat constructor)) as [E _].
    replace (int_of_double _) with (Ok 20 : outcome Z) in E by (by vm_compute).
    by injection E as <-. }
  assert (default 0 (agentCounts !! COM_CAFE) = 10) as HC.
  { destruct (Hn COM_CAFE ltac:(by repeat constructor)) as [E _].
    replace (int_of_double _) with (Ok 10 : outcome Z) in E by (by vm_compute).
    by injection E as <-. }
  unfold agentTypes in Hperm. cbn [mbind list_bind] in Hperm.
  rewrite HR, HO, HS, HC in Hperm.
  destruct Hperm as (padding & Hpad & _ & Hperm).
  { rewrite !length_app, !length_replicate. simpl. lia. }
  rewrite !length_app, !length_replicate in Hpad. simpl in Hpad.
  assert (padding = []) as -> by (apply length_zero_iff_nil; lia).
  rewrite Hperm. change (agents Source.layout) with (@nil CellType).
  by rewrite !app_nil_r.
Qed.

(** What every completed run of [main] reports: two grids that differ from
    the layout only where it is empty, without an empty cell, with 45, 25, 20
    and 10 cells of the four agent labels; an optimised score that is the
    initial score or above it, and that is the score of the optimised grid
    under the distance fields of that grid. *)
Theorem main_report fuel tape rep tape' :
  main random_shuffle exp RAND_MAX fuel tape = Ok (rep, tape') →
  ∃ g g' distanceMaps,
    initial_grid rep = printGrid g ∧ optimised_grid rep = printGrid g' ∧
    shaped Source.ROWS Source.COLS g ∧ shaped Source.ROWS Source.COLS g' ∧
    same_features Source.layout g ∧ same_features Source.layout g' ∧
    (∀ x y, at2 g x y ≠ Some EMPTY) ∧ (∀ x y, at2 g' x y ≠ Some EMPTY) ∧
    agents g ≡ₚ replicate 45 RESIDENTIAL ++ replicate 25 OFFICE ++
                replicate 20 COM_SHOP ++ replicate 10 COM_CAFE ∧
    agents g' ≡ₚ agents g ∧
    not_above (initial_score rep) (optimised_score rep) ∧
    computeDistanceMaps Source.ROWS Source.COLS fuel g' = Ok distanceMaps ∧
    calculateScore Source.ROWS Source.COLS agentPreferences_src g' distanceMaps
    = Ok (optimised_score rep).
Proof.
  intros H. unfold main in H. inv_bind H. injection H as <- <-.
  rename l into g, l1 into g', a into distanceMaps. simpl.
  assert (shaped Source.ROWS Source.COLS Source.layout) as Hs0
    by (apply shaped_check_sound; by vm_compute).
  destruct (generateGrid_input_cells _ _ _ shuffle_permutes _ _ _ _ _ Hs0 E)
    as (Hs & Hkept & Hfilled).
  destruct (generateGrid_input_same_features _ _ _ shuffle_permutes _ _ _ _ _ Hs0 E)
    as [_ Hsame].
  destruct (optimiseGrid_same_features _ _ _ _ _ _ _ _ _ _ _ _ _ _ Hs E2)
    as [Hs' Hsame'].
  destruct (optimiseGrid_runs _ _ _ _ _ _ _ _ _ _ _ _ _ _ E2)
    as (score & n & st & Hscore & Hrun & _ & ->).
  rewrite E1 in Hscore. injection Hscore as <-.
  destruct (runs_scores _ _ _ _ _ _ _ _ _ _ _ _ _ _ E1 Hrun) as (_ & Hbest & Hle).
  simpl in Hbest, Hle. rewrite Hbest in E3. injection E3 as <-.
  assert (∀ x y, at2 g x y ≠ Some EMPTY) as Hfull.
  { intros x y Hxy.
    destruct (at2_shaped _ _ Source.layout x y Hs0 (at2_in_grid _ _ g x y _ Hs Hxy))
      as [c Hc].
    destruct (decide (c = EMPTY)) as [->|Hne].
    - destruct (Hfilled x y Hc) as (b & Hb & Hag).
      by assert (b = EMPTY) as -> by congruence.
    - specialize (Hkept x y c Hc Hne). congruence. }
  exists g, (bestGrid st), distanceMaps.
  split; [done|]. split; [done|]. split; [done|]. split; [done|]. split; [done|].
  split; [by eapply same_features_trans|]. split; [done|]. split; [|split; [|split]].
  - intros x y Hxy.
    destruct (at2_shaped _ _ g x y Hs (at2_in_grid _ _ _ x y _ Hs' Hxy)) as [c Hc].
    destruct (is_agent c) eqn:Hag.
    + destruct (runs_agent_cells _ _ _ _ _ _ _ _ _ _ _ _ _ _ Hs Hrun) as [_ Hcells].
      destruct (Hcells x y c Hc Hag) as [_ (b & Hb & Hbb)]. simpl in Hb.
      by assert (b = EMPTY) as -> by congruence.
    + destruct (runs_fixed _ _ _ _ _ _ _ _ _ _ _ _ _ _ _ _ _ Hrun Hc Hag) as [_ Hb].
      simpl in Hb. assert (c = EMPTY) as -> by congruence. by apply (Hfull x y).
  - by eapply source_layout_shares.
  - by destruct (runs_agents _ _ _ _ _ _ _ _ _ _ _ _ _ _ Hrun) as [_ ?].
  - split; [done|]. split; [|done].
    rewrite <- E0. unfold computeDistanceMaps.
    apply for_each_ext_in. intros t dms Ht. symmetry.
    by rewrite (distance_map_same_features Source.ROWS Source.COLS fuel g (bestGrid st) t).
Qed.

End MainReport.

Section Still.
Variables ROWS COLS : Z.
Variable agentPreferences : gmap CellType (list double).
Variable exp : double → double.
Variable RAND_MAX : Z.
Variable distanceMaps : gmap CellType (matrix double).
Variables cooldown coolingRate : double.
Variable g : Grid.
Variable s T0 : double.
Hypothesis pick_first : ∀ tape, pick_agent ROWS COLS g (0 :: 0 :: tape) = Ok ((0, 0), tape).
Hypothesis swap_same : swap_cells g (0, 0) (0, 0) = Ok g.
Hypothesis score_g : calculateScore ROWS COLS agentPreferences g distanceMaps = Ok s.
Hypothesis no_gain : (0 <? s - s)%float = false.
Hypothesis no_best : (s <? s)%float = false.

(** A turn that draws five 0s swaps (0,0) with itself and accepts. *)
Lemma still_step T k tape :
  k < INT_MAX →
  (uniform_draw RAND_MAX 0 <? exp ((s - s) / T))%float = true →
  anneal_step ROWS COLS agentPreferences exp RAND_MAX distanceMaps coolingRate
    (Annealer g s g s T k) (0 :: 0 :: 0 :: 0 :: 0 :: tape)
  = Ok (Annealer g s g s (T * (1 - coolingRate))%float (k + 1), tape).
Proof.
  intros Hk Hacc. unfold anneal_step, propose, select_swap. cbn [grid].
  rewrite pick_first. cbn [mbind outcome_bind]. rewrite pick_first.
  cbn [mbind outcome_bind]. rewrite swap_same. cbn [mbind outcome_bind].
  rewrite score_g. cbn [mbind outcome_bind currentScore temperature].
  unfold accept_test. rewrite no_gain. cbn [rand mbind outcome_bind]. rewrite Hacc.
  cbn [mbind outcome_bind]. unfold commit. cbn [accepted bestScore newScore].
  rewrite no_best. unfold cool. cbn [iteration]. by rewrite bool_decide_eq_true_2.
Qed.

Lemma still_loop n : ∀ m k,
  (k + m = n)%nat →
  first_cold T0 cooldown coolingRate n →
  Z.of_nat n ≤ INT_MAX →
  (∀ j, (j < n)%nat →
     (uniform_draw RAND_MAX 0 <? exp ((s - s) / temperature_at T0 coolingRate j))%float
     = true) →
  anneal_loop ROWS COLS agentPreferences exp RAND_MAX m distanceMaps cooldown coolingRate
    (Annealer g s g s (temperature_at T0 coolingRate k) (Z.of_nat k))
    (replicate (m * 5) 0)
  = Ok (Annealer g s g s (temperature_at T0 coolingRate n) (Z.of_nat n), []).
Proof.
  induction m as [|m IH]; intros k Hkm [Hcold Hhot] Hmax Hacc.
  - rewrite Nat.add_0_r in Hkm. subst k. simpl. by rewrite Hcold.
  - cbn [anneal_loop temperature]. rewrite Hhot by lia.
    change (replicate (S m * 5) 0) with (0 :: 0 :: 0 :: 0 :: 0 :: replicate (m * 5) 0).
    rewrite still_step; [|lia|apply Hacc; lia]. cbn [mbind outcome_bind].
    replace (Z.of_nat k + 1) with (Z.of_nat (S k)) by lia.
    change (temperature_at T0 coolingRate k * (1 - coolingRate))%float
      with (temperature_at T0 coolingRate (S k)).
    apply IH; [lia|done..].
Qed.

Lemma still_run n :
  first_cold T0 cooldown coolingRate n →
  Z.of_nat n ≤ INT_MAX →
  (∀ j, (j < n)%nat →
     (uniform_draw RAND_MAX 0 <? exp ((s - s) / temperature_at T0 coolingRate j))%float
     = true) →
  optimiseGrid ROWS COLS agentPreferences exp RAND_MAX n g distanceMaps
    T0 cooldown coolingRate (replicate (n * 5) 0)
  = Ok (g, []).
Proof.
  intros Hcold Hmax Hacc. unfold optimiseGrid. rewrite score_g.
  cbn [mbind outcome_bind].
  pose proof (still_loop n n 0 eq_refl Hcold Hmax Hacc) as Hloop.
  change (temperature_at T0 coolingRate 0) with T0 in Hloop.
  change (Z.of_nat 0) with 0 in Hloop. unfold initial_state. by rewrite Hloop.
Qed.

End Still.

Lemma still_accept_check_sound s n :
  still_accept_check s n = true →
  ∀ j, (j < n)%nat →
    (uniform_draw 32767 0
     <? exp_poly ((s - s) / temperature_at 1000 Source.coolingRate j))%float = true.
Proof.
  unfold still_accept_check. rewrite forallb_forall. intros H j Hj.
  apply H, list_elem_of_In, elem_of_seq. lia.
Qed.

Section Moved.
Variables ROWS COLS : Z.
Variable agentPreferences : gmap CellType (list double).
Variable exp : double → double.
Variable RAND_MAX : Z.
Variable distanceMaps : gmap CellType (matrix double).
Variables cooldown coolingRate : double.
Variables g0 g : Grid.
Variables s0 s T0 : double.
Variables x1 y1 x2 y2 : Z.
Hypothesis pick1 : ∀ tape, pick_agent ROWS COLS g0 (x1 :: y1 :: tape) = Ok ((x1, y1), tape).
Hypothesis pick2 : ∀ tape, pick_agent ROWS COLS g0 (x2 :: y2 :: tape) = Ok ((x2, y2), tape).
Hypothesis swapped : swap_cells g0 (x1, y1) (x2, y2) = Ok g.
Hypothesis score_g0 : calculateScore ROWS COLS agentPreferences g0 distanceMaps = Ok s0.
Hypothesis score_g : calculateScore ROWS COLS agentPreferences g distanceMaps = Ok s.
Hypothesis gain : (0 <? s - s0)%float = true.
Hypothesis best : (s0 <? s)%float = true.
Hypothesis pick_first : ∀ tape, pick_agent ROWS COLS g (0 :: 0 :: tape) = Ok ((0, 0), tape).
Hypothesis swap_same : swap_cells g (0, 0) (0, 0) = Ok g.
Hypothesis no_gain : (0 <? s - s)%float = false.
Hypothesis no_best : (s <? s)%float = false.

(** A first turn that exchanges two cells and raises the score: the
    candidate is accepted without a draw and becomes the snapshot. *)
Lemma moved_step tape :
  anneal_step ROWS COLS agentPreferences exp RAND_MAX distanceMaps coolingRate
    (initial_state g0 s0 T0) (x1 :: y1 :: x2 :: y2 :: tape)
  = Ok (Annealer g s g s (T0 * (1 - coolingRate))%float 1, tape).
Proof.
  unfold anneal_step, propose, select_swap, initial_state. cbn [grid].
  rewrite pick1. cbn [mbind outcome_bind]. rewrite pick2.
  cbn [mbind outcome_bind]. rewrite swapped. cbn [mbind outcome_bind].
  rewrite score_g. cbn [mbind outcome_bind currentScore temperature].
  unfold accept_test. rewrite gain. cbn [mbind outcome_bind].
  unfold commit. cbn [accepted bestScore newScore]. rewrite best. unfold cool.
  cbn [iteration]. by rewrite bool_decide_eq_true_2.
Qed.

(** The whole run: the first turn moves, the others stand still. *)
Lemma moved_run n :
  first_cold T0 cooldown coolingRate (S n) →
  Z.of_nat (S n) ≤ INT_MAX →
  (∀ j, (j < S n)%nat →
     (uniform_draw RAND_MAX 0 <? exp ((s - s) / temperature_at T0 coolingRate j))%float
     = true) →
  optimiseGrid ROWS COLS agentPreferences exp RAND_MAX (S n) g0 distanceMaps
    T0 cooldown coolingRate (x1 :: y1 :: x2 :: y2 :: replicate (n * 5) 0)
  = Ok (g, []).
Proof.
  intros Hcold Hmax Hacc. unfold optimiseGrid. rewrite score_g0.
  cbn [mbind outcome_bind anneal_loop].
  replace (cooldown <? temperature (initial_state g0 s0 T0))%float with true
    by (symmetry; apply (proj2 Hcold 0%nat); lia).
  rewrite moved_step. cbn [mbind outcome_bind].
  pose proof (still_loop ROWS COLS agentPreferences exp RAND_MAX distanceMaps
                cooldown coolingRate g s T0 pick_first swap_same score_g no_gain no_best
                (S n) n 1%nat ltac:(lia) Hcold Hmax Hacc) as Hloop.
  change (temperature_at T0 coolingRate 1) with (T0 * (1 - coolingRate))%float in Hloop.
  change (Z.of_nat 1) with 1 in Hloop. by rewrite Hloop.
Qed.

End Moved.

(** Draws that follow the ones a call consumes are handed on untouched. *)
Lemma fill_up_frame n rest : ∀ l tape l' tape',
  fill_up n l tape = Ok (l', tape') →
  fill_up n l (tape ++ rest) = Ok (l', tape' ++ rest).
Proof.
  induction n as [|n IH]; intros l tape l' tape'; simpl.
  - by intros [= <- <-].
  - destruct tape as [|r tape]; [done|]. cbn [app rand mbind outcome_bind].
    destruct (agentTypes !! _) as [a|]; [|done]. cbn [or_undefined mbind outcome_bind].
    apply IH.
Qed.

Lemma random_shuffle_gnu_frame rest l tape l' tape' :
  random_shuffle_gnu l tape = Ok (l', tape') →
  random_shuffle_gnu l (tape ++ rest) = Ok (l', tape' ++ rest).
Proof.
  unfold random_shuffle_gnu. generalize (seq 1 (length l - 1)) as idxs.
  intros idxs. revert l tape.
  induction idxs as [|i idxs IH]; intros l tape; simpl.
  - by intros [= <- <-].
  - destruct tape as [|r tape]; [done|]. cbn [app rand mbind outcome_bind]. apply IH.
Qed.

Lemma generateGrid_input_frame ROWS COLS g agentPercentages tape g' tape' rest :
  generateGrid_input ROWS COLS random_shuffle_gnu g agentPercentages tape
    = Ok (g', tape') →
  generateGrid_input ROWS COLS random_shuffle_gnu g agentPercentages (tape ++ rest)
    = Ok (g', tape' ++ rest).
Proof.
  unfold generateGrid_input. intros H. inv_bind H. injection H as <- <-.
  rewrite E. cbn [mbind outcome_bind]. rewrite E0. cbn [mbind outcome_bind].
  rewrite E1. cbn [mbind outcome_bind]. rewrite E2. cbn [mbind outcome_bind].
  rewrite (fill_up_frame _ rest _ _ _ _ E3). cbn [mbind outcome_bind].
  rewrite (random_shuffle_gnu_frame rest _ _ _ _ E4). cbn [mbind outcome_bind].
  by rewrite E5.
Qed.

(** A draw of [x], [y] selects the cell (x,y) when it holds an agent label. *)
Lemma pick_agent_hit ROWS COLS g x y c tape :
  bool_decide (ROWS = 0 ∨ COLS = 0) = false →
  read2 g (Z.rem x ROWS) (Z.rem y COLS) = Ok c → is_agent c = true →
  (Z.rem x ROWS, Z.rem y COLS) = (x, y) →
  pick_agent ROWS COLS g (x :: y :: tape) = Ok ((x, y), tape).
Proof.
  intros Hdims Hread Hag Hxy. cbn [pick_agent]. rewrite Hdims, Hread.
  cbn [mbind outcome_bind]. by rewrite Hag, Hxy.
Qed.

Lemma first_generated :
  generateGrid_input Source.ROWS Source.COLS random_shuffle_gnu Source.layout
    agentPercentages_src moved_draws
  = Ok (first_grid, [0; 0; 0; 2] ++ replicate (9205 * 5) 0).
Proof.
  apply (generateGrid_input_frame _ _ _ _ (replicate 99 0) first_grid []).
  vm_compute. reflexivity.
Qed.

Lemma first_scored :
  calculateScore Source.ROWS Source.COLS agentPreferences_src first_grid first_fields
  = Ok first_score.
Proof. vm_compute. reflexivity. Qed.

Lemma moved_scored :
  calculateScore Source.ROWS Source.COLS agentPreferences_src moved_grid first_fields
  = Ok moved_score.
Proof. vm_compute. reflexivity. Qed.

Lemma moved_optimised :
  optimiseGrid Source.ROWS Source.COLS agentPreferences_src exp_poly 32767 9206
    first_grid first_fields 1000 Source.cooldown Source.coolingRate
    ([0; 0; 0; 2] ++ replicate (9205 * 5) 0)
  = Ok (moved_grid, []).
Proof.
  apply (moved_run Source.ROWS Source.COLS agentPreferences_src exp_poly 32767
           first_fields Source.cooldown Source.coolingRate first_grid moved_grid
           first_score moved_score 1000 0 0 0 2).
  - intros tape. apply (pick_agent_hit _ _ _ _ _ COM_CAFE); vm_compute; reflexivity.
  - intros tape. apply (pick_agent_hit _ _ _ _ _ RESIDENTIAL); vm_compute; reflexivity.
  - vm_compute. reflexivity.
  - apply first_scored.
  - apply moved_scored.
  - vm_compute. reflexivity.
  - vm_compute. reflexivity.
  - intros tape. apply (pick_agent_hit _ _ _ _ _ RESIDENTIAL); vm_compute; reflexivity.
  - vm_compute. reflexivity.
  - vm_compute. reflexivity.
  - vm_compute. reflexivity.
  - apply main_schedule.
  - vm_compute. discriminate.
  - apply still_accept_check_sound. vm_cast_no_check (eq_refl true).
Qed.

Lemma first_fields_computed :
  computeDistanceMaps Source.ROWS Source.COLS 9206 first_grid = Ok first_fields.
Proof. vm_cast_no_check (eq_refl (Ok first_fields)). Qed.

(** [main], stage by stage. *)
Lemma main_stages random_shuffle exp RAND_MAX fuel tape g tape1 distanceMaps
    initialScore g' tape2 finalScore :
  generateGrid_input Source.ROWS Source.COLS random_shuffle Source.layout
    agentPercentages_src tape = Ok (g, tape1) →
  computeDistanceMaps Source.ROWS Source.COLS fuel g = Ok distanceMaps →
  calculateScore Source.ROWS Source.COLS agentPreferences_src g distanceMaps
    = Ok initialScore →
  optimiseGrid Source.ROWS Source.COLS agentPreferences_src exp RAND_MAX fuel g
    distanceMaps 1000 Source.cooldown Source.coolingRate tape1 = Ok (g', tape2) →
  calculateScore Source.ROWS Source.COLS agentPreferences_src g' distanceMaps
    = Ok finalScore →
  main random_shuffle exp RAND_MAX fuel tape
  = Ok (Report (printGrid g) initialScore (printGrid g') finalScore, tape2).
Proof.
  intros H1 H2 H3 H4 H5. unfold main. rewrite H1. cbn [mbind outcome_bind].
  rewrite H2. cbn [mbind outcome_bind]. rewrite H3. cbn [mbind outcome_bind].
  rewrite H4. cbn [mbind outcome_bind]. by rewrite H5.
Qed.

(** [main] completes on these draws; the grid it reports as optimised is not
    the one it reports as initial, and scores higher. *)
Lemma main_moved :
  main random_shuffle_gnu exp_poly 32767 9206 moved_draws = Ok (moved_report, []) ∧
  optimised_grid moved_report ≠ initial_grid moved_report ∧
  (initial_score moved_report <? optimised_score moved_report)%float = true.
Proof.
  split; [|split].
  - exact (main_stages random_shuffle_gnu exp_poly 32767 9206 moved_draws first_grid
             ([0; 0; 0; 2] ++ replicate (9205 * 5) 0) first_fields first_score
             moved_grid [] moved_score
             first_generated first_fields_computed first_scored moved_optimised
             moved_scored).
  - vm_compute. discriminate.
  - vm_compute. reflexivity.
Qed.

Lemma main_report_witness :
  ∃ g g' distanceMaps,
    initial_grid moved_report = printGrid g ∧ optimised_grid moved_report = printGrid g' ∧
    shaped Source.ROWS Source.COLS g ∧ shaped Source.ROWS Source.COLS g' ∧
    same_features Source.layout g ∧ same_features Source.layout g' ∧
    (∀ x y, at2 g x y ≠ Some EMPTY) ∧ (∀ x y, at2 g' x y ≠ Some EMPTY) ∧
    agents g ≡ₚ replicate 45 RESIDENTIAL ++ replicate 25 OFFICE ++
                replicate 20 COM_SHOP ++ replicate 10 COM_CAFE ∧
    agents g' ≡ₚ agents g ∧
    not_above (initial_score moved_report) (optimised_score moved_report) ∧
    computeDistanceMaps Source.ROWS Source.COLS 9206 g' = Ok distanceMaps ∧
    calculateScore Source.ROWS Source.COLS agentPreferences_src g' distanceMaps
    = Ok (optimised_score moved_report).
Proof.
  apply (main_report random_shuffle_gnu exp_poly 32767 random_shuffle_gnu_permutes
           9206 moved_draws moved_report []).
  apply main_moved.
Defined.
